(** * proctree: a shallow embedding of the process-tree session

    The Go package keeps a session ([ProcTree]) that owns a map from process
    ids to heap-allocated [Process] objects.  Objects are shared by pointer
    (the pid map, the derived slices, parent links and child slices all alias
    the same objects), so the embedding has an explicit store: a [Heap] is a
    list of [Process] records and a pointer is an index into it.  Objects are
    never freed; [newProcess] allocates at the end of the list.

    The session lock is not modelled: every operation is run to completion,
    and a public method coincides with its [locked] variant. *)

From stdpp Require Import base option list gmap sorting strings.

Open Scope Z_scope.

(** ** Data model *)

(** A record returned by the process enumeration provider
    (the [gops.Process] interface: [Pid()], [PPid()], [Executable()]). *)
Record gops_Process : Type := mk_gops {
  Pid : Z;
  PPid : Z;
  Executable : string
}.

(** A pointer to a [Process] object; Go's [nil] is [None] of [option ptr]. *)
Abbreviation ptr := nat.

Record Process : Type := mk_Process {
  gopsProcess : gops_Process;
  isTombstone : bool;
  parentProc : option ptr;
  origParentProc : option ptr;
  absChildProcs : list ptr;
  includedChildProcs : list ptr;
  isIncluded : bool
}.

Abbreviation Heap := (list Process).

Record Config : Type := mk_Config {
  includeKernelThreads : bool;
  includeRootAncestors : bool;
  rootPids : list Z
}.

Inductive error : Type :=
| ProviderError (msg : string)
    (* whatever gops.Processes() returned, passed on verbatim *)
| ConfiguredRootMissing (pid : Z)
    (* "Configured root pid %d does not exist" *)
| RootedSubsetError (cause : error)
    (* "Unable to compute rooted tree subset: %s" *)
| KernelSubtreeError (cause : error).
    (* "Unable to compute disable kernel thread subtree: %s" *)

Record ProcTree : Type := mk_ProcTree {
  cfg : Config;
  heap : Heap;
  pidMap : gmap Z ptr;
  absProcs : list ptr;
  absRootProcs : list ptr;
  cfgRootProcs : option (list ptr);   (* [None] is the nil slice *)
  includedProcs : list ptr;
  includedRootProcs : list ptr
}.

(** ** Configuration (the options pattern) *)

Definition ConfigOption : Type := Config → Config.

Definition defaultIncludeKernelThreads : bool := false.
Definition defaultIncludeRootAncestors : bool := false.

Definition NewConfig (opts : list ConfigOption) : Config :=
  foldl (λ c opt, opt c)
        (mk_Config defaultIncludeKernelThreads defaultIncludeRootAncestors [])
        opts.

Definition WithConfig (other : Config) : ConfigOption :=
  λ _, mk_Config (includeKernelThreads other) (includeRootAncestors other)
                 (rootPids other).

Definition Refine (c : Config) (opts : list ConfigOption) : Config :=
  NewConfig (WithConfig c :: opts).

Definition WithKernelThreads : ConfigOption :=
  λ c, mk_Config true (includeRootAncestors c) (rootPids c).

Definition WithoutKernelThreads : ConfigOption :=
  λ c, mk_Config false (includeRootAncestors c) (rootPids c).

Definition WithRootAncestors : ConfigOption :=
  λ c, mk_Config (includeKernelThreads c) true (rootPids c).

Definition WithoutRootAncestors : ConfigOption :=
  λ c, mk_Config (includeKernelThreads c) false (rootPids c).

Definition WithRootPid (pid : Z) : ConfigOption :=
  λ c, mk_Config (includeKernelThreads c) (includeRootAncestors c)
                 (rootPids c ++ [pid]).

Definition WithoutRootPid : ConfigOption :=
  λ c, mk_Config (includeKernelThreads c) (includeRootAncestors c) [].

(** ** Process objects *)

Definition newProcess (g : gops_Process) : Process :=
  mk_Process g false None None [] [] true.

(** Field assignments, one function per assignment of the source. *)
Definition set_isIncluded (b : bool) (n : Process) : Process :=
  mk_Process (gopsProcess n) (isTombstone n) (parentProc n) (origParentProc n)
             (absChildProcs n) (includedChildProcs n) b.

Definition set_absChildProcs (l : list ptr) (n : Process) : Process :=
  mk_Process (gopsProcess n) (isTombstone n) (parentProc n) (origParentProc n)
             l (includedChildProcs n) (isIncluded n).

Definition set_includedChildProcs (l : list ptr) (n : Process) : Process :=
  mk_Process (gopsProcess n) (isTombstone n) (parentProc n) (origParentProc n)
             (absChildProcs n) l (isIncluded n).

(** [proc.isTombstone = true; proc.absChildProcs = {}; proc.includedChildProcs = {}] *)
Definition entomb (n : Process) : Process :=
  mk_Process (gopsProcess n) true (parentProc n) (origParentProc n)
             [] [] (isIncluded n).

(** [proc.gopsProcess = gopsProc; proc.isTombstone = false] *)
Definition refresh (g : gops_Process) (n : Process) : Process :=
  mk_Process g false (parentProc n) (origParentProc n)
             (absChildProcs n) (includedChildProcs n) (isIncluded n).

(** [proc.parentProc = pproc; if proc.origParentProc == nil { proc.origParentProc = pproc }] *)
Definition adopt (pproc : ptr) (n : Process) : Process :=
  mk_Process (gopsProcess n) (isTombstone n) (Some pproc)
             (match origParentProc n with None => Some pproc | o => o end)
             (absChildProcs n) (includedChildProcs n) (isIncluded n).

Definition push_absChild (c : ptr) (n : Process) : Process :=
  set_absChildProcs (absChildProcs n ++ [c]) n.

Definition push_includedChild (c : ptr) (n : Process) : Process :=
  set_includedChildProcs (includedChildProcs n ++ [c]) n.

(** Reading a field through a pointer.  Every pointer the program holds is
    valid; the fall-back values only make the readers total. *)
Definition pidAt (hp : Heap) (p : ptr) : Z :=
  from_option (λ n, Pid (gopsProcess n)) 0 (hp !! p).
Definition ppidAt (hp : Heap) (p : ptr) : Z :=
  from_option (λ n, PPid (gopsProcess n)) 0 (hp !! p).
Definition parentAt (hp : Heap) (p : ptr) : option ptr :=
  hp !! p ≫= parentProc.
Definition absChildrenAt (hp : Heap) (p : ptr) : list ptr :=
  from_option absChildProcs [] (hp !! p).
Definition includedChildrenAt (hp : Heap) (p : ptr) : list ptr :=
  from_option includedChildProcs [] (hp !! p).
Definition includedAt (hp : Heap) (p : ptr) : bool :=
  from_option isIncluded false (hp !! p).
Definition tombstoneAt (hp : Heap) (p : ptr) : bool :=
  from_option isTombstone false (hp !! p).

Definition lockedPid (hp : Heap) (p : ptr) : Z := pidAt hp p.

Definition lockedExecutable (hp : Heap) (p : ptr) : string :=
  from_option (λ n, Executable (gopsProcess n)) EmptyString (hp !! p).

Definition lockedParent (hp : Heap) (p : ptr) : option ptr :=
  match parentAt hp p with
  | None => None
  | Some pp =>
      if bool_decide (pp = p) || negb (includedAt hp pp) then None else Some pp
  end.

Definition lockedOrigParent (hp : Heap) (p : ptr) : option ptr :=
  hp !! p ≫= origParentProc.

Definition lockedChildren (hp : Heap) (p : ptr) : list ptr :=
  includedChildrenAt hp p.

(** [Children] copies the slice; a copy of an immutable list is the list. *)
Definition Children (hp : Heap) (p : ptr) : list ptr :=
  includedChildrenAt hp p.

(** ** Traversals

    The recursive methods of the source recurse along parent links or child
    slices of the store, which may contain cycles; the embedding bounds the
    recursion depth by [fuel] and answers [None] when the bound is hit, so
    that a call that never returns in Go is a call that answers [None] for
    every [fuel]. *)

(** A handler may read and write the store and may fail. *)
Definition ProcessHandler : Type := ptr → Heap → Heap * option error.

(** [for _, proc := range procs { err := f(proc); if err != nil { return err } }] *)
Fixpoint forEachProc (f : ptr → Heap → option (Heap * option error))
    (procs : list ptr) (hp : Heap) : option (Heap * option error) :=
  match procs with
  | [] => Some (hp, None)
  | proc :: rest =>
      match f proc hp with
      | None => None
      | Some (hp', Some e) => Some (hp', Some e)
      | Some (hp', None) => forEachProc f rest hp'
      end
  end.

Fixpoint lockedWalkFullSubtree (fuel : nat) (h : ProcessHandler)
    (p : ptr) (hp : Heap) : option (Heap * option error) :=
  match fuel with
  | O => None
  | S fuel' =>
      match h p hp with
      | (hp1, Some e) => Some (hp1, Some e)
      | (hp1, None) =>
          forEachProc (lockedWalkFullSubtree fuel' h) (absChildrenAt hp1 p) hp1
      end
  end.

Fixpoint lockedWalkSubtree (fuel : nat) (h : ProcessHandler)
    (p : ptr) (hp : Heap) : option (Heap * option error) :=
  match fuel with
  | O => None
  | S fuel' =>
      if includedAt hp p then
        match h p hp with
        | (hp1, Some e) => Some (hp1, Some e)
        | (hp1, None) =>
            forEachProc (lockedWalkSubtree fuel' h) (lockedChildren hp1 p) hp1
        end
      else Some (hp, None)
  end.

(** The public walk differs from the locked one only in taking the lock once
    per visited node. *)
Definition WalkSubtree := lockedWalkSubtree.

Fixpoint lockedWalkFullAncestry (fuel : nat) (h : ProcessHandler)
    (p : ptr) (hp : Heap) : option (Heap * option error) :=
  match fuel with
  | O => None
  | S fuel' =>
      match h p hp with
      | (hp1, Some e) => Some (hp1, Some e)
      | (hp1, None) =>
          match parentAt hp1 p with
          | Some parent =>
              if bool_decide (parent ≠ p)
              then lockedWalkFullAncestry fuel' h parent hp1
              else Some (hp1, None)
          | None => Some (hp1, None)
          end
      end
  end.

Fixpoint lockedWalkAncestry (fuel : nat) (h : ProcessHandler)
    (p : ptr) (hp : Heap) : option (Heap * option error) :=
  match fuel with
  | O => None
  | S fuel' =>
      match (if includedAt hp p then h p hp else (hp, None)) with
      | (hp1, Some e) => Some (hp1, Some e)
      | (hp1, None) =>
          match parentAt hp1 p with
          | Some parent =>
              if bool_decide (parent ≠ p)
              then lockedWalkAncestry fuel' h parent hp1
              else Some (hp1, None)
          | None => Some (hp1, None)
          end
      end
  end.

(** The public walk reads the inclusion flag and the parent link under the
    lock before it calls the handler. *)
Fixpoint WalkAncestry (fuel : nat) (h : ProcessHandler)
    (p : ptr) (hp : Heap) : option (Heap * option error) :=
  match fuel with
  | O => None
  | S fuel' =>
      let isIncluded := includedAt hp p in
      let parent := parentAt hp p in
      match (if isIncluded then h p hp else (hp, None)) with
      | (hp1, Some e) => Some (hp1, Some e)
      | (hp1, None) =>
          match parent with
          | Some parent =>
              if bool_decide (parent ≠ p)
              then WalkAncestry fuel' h parent hp1
              else Some (hp1, None)
          | None => Some (hp1, None)
          end
      end
  end.

(** [parent != nil && ancestor != nil && (parent == ancestor || parent.lockedIsDescendantOf(ancestor))] *)
Fixpoint lockedIsDescendantOf (fuel : nat) (hp : Heap) (p : ptr)
    (ancestor : option ptr) : option bool :=
  match fuel with
  | O => None
  | S fuel' =>
      match parentAt hp p with
      | None => Some false
      | Some parent =>
          match ancestor with
          | None => Some false
          | Some a =>
              if bool_decide (parent = a) then Some true
              else lockedIsDescendantOf fuel' hp parent ancestor
          end
      end
  end.

Definition IsDescendantOf := lockedIsDescendantOf.

Definition lockedIsAncestorOf (fuel : nat) (hp : Heap) (p : ptr)
    (descendant : option ptr) : option bool :=
  match descendant with
  | None => Some false
  | Some d => lockedIsDescendantOf fuel hp d (Some p)
  end.

Definition IsAncestorOf := lockedIsAncestorOf.

(** The loop of [lockedDepth]: [fuel] bounds the number of iterations. *)
Fixpoint lockedDepth_loop (fuel : nat) (hp : Heap) (proc : ptr) (result : Z)
    : option Z :=
  match parentAt hp proc with
  | None => Some result
  | Some pp =>
      if bool_decide (pp ≠ proc) && includedAt hp pp then
        match fuel with
        | O => None
        | S fuel' => lockedDepth_loop fuel' hp pp (result + 1)
        end
      else Some result
  end.

Definition lockedDepth (fuel : nat) (hp : Heap) (p : ptr) : option Z :=
  lockedDepth_loop fuel hp p 0.

Definition Depth := lockedDepth.

(** ** The session *)

(** [sort.Slice(procs, func(i, j) { return procs[i].lockedPid() < procs[j].lockedPid() })].
    The slices sorted by the session hold objects with pairwise distinct
    pids, for which the ascending order is unique. *)
Definition pid_le (hp : Heap) : relation ptr := λ a b, pidAt hp a ≤ pidAt hp b.

#[global] Instance pid_le_dec (hp : Heap) : RelDecision (pid_le hp) :=
  λ a b, decide (pidAt hp a ≤ pidAt hp b).

Definition lockedSortProcessesByPid (hp : Heap) (procs : list ptr) : list ptr :=
  merge_sort (pid_le hp) procs.

Definition kthreadPid : Z := 2.

Definition fixedRootsOf (c : Config) : bool :=
  bool_decide (0 < length (rootPids c))%nat.

(** What [gops.Processes()] returns: the records, or an error. *)
Definition gops_result : Type := (list gops_Process + string)%type.

(** A computation that may call the enumeration provider.  The call records
    the session as it is when the provider is called; the continuation
    receives what the provider returned. *)
Inductive Calling (A : Type) : Type :=
| Return (a : A)
| gops_Processes (at_call : ProcTree) (k : gops_result → Calling A).
Arguments Return {A} a.
Arguments gops_Processes {A} at_call k.

Fixpoint answer {A} (r : gops_result) (c : Calling A) : A :=
  match c with
  | Return a => a
  | gops_Processes _ k => answer r (k r)
  end.

(** The session observed by the first provider call, if there is one. *)
Definition session_at_call {A} (c : Calling A) : option ProcTree :=
  match c with
  | Return _ => None
  | gops_Processes pt _ => Some pt
  end.

(** Lines 95-100: tombstone every known object and drop its child slices. *)
Definition markAll (m : gmap Z ptr) (hp : Heap) : Heap :=
  foldl (λ hp e, alter entomb e.2 hp) hp (map_to_list m).

(** Lines 102-119, one enumerated record. *)
Definition keepRecord (c : Config) (g : gops_Process) : bool :=
  includeKernelThreads c || (bool_decide (Pid g ≠ 2) && bool_decide (PPid g ≠ 2)).

Definition reconcileOne (c : Config) (st : Heap * gmap Z ptr) (g : gops_Process)
    : Heap * gmap Z ptr :=
  if keepRecord c g then
    match st.2 !! Pid g with
    | Some proc => (alter (refresh g) proc st.1, st.2)
    | None =>
        (st.1 ++ [set_isIncluded (negb (fixedRootsOf c)) (newProcess g)],
         <[Pid g := length st.1]> st.2)
    end
  else st.

Definition reconcile (c : Config) (gopsProcs : list gops_Process)
    (st : Heap * gmap Z ptr) : Heap * gmap Z ptr :=
  foldl (reconcileOne c) st gopsProcs.

(** Lines 121-128. *)
Definition pruneTombstoned (hp : Heap) (m : gmap Z ptr) : gmap Z ptr :=
  filter (λ e, tombstoneAt hp e.2 = false) m.

(** Lines 133-141: [inr pid] is the first configured pid without an object. *)
Fixpoint resolveRoots (m : gmap Z ptr) (pids : list Z) (acc : list ptr)
    : list ptr + Z :=
  match pids with
  | [] => inl acc
  | pid :: rest =>
      match m !! pid with
      | None => inr pid
      | Some proc => resolveRoots m rest (acc ++ [proc])
      end
  end.

(** Lines 149-170, one entry of the pid map.  The state is the store, the
    slice [absProcs] filled so far and [absRootProcs]. *)
Definition linkOne (m : gmap Z ptr) (st : Heap * list ptr * list ptr)
    (e : Z * ptr) : Heap * list ptr * list ptr :=
  let '(hp, procs, roots) := st in
  let proc := e.2 in
  let ppid := ppidAt hp proc in
  let pproc := if bool_decide (ppid ≠ 0) then m !! ppid else None in
  match pproc with
  | Some pp =>
      (alter (adopt pp) proc (alter (push_absChild proc) pp hp),
       procs ++ [proc], roots)
  | None => (hp, procs ++ [proc], roots ++ [proc])
  end.

(** Lines 175-177 and 248-250. *)
Definition sortAbsChildren (hp : Heap) (procs : list ptr) : Heap :=
  foldl (λ hp proc,
           alter (λ n, set_absChildProcs
                         (lockedSortProcessesByPid hp (absChildProcs n)) n)
                 proc hp)
        hp procs.

Definition sortIncludedChildren (hp : Heap) (procs : list ptr) : Heap :=
  foldl (λ hp proc,
           alter (λ n, set_includedChildProcs
                         (lockedSortProcessesByPid hp (includedChildProcs n)) n)
                 proc hp)
        hp procs.

(** The two handlers passed to the walks by [lockedUpdate]. *)
Definition includeHandler : ProcessHandler :=
  λ proc hp,
    (if includedAt hp proc then hp else alter (set_isIncluded true) proc hp, None).

Definition excludeHandler : ProcessHandler :=
  λ proc hp, (alter (set_isIncluded false) proc hp, None).

Definition lockedFullWalkFromRoots (fuel : nat) (roots : list ptr)
    (h : ProcessHandler) (hp : Heap) : option (Heap * option error) :=
  forEachProc (lockedWalkFullSubtree fuel h) roots hp.

Definition lockedWalkFromRoots (fuel : nat) (roots : list ptr)
    (h : ProcessHandler) (hp : Heap) : option (Heap * option error) :=
  forEachProc (lockedWalkSubtree fuel h) roots hp.

Definition WalkFromRoots := lockedWalkFromRoots.

(** Lines 231-243, one object of [absProcs].  The state is the store,
    [includedProcs] and [includedRootProcs]. *)
Definition includeOne (st : Heap * list ptr * list ptr) (proc : ptr)
    : Heap * list ptr * list ptr :=
  let '(hp, incl, roots) := st in
  if includedAt hp proc then
    let pproc := parentAt hp proc in
    let hp' := match pproc with
               | Some pp => alter (push_includedChild proc) pp hp
               | None => hp
               end in
    let isRoot := match pproc with
                  | None => true
                  | Some pp => bool_decide (pp = proc) || negb (includedAt hp' pp)
                  end in
    (hp', incl ++ [proc], if isRoot then roots ++ [proc] else roots)
  else st.

(** Lines 95-128 together: mark, reconcile, optionally prune. *)
Definition refreshNodes (pt : ProcTree) (pruneTombstones : bool)
    (gopsProcs : list gops_Process) : Heap * gmap Z ptr :=
  let st := reconcile (cfg pt) gopsProcs
                      (markAll (pidMap pt) (heap pt), pidMap pt) in
  (st.1, if pruneTombstones then pruneTombstoned st.1 st.2 else st.2).

(** Lines 130-142: the configured roots are resolved while the slice is nil. *)
Definition resolveConfigured (pt : ProcTree) (m : gmap Z ptr)
    : option (list ptr) + Z :=
  match fixedRootsOf (cfg pt), cfgRootProcs pt with
  | true, None =>
      match resolveRoots m (rootPids (cfg pt)) [] with
      | inl procs => inl (Some procs)
      | inr pid => inr pid
      end
  | _, held => inl held
  end.

(** Lines 146-170. *)
Definition linkAll (m : gmap Z ptr) (hp : Heap) : Heap * list ptr * list ptr :=
  foldl (linkOne m) (hp, [], []) (map_to_list m).

(** Lines 179-210. *)
Definition markIncluded (fuel : nat) (c : Config) (cfgRoots procs : list ptr)
    (hp : Heap) : option (Heap * option error) :=
  if fixedRootsOf c then
    match lockedFullWalkFromRoots fuel cfgRoots includeHandler hp with
    | None => None
    | Some (hp1, Some e) => Some (hp1, Some (RootedSubsetError e))
    | Some (hp1, None) =>
        if includeRootAncestors c then
          match forEachProc (lockedWalkFullAncestry fuel includeHandler)
                            cfgRoots hp1 with
          | None => None
          | Some (hp2, Some e) => Some (hp2, Some (RootedSubsetError e))
          | Some (hp2, None) => Some (hp2, None)
          end
        else Some (hp1, None)
    end
  else
    Some (foldl (λ hp proc, alter (set_isIncluded true) proc hp) hp procs, None).

(** Lines 212-225. *)
Definition excludeKernelThreads (fuel : nat) (c : Config) (m : gmap Z ptr)
    (hp : Heap) : option (Heap * option error) :=
  if includeKernelThreads c then Some (hp, None)
  else
    match m !! kthreadPid with
    | Some kProc =>
        match lockedWalkFullSubtree fuel excludeHandler kProc hp with
        | None => None
        | Some (hp1, Some e) => Some (hp1, Some (KernelSubtreeError e))
        | Some (hp1, None) => Some (hp1, None)
        end
    | None => Some (hp, None)
    end.

(** Lines 229-243. *)
Definition includeAll (hp : Heap) (procs : list ptr)
    : Heap * list ptr * list ptr :=
  foldl includeOne (hp, [], []) procs.

(** [lockedUpdate], from the provider's answer on (lines 95-252).  [None]
    means that a walk did not return within [fuel] nested calls; otherwise the
    session as the method leaves it, and the error it returns, if any. *)
Definition updateWith (fuel : nat) (pt : ProcTree) (pruneTombstones : bool)
    (gopsProcs : list gops_Process) : option (ProcTree * option error) :=
  let c := cfg pt in
  let '(hp2, m) := refreshNodes pt pruneTombstones gopsProcs in
  match resolveConfigured pt m with
  | inr pid =>
      Some (mk_ProcTree c hp2 m (absProcs pt) (absRootProcs pt) None
                        (includedProcs pt) (includedRootProcs pt),
            Some (ConfiguredRootMissing pid))
  | inl cfgRoots =>
      let '(hp3, procs, roots) := linkAll m hp2 in
      let procs' := lockedSortProcessesByPid hp3 procs in
      let roots' := lockedSortProcessesByPid hp3 roots in
      let hp4 := sortAbsChildren hp3 procs' in
      let partial hp :=
        mk_ProcTree c hp m procs' roots' cfgRoots
                    (includedProcs pt) (includedRootProcs pt) in
      match markIncluded fuel c (default [] cfgRoots) procs' hp4 with
      | None => None
      | Some (hp5, Some e) => Some (partial hp5, Some e)
      | Some (hp5, None) =>
          match excludeKernelThreads fuel c m hp5 with
          | None => None
          | Some (hp6, Some e) => Some (partial hp6, Some e)
          | Some (hp6, None) =>
              let '(hp7, incl, iroots) := includeAll hp6 procs' in
              let incl' := lockedSortProcessesByPid hp7 incl in
              let iroots' := lockedSortProcessesByPid hp7 iroots in
              let hp8 := sortIncludedChildren hp7 procs' in
              Some (mk_ProcTree c hp8 m procs' roots' cfgRoots incl' iroots',
                    None)
          end
      end
  end.

(** [lockedUpdate]: the provider is called first (line 90); a failing call
    returns at once (lines 91-93). *)
Definition lockedUpdate (fuel : nat) (pt : ProcTree) (pruneTombstones : bool)
    : Calling (option (ProcTree * option error)) :=
  gops_Processes pt (λ r,
    match r with
    | inr msg => Return (Some (pt, Some (ProviderError msg)))
    | inl gopsProcs => Return (updateWith fuel pt pruneTombstones gopsProcs)
    end).

Definition Update := lockedUpdate.

(** The session [New] allocates before its first update. *)
Definition emptySession (c : Config) : ProcTree :=
  mk_ProcTree c [] ∅ [] [] None [] [].

Fixpoint Calling_map {A B} (f : A → B) (c : Calling A) : Calling B :=
  match c with
  | Return a => Return (f a)
  | gops_Processes pt k => gops_Processes pt (λ r, Calling_map f (k r))
  end.

(** [New]: [inl pt] is [(pt, nil)], [inr err] is [(nil, err)]. *)
Definition New (fuel : nat) (opts : list ConfigOption)
    : Calling (option (ProcTree + error)) :=
  Calling_map
    (λ r, match r with
          | None => None
          | Some (_, Some err) => Some (inr err)
          | Some (pt, None) => Some (inl pt)
          end)
    (Update fuel (emptySession (NewConfig opts)) false).

(** ** Queries *)

Definition Processes (pt : ProcTree) : list ptr := includedProcs pt.
Definition Roots (pt : ProcTree) : list ptr := includedRootProcs pt.
Definition PidProcess (pt : ProcTree) (pid : Z) : option ptr := pidMap pt !! pid.

Definition lockedFullWalk (fuel : nat) (pt : ProcTree) (h : ProcessHandler)
    : option (Heap * option error) :=
  lockedFullWalkFromRoots fuel (absRootProcs pt) h (heap pt).

Definition lockedWalk (fuel : nat) (pt : ProcTree) (h : ProcessHandler)
    : option (Heap * option error) :=
  lockedWalkFromRoots fuel (includedRootProcs pt) h (heap pt).

Definition Walk (fuel : nat) (pt : ProcTree) (h : ProcessHandler)
    : option (Heap * option error) :=
  WalkFromRoots fuel (Roots pt) h (heap pt).

(** * Verification *)

(** ** Fields of the store

    [field proj hp] is the column of the store under one field.  A phase of
    the update that leaves a field alone leaves its column equal. *)
Section fields.
Context {A : Type} (proj : Process → A).

Definition field (hp : Heap) : list A := proj <$> hp.

Lemma field_lookup hp (p : ptr) : field hp !! p = proj <$> hp !! p.
Proof. apply list_lookup_fmap. Qed.

Lemma field_length hp : length (field hp) = length hp.
Proof. apply length_fmap. Qed.

Lemma field_alter f (p : ptr) hp :
  (∀ n, proj (f n) = proj n) → field (alter f p hp) = field hp.
Proof.
  intros Hf. apply list_eq. intros q. rewrite !field_lookup.
  destruct (decide (p = q)) as [->|Hne].
  - rewrite list_lookup_alter_eq. destruct (hp !! q); simpl; by rewrite ?Hf.
  - by rewrite list_lookup_alter_ne.
Qed.

Lemma field_foldl_alter {B} (f : Heap → B → Process → Process)
    (g : Heap → B → ptr) (l : list B) hp :
  (∀ h b n, proj (f h b n) = proj n) →
  field (foldl (λ h b, alter (f h b) (g h b) h) hp l) = field hp.
Proof.
  intros Hf. revert hp. induction l as [|b l IH]; intros hp; [done|].
  simpl. rewrite IH. by apply field_alter.
Qed.

Lemma field_eq_lookup hp hp' (p : ptr) :
  field hp' = field hp → proj <$> hp' !! p = proj <$> hp !! p.
Proof. intros E. by rewrite <- !field_lookup, E. Qed.
End fields.

Lemma field_eq_length {A} (proj : Process → A) hp hp' :
  field proj hp' = field proj hp → length hp' = length hp.
Proof. intros E. by rewrite <- (field_length proj hp'), E, field_length. Qed.

Lemma field_eq_is_Some {A} (proj : Process → A) hp hp' (p : ptr) :
  field proj hp' = field proj hp → is_Some (hp' !! p) ↔ is_Some (hp !! p).
Proof.
  intros E. rewrite !lookup_lt_is_Some. by rewrite (field_eq_length _ _ _ E).
Qed.

(** The readers depend on one column each. *)
Lemma pidAt_field hp hp' p :
  field gopsProcess hp' = field gopsProcess hp → pidAt hp' p = pidAt hp p.
Proof.
  intros E. apply (field_eq_lookup _ _ _ p) in E. unfold pidAt.
  destruct (hp' !! p), (hp !! p); simplify_eq/=; congruence.
Qed.

Lemma ppidAt_field hp hp' p :
  field gopsProcess hp' = field gopsProcess hp → ppidAt hp' p = ppidAt hp p.
Proof.
  intros E. apply (field_eq_lookup _ _ _ p) in E. unfold ppidAt.
  destruct (hp' !! p), (hp !! p); simplify_eq/=; congruence.
Qed.

Lemma parentAt_field hp hp' p :
  field parentProc hp' = field parentProc hp → parentAt hp' p = parentAt hp p.
Proof.
  intros E. apply (field_eq_lookup _ _ _ p) in E. unfold parentAt.
  destruct (hp' !! p), (hp !! p); simplify_eq/=; congruence.
Qed.

Lemma absChildrenAt_field hp hp' p :
  field absChildProcs hp' = field absChildProcs hp →
  absChildrenAt hp' p = absChildrenAt hp p.
Proof.
  intros E. apply (field_eq_lookup _ _ _ p) in E. unfold absChildrenAt.
  destruct (hp' !! p), (hp !! p); simplify_eq/=; congruence.
Qed.

Lemma includedChildrenAt_field hp hp' p :
  field includedChildProcs hp' = field includedChildProcs hp →
  includedChildrenAt hp' p = includedChildrenAt hp p.
Proof.
  intros E. apply (field_eq_lookup _ _ _ p) in E. unfold includedChildrenAt.
  destruct (hp' !! p), (hp !! p); simplify_eq/=; congruence.
Qed.

Lemma includedAt_field hp hp' p :
  field isIncluded hp' = field isIncluded hp → includedAt hp' p = includedAt hp p.
Proof.
  intros E. apply (field_eq_lookup _ _ _ p) in E. unfold includedAt.
  destruct (hp' !! p), (hp !! p); simplify_eq/=; congruence.
Qed.

Lemma tombstoneAt_field hp hp' p :
  field isTombstone hp' = field isTombstone hp →
  tombstoneAt hp' p = tombstoneAt hp p.
Proof.
  intros E. apply (field_eq_lookup _ _ _ p) in E. unfold tombstoneAt.
  destruct (hp' !! p), (hp !! p); simplify_eq/=; congruence.
Qed.

(** ** Marking (lines 95-100) *)

Lemma foldl_alter_lookup {B} (f : Process → Process) (g : B → ptr)
    (l : list B) (hp : Heap) (q : ptr) :
  (∀ n, f (f n) = f n) →
  foldl (λ h b, alter f (g b) h) hp l !! q
  = (if decide (q ∈ g <$> l) then f else id) <$> hp !! q.
Proof.
  intros Hf. revert hp. induction l as [|b l IH]; intros hp.
  - simpl. by rewrite option_fmap_id.
  - cbn [foldl]. rewrite IH, fmap_cons. destruct (decide (g b = q)) as [<-|Hne].
    + rewrite list_lookup_alter_eq.
      rewrite (decide_True (P := g b ∈ g b :: (g <$> l)))
        by apply list_elem_of_here.
      destruct (hp !! g b) as [n|]; [|by case_decide]. simpl.
      case_decide; simpl; by rewrite ?Hf.
    + rewrite list_lookup_alter_ne by done.
      destruct (decide (q ∈ g <$> l)) as [Hin|Hout].
      * by rewrite decide_True by (by apply list_elem_of_further).
      * rewrite decide_False; [done|]. intros [?|?]%elem_of_cons; congruence.
Qed.

Lemma entomb_idemp n : entomb (entomb n) = entomb n.
Proof. done. Qed.

Lemma markAll_known (m : gmap Z ptr) (hp : Heap) pid (p : ptr) :
  m !! pid = Some p → markAll m hp !! p = entomb <$> hp !! p.
Proof.
  intros Hm. unfold markAll.
  rewrite (foldl_alter_lookup entomb snd) by apply entomb_idemp.
  rewrite decide_True; [done|].
  apply list_elem_of_fmap. exists (pid, p). split; [done|].
  by apply elem_of_map_to_list.
Qed.

Lemma markAll_other (m : gmap Z ptr) (hp : Heap) (p : ptr) :
  (∀ pid, m !! pid ≠ Some p) → markAll m hp !! p = hp !! p.
Proof.
  intros Hm. unfold markAll.
  rewrite (foldl_alter_lookup entomb snd) by apply entomb_idemp.
  rewrite decide_False; [by rewrite option_fmap_id|].
  intros ([pid p'] & -> & Hin%elem_of_map_to_list)%list_elem_of_fmap.
  by eapply Hm.
Qed.

Lemma markAll_length m hp : length (markAll m hp) = length hp.
Proof.
  unfold markAll. generalize (map_to_list m). intros l. revert hp.
  induction l as [|e l IH]; intros hp; simpl; [done|].
  by rewrite IH, length_alter.
Qed.

Lemma markAll_field {A} (proj : Process → A) m hp :
  (∀ n, proj (entomb n) = proj n) →
  field proj (markAll m hp) = field proj hp.
Proof.
  intros Hproj. unfold markAll.
  by apply (field_foldl_alter proj (λ _ _, entomb) (λ _ e, e.2)).
Qed.

(** ** Reconciliation (lines 102-119) *)

(** Every key of the pid map points to an object carrying that pid. *)
Definition keyed (hp : Heap) (m : gmap Z ptr) : Prop :=
  ∀ pid (p : ptr), m !! pid = Some p →
    ∃ n, hp !! p = Some n ∧ Pid (gopsProcess n) = pid.

(** The record that decides what the object for [pid] holds after the loop:
    the last record with that pid that the kernel-thread policy keeps. *)
Definition lastKept (c : Config) (gs : list gops_Process) (pid : Z)
    : option gops_Process :=
  last (filter (λ g, keepRecord c g = true ∧ Pid g = pid) gs).

Lemma lastKept_snoc c gs g pid :
  lastKept c (gs ++ [g]) pid
  = if decide (keepRecord c g = true ∧ Pid g = pid) then Some g
    else lastKept c gs pid.
Proof.
  unfold lastKept. rewrite filter_app, filter_cons, filter_nil.
  case_decide.
  - by rewrite last_snoc.
  - by rewrite app_nil_r.
Qed.

Lemma lastKept_Some c gs pid g :
  lastKept c gs pid = Some g → g ∈ gs ∧ keepRecord c g = true ∧ Pid g = pid.
Proof.
  unfold lastKept. intros H%last_Some_elem_of.
  apply list_elem_of_filter in H. tauto.
Qed.

Lemma lastKept_None c gs pid :
  lastKept c gs pid = None ↔ ∀ g, g ∈ gs → keepRecord c g = true → Pid g ≠ pid.
Proof.
  unfold lastKept. rewrite last_None. split.
  - intros E g Hin Hk Hp.
    assert (g ∈ filter (λ g, keepRecord c g = true ∧ Pid g = pid) gs) as Hf
      by (by apply list_elem_of_filter).
    rewrite E in Hf. by apply not_elem_of_nil in Hf.
  - intros H. apply elem_of_nil_inv. intros g [[Hk Hp] Hin]%list_elem_of_filter.
    by eapply H.
Qed.

Lemma lastKept_is_Some c gs g :
  g ∈ gs → keepRecord c g = true → is_Some (lastKept c gs (Pid g)).
Proof.
  intros Hin Hk. destruct (lastKept c gs (Pid g)) eqn:E; [by eexists|].
  rewrite lastKept_None in E. by destruct (E g Hin Hk).
Qed.

(** When the provider lists every pid once, the deciding record is the
    record itself. *)
Lemma lastKept_NoDup c gs g :
  NoDup (Pid <$> gs) → g ∈ gs → keepRecord c g = true →
  lastKept c gs (Pid g) = Some g.
Proof.
  intros Hnd Hin Hk.
  destruct (lastKept_is_Some c gs g Hin Hk) as [g' E]. rewrite E. f_equal.
  apply lastKept_Some in E as (Hin' & _ & Hp).
  apply list_elem_of_lookup in Hin as [i Hi].
  apply list_elem_of_lookup in Hin' as [j Hj].
  assert (i = j) as ->; [|congruence].
  eapply NoDup_lookup; [exact Hnd| |];
    rewrite list_lookup_fmap; [by rewrite Hi|by rewrite Hj; simpl; f_equal].
Qed.

(** The object allocated for a record seen for the first time. *)
Definition freshProcess (c : Config) (g : gops_Process) : Process :=
  set_isIncluded (negb (fixedRootsOf c)) (newProcess g).

(** What the reconciliation loop has done to a store [hp] and pid map [m]
    after the records [gs]. *)
Record reconciled (c : Config) (hp : Heap) (m : gmap Z ptr)
    (gs : list gops_Process) (hp' : Heap) (m' : gmap Z ptr) : Prop := {
  rc_keyed : keyed hp' m';
  rc_mono : ∀ pid (p : ptr), m !! pid = Some p → m' !! pid = Some p;
  rc_length : (length hp ≤ length hp')%nat;
  rc_kept : ∀ pid g, lastKept c gs pid = Some g →
    ∃ p : ptr,
      m' !! pid = Some p ∧
      ((m !! pid = Some p ∧
        ∃ base, hp !! p = Some base ∧ hp' !! p = Some (refresh g base)) ∨
       (m !! pid = None ∧ (length hp ≤ p)%nat ∧
        hp' !! p = Some (freshProcess c g)));
  rc_absent : ∀ pid, lastKept c gs pid = None → m' !! pid = m !! pid;
  rc_untouched : ∀ q : ptr,
    (∀ pid g, lastKept c gs pid = Some g → m' !! pid ≠ Some q) →
    hp' !! q = hp !! q
}.

Lemma keyed_inj hp m pid1 pid2 (p : ptr) :
  keyed hp m → m !! pid1 = Some p → m !! pid2 = Some p → pid1 = pid2.
Proof.
  intros Hk H1 H2.
  destruct (Hk _ _ H1) as (n1 & E1 & <-), (Hk _ _ H2) as (n2 & E2 & <-).
  congruence.
Qed.

Lemma refresh_refresh g g' n : refresh g (refresh g' n) = refresh g n.
Proof. done. Qed.

Lemma reconciled_nil c hp m : keyed hp m → reconciled c hp m [] hp m.
Proof. intros Hk. by split. Qed.

Lemma reconciled_skip c hp m gs g hp1 m1 :
  keepRecord c g = false →
  reconciled c hp m gs hp1 m1 → reconciled c hp m (gs ++ [g]) hp1 m1.
Proof.
  intros Hk [K M L S A U].
  assert (∀ pid, lastKept c (gs ++ [g]) pid = lastKept c gs pid) as E.
  { intros pid. rewrite lastKept_snoc, decide_False; [done|].
    intros [? _]. congruence. }
  split; try done.
  - intros pid g'. rewrite E. apply S.
  - intros pid. rewrite E. apply A.
  - intros q H. apply U. intros pid g' Hl. apply (H pid g'). by rewrite E.
Qed.

Lemma reconciled_refresh c hp m gs g hp1 m1 (proc : ptr) :
  keepRecord c g = true → m1 !! Pid g = Some proc →
  reconciled c hp m gs hp1 m1 →
  reconciled c hp m (gs ++ [g]) (alter (refresh g) proc hp1) m1.
Proof.
  intros Hk Hm1 [K M L S A U].
  destruct (K _ _ Hm1) as (n1 & Hn1 & Hpid1).
  split.
  - intros pid p Hp. destruct (decide (p = proc)) as [->|Hne].
    + rewrite list_lookup_alter_eq, Hn1. eexists; split; [done|]. simpl.
      by eapply keyed_inj.
    + rewrite list_lookup_alter_ne by done. by apply K.
  - done.
  - by rewrite length_alter.
  - intros pid g'. rewrite lastKept_snoc. case_decide as Hd.
    + destruct Hd as [_ <-]. intros [= <-]. exists proc. split; [done|].
      rewrite list_lookup_alter_eq.
      destruct (lastKept c gs (Pid g)) as [g0|] eqn:E.
      * destruct (S _ _ E) as (p0 & Hp0 & Hcase).
        assert (p0 = proc) as -> by congruence.
        destruct Hcase as [(Hm & base & Hb & Hb')|(Hm & Hlen & Hb')].
        { left. split; [done|]. exists base. split; [done|]. by rewrite Hb'. }
        { right. split; [done|]. split; [done|]. by rewrite Hb'. }
      * left. split; [by rewrite <- A|]. exists n1. split; [|by rewrite Hn1].
        rewrite <- U; [done|].
        intros pid' g' E' Hp'.
        assert (pid' = Pid g) as -> by (by eapply keyed_inj). congruence.
    + intros E. destruct (S _ _ E) as (p & Hp & Hcase).
      exists p. split; [done|].
      rewrite list_lookup_alter_ne; [done|]. intros <-.
      apply Hd. split; [done|]. by eapply keyed_inj.
  - intros pid. rewrite lastKept_snoc. case_decide; [done|]. apply A.
  - intros q H. rewrite list_lookup_alter_ne.
    + apply U. intros pid g' E.
      apply (H pid (if decide (keepRecord c g = true ∧ Pid g = pid)
                    then g else g')).
      rewrite lastKept_snoc. by case_decide.
    + intros <-. apply (H (Pid g) g); [|done].
      rewrite lastKept_snoc. by rewrite decide_True.
Qed.

Lemma reconciled_create c hp m gs g hp1 m1 :
  keepRecord c g = true → m1 !! Pid g = None →
  reconciled c hp m gs hp1 m1 →
  reconciled c hp m (gs ++ [g]) (hp1 ++ [freshProcess c g])
             (<[Pid g := length hp1]> m1).
Proof.
  intros Hk Hm1 [K M L S A U].
  assert (∀ pid, is_Some (m1 !! pid) → Pid g ≠ pid) as Hother.
  { intros pid [p Hp] <-. congruence. }
  split.
  - intros pid p. rewrite lookup_insert. case_decide as Hd.
    + intros [= <-]. subst pid. exists (freshProcess c g).
      split; [|done]. by rewrite list_lookup_middle.
    + intros Hp. destruct (K _ _ Hp) as (n & Hn & Hpid). exists n.
      split; [|done]. by apply lookup_app_l_Some.
  - intros pid p Hp. rewrite lookup_insert_ne; [by apply M|].
    apply Hother. exists p. by apply M.
  - rewrite length_app. simpl. lia.
  - intros pid g'. rewrite lastKept_snoc. case_decide as Hd.
    + destruct Hd as [_ <-]. intros [= <-].
      exists (length hp1). split; [by rewrite lookup_insert_eq|].
      right. split; [|split; [done|by rewrite list_lookup_middle]].
      destruct (m !! Pid g) as [p|] eqn:E; [|done].
      apply M in E. congruence.
    + intros E. destruct (S _ _ E) as (p & Hp & Hcase).
      destruct (K _ _ Hp) as (n & Hn & _).
      exists p. split.
      { rewrite lookup_insert_ne; [done|]. apply Hother. by exists p. }
      by rewrite (lookup_app_l_Some _ _ _ _ Hn), <- Hn.
  - intros pid. rewrite lastKept_snoc. case_decide as Hd; [done|].
    intros E. rewrite lookup_insert_ne; [by apply A|].
    intros Heq. apply Hd. by split.
  - intros q H.
    assert (q ≠ length hp1) as Hq.
    { intros ->. apply (H (Pid g) g).
      - rewrite lastKept_snoc. by rewrite decide_True.
      - by rewrite lookup_insert_eq. }
    destruct (decide (q < length hp1)%nat) as [Hlt|Hge].
    + rewrite lookup_app_l by done. apply U. intros pid g' E Hp.
      apply (H pid (if decide (keepRecord c g = true ∧ Pid g = pid)
                    then g else g')).
      * rewrite lastKept_snoc. by case_decide.
      * rewrite lookup_insert_ne; [done|]. apply Hother. by exists q.
    + rewrite !lookup_ge_None_2; [done|lia|].
      rewrite length_app. simpl. lia.
Qed.

Lemma reconcile_snoc c gs g st :
  reconcile c (gs ++ [g]) st = reconcileOne c (reconcile c gs st) g.
Proof. apply foldl_snoc. Qed.

Lemma reconcile_reconciled c gs hp m :
  keyed hp m →
  reconciled c hp m gs (reconcile c gs (hp, m)).1 (reconcile c gs (hp, m)).2.
Proof.
  intros Hk. induction gs as [|g gs IH] using rev_ind.
  - by apply reconciled_nil.
  - rewrite reconcile_snoc. destruct (reconcile c gs (hp, m)) as [hp1 m1].
    simpl in IH. unfold reconcileOne. simpl.
    destruct (keepRecord c g) eqn:Hkeep.
    + destruct (m1 !! Pid g) as [proc|] eqn:Hm1; simpl.
      * by apply reconciled_refresh.
      * by apply reconciled_create.
    + by apply reconciled_skip.
Qed.

(** ** Mark, reconcile and prune together (lines 95-128) *)

Lemma keyed_markAll hp m : keyed hp m → keyed (markAll m hp) m.
Proof.
  intros Hk pid p Hp. destruct (Hk _ _ Hp) as (n & Hn & Hpid).
  exists (entomb n). split; [|done].
  by rewrite (markAll_known _ _ _ _ Hp), Hn.
Qed.

Lemma keyed_pruneTombstoned hp m : keyed hp m → keyed hp (pruneTombstoned hp m).
Proof.
  intros Hk pid p Hp. apply Hk.
  unfold pruneTombstoned in Hp. by apply map_lookup_filter_Some in Hp as [? _].
Qed.

Lemma pruneTombstoned_lookup hp m pid (p : ptr) :
  pruneTombstoned hp m !! pid = Some p ↔
  m !! pid = Some p ∧ tombstoneAt hp p = false.
Proof. unfold pruneTombstoned. by rewrite map_lookup_filter_Some. Qed.

Lemma pruneTombstoned_live hp m pid (p : ptr) n :
  m !! pid = Some p → hp !! p = Some n → isTombstone n = false →
  pruneTombstoned hp m !! pid = Some p.
Proof.
  intros Hm Hn Ht. apply pruneTombstoned_lookup. split; [done|].
  unfold tombstoneAt. by rewrite Hn.
Qed.

Lemma pruneTombstoned_dead hp m pid (p : ptr) n :
  m !! pid = Some p → hp !! p = Some n → isTombstone n = true →
  pruneTombstoned hp m !! pid = None.
Proof.
  intros Hm Hn Ht. destruct (pruneTombstoned hp m !! pid) as [q|] eqn:E; [|done].
  apply pruneTombstoned_lookup in E as [Hq Hlive].
  assert (q = p) as -> by congruence.
  unfold tombstoneAt in Hlive. rewrite Hn in Hlive. simpl in Hlive. congruence.
Qed.

Section refreshNodes.
Context (pt : ProcTree) (pruneTombstones : bool) (gs : list gops_Process).
Hypothesis Hkeyed : keyed (heap pt) (pidMap pt).

Let c := cfg pt.
Let hp2 := (refreshNodes pt pruneTombstones gs).1.
Let m2 := (refreshNodes pt pruneTombstones gs).2.

Lemma refreshNodes_reconciled :
  reconciled c (markAll (pidMap pt) (heap pt)) (pidMap pt) gs hp2
    (reconcile c gs (markAll (pidMap pt) (heap pt), pidMap pt)).2.
Proof. apply reconcile_reconciled. by apply keyed_markAll. Qed.

Lemma refreshNodes_keyed : keyed hp2 m2.
Proof.
  pose proof refreshNodes_reconciled as R.
  subst m2 hp2. unfold refreshNodes in *. simpl in *.
  destruct pruneTombstones.
  - apply keyed_pruneTombstoned, R.
  - apply R.
Qed.

(** A known pid enumerated again keeps its object, refreshed. *)
Lemma refreshNodes_rediscovered pid (p : ptr) g :
  pidMap pt !! pid = Some p → lastKept c gs pid = Some g →
  m2 !! pid = Some p ∧
  ∃ n, heap pt !! p = Some n ∧ hp2 !! p = Some (refresh g (entomb n)).
Proof.
  intros Hp Hl. pose proof refreshNodes_reconciled as R.
  destruct (rc_kept _ _ _ _ _ _ R _ _ Hl) as (p' & Hp' & Hcase).
  pose proof (rc_mono _ _ _ _ _ _ R _ _ Hp) as Hmono.
  assert (p' = p) as -> by congruence.
  destruct Hcase as [(_ & base & Hb & Hb')|(Hnone & _)]; [|congruence].
  rewrite (markAll_known _ _ _ _ Hp) in Hb.
  destruct (heap pt !! p) as [n|] eqn:Hn; [|done]. simpl in Hb.
  injection Hb as <-.
  split; [|by exists n].
  subst m2 hp2. unfold refreshNodes in *. simpl in *.
  destruct pruneTombstones; [|done].
  by eapply pruneTombstoned_live.
Qed.

(** A known pid that is not enumerated keeps its object, entombed, unless
    tombstones are pruned. *)
Lemma refreshNodes_vanished pid (p : ptr) :
  pidMap pt !! pid = Some p → lastKept c gs pid = None →
  m2 !! pid = (if pruneTombstones then None else Some p) ∧
  ∃ n, heap pt !! p = Some n ∧ hp2 !! p = Some (entomb n).
Proof.
  intros Hp Hl. pose proof refreshNodes_reconciled as R.
  pose proof (rc_mono _ _ _ _ _ _ R _ _ Hp) as Hmono.
  destruct (Hkeyed _ _ Hp) as (n & Hn & Hpid).
  assert (hp2 !! p = Some (entomb n)) as Hcell.
  { subst hp2. unfold refreshNodes. simpl.
    rewrite (rc_untouched _ _ _ _ _ _ R).
    - by rewrite (markAll_known _ _ _ _ Hp), Hn.
    - intros pid' g' E Hp'.
      assert (pid' = pid) as -> by (eapply keyed_inj; [apply R|done..]).
      subst c. congruence. }
  split; [|by exists n].
  subst m2 hp2. unfold refreshNodes in *. simpl in *.
  destruct pruneTombstones; [|done].
  by eapply pruneTombstoned_dead.
Qed.

(** A pid seen for the first time gets a newly allocated object. *)
Lemma refreshNodes_created pid g :
  pidMap pt !! pid = None → lastKept c gs pid = Some g →
  ∃ p : ptr, m2 !! pid = Some p ∧ (length (heap pt) ≤ p)%nat ∧
             hp2 !! p = Some (freshProcess c g).
Proof.
  intros Hp Hl. pose proof refreshNodes_reconciled as R.
  destruct (rc_kept _ _ _ _ _ _ R _ _ Hl) as (p & Hp' & Hcase).
  destruct Hcase as [(Hsome & _)|(_ & Hlen & Hcell)]; [congruence|].
  rewrite markAll_length in Hlen.
  exists p. split; [|done].
  subst m2 hp2. unfold refreshNodes in *. simpl in *.
  destruct pruneTombstones; [|done].
  by eapply pruneTombstoned_live.
Qed.

Lemma refreshNodes_never pid :
  pidMap pt !! pid = None → lastKept c gs pid = None → m2 !! pid = None.
Proof.
  intros Hp Hl. pose proof refreshNodes_reconciled as R.
  pose proof (rc_absent _ _ _ _ _ _ R _ Hl) as E. rewrite Hp in E.
  subst c m2 hp2. unfold refreshNodes in *. simpl in *.
  destruct pruneTombstones; [|done].
  destruct (pruneTombstoned _ _ !! pid) as [q|] eqn:Eq; [|done].
  apply pruneTombstoned_lookup in Eq as [Eq _]. congruence.
Qed.

Lemma refreshNodes_length : (length (heap pt) ≤ length hp2)%nat.
Proof.
  pose proof refreshNodes_reconciled as R.
  pose proof (rc_length _ _ _ _ _ _ R) as L.
  by rewrite markAll_length in L.
Qed.

(** An entry of the refreshed map either was decided by a record of this
    enumeration, or is an old object that was not found again (and is still
    there because tombstones were not pruned). *)
Lemma refreshNodes_entry pid (p : ptr) :
  m2 !! pid = Some p →
  (∃ g, lastKept c gs pid = Some g ∧
        ((pidMap pt !! pid = Some p ∧
          ∃ n, heap pt !! p = Some n ∧ hp2 !! p = Some (refresh g (entomb n))) ∨
         (pidMap pt !! pid = None ∧ (length (heap pt) ≤ p)%nat ∧
          hp2 !! p = Some (freshProcess c g)))) ∨
  (lastKept c gs pid = None ∧ pruneTombstones = false ∧
   pidMap pt !! pid = Some p ∧
   ∃ n, heap pt !! p = Some n ∧ hp2 !! p = Some (entomb n)).
Proof.
  intros Hm.
  destruct (lastKept c gs pid) as [g|] eqn:Hl,
           (pidMap pt !! pid) as [p0|] eqn:Hp.
  - left. exists g. split; [done|]. left.
    destruct (refreshNodes_rediscovered _ _ _ Hp Hl) as [E H].
    assert (p0 = p) as -> by congruence. done.
  - left. exists g. split; [done|]. right.
    destruct (refreshNodes_created _ _ Hp Hl) as (p' & E & H).
    assert (p' = p) as -> by congruence. done.
  - right. destruct (refreshNodes_vanished _ _ Hp Hl) as [E H].
    destruct pruneTombstones; [congruence|].
    assert (p0 = p) as -> by congruence. done.
  - rewrite (refreshNodes_never _ Hp Hl) in Hm. done.
Qed.

End refreshNodes.

(** ** The absolute structure (lines 144-177) *)

(** The object that line 156 finds for the parent pid of [proc]. *)
Definition resolveParent (m : gmap Z ptr) (hp : Heap) (proc : ptr) : option ptr :=
  if bool_decide (ppidAt hp proc ≠ 0) then m !! ppidAt hp proc else None.

Lemma resolveParent_field m hp hp' proc :
  field gopsProcess hp' = field gopsProcess hp →
  resolveParent m hp' proc = resolveParent m hp proc.
Proof. intros E. unfold resolveParent. by rewrite (ppidAt_field _ _ _ E). Qed.

Lemma lookup_alter_Some (f : Process → Process) (p q : ptr) (hp : Heap) n :
  hp !! q = Some n →
  alter f p hp !! q = Some (if decide (p = q) then f n else n).
Proof.
  intros Hn. rewrite list_lookup_alter. case_decide; subst; by rewrite Hn.
Qed.

Lemma linkOne_unfold m hp procs roots e :
  linkOne m (hp, procs, roots) e
  = match resolveParent m hp e.2 with
    | Some pp =>
        (alter (adopt pp) e.2 (alter (push_absChild e.2) pp hp),
         procs ++ [e.2], roots)
    | None => (hp, procs ++ [e.2], roots ++ [e.2])
    end.
Proof. done. Qed.

Lemma linkOne_field {A} (proj : Process → A) m st e :
  (∀ pp n, proj (adopt pp n) = proj n) →
  (∀ ch n, proj (push_absChild ch n) = proj n) →
  field proj (linkOne m st e).1.1 = field proj st.1.1.
Proof.
  intros Ha Hp. destruct st as [[hp procs] roots]. rewrite linkOne_unfold.
  destruct (resolveParent m hp e.2); [|done]. simpl.
  rewrite field_alter by apply Ha. by rewrite field_alter by apply Hp.
Qed.

Lemma foldl_linkOne_field {A} (proj : Process → A) m es st :
  (∀ pp n, proj (adopt pp n) = proj n) →
  (∀ ch n, proj (push_absChild ch n) = proj n) →
  field proj (foldl (linkOne m) st es).1.1 = field proj st.1.1.
Proof.
  intros Ha Hp. revert st. induction es as [|e es IH]; intros st; [done|].
  simpl. rewrite IH. by apply linkOne_field.
Qed.

(** The state of the loop after the entries [es] of the pid map. *)
Record linked (m : gmap Z ptr) (hp0 : Heap) (es : list (Z * ptr))
    (st : Heap * list ptr * list ptr) : Prop := {
  lk_procs : st.1.2 = es.*2;
  lk_roots : st.2 = filter (λ p, resolveParent m hp0 p = None) es.*2;
  lk_children : ∀ q : ptr, is_Some (hp0 !! q) →
    absChildrenAt st.1.1 q
    = absChildrenAt hp0 q ++ filter (λ p, resolveParent m hp0 p = Some q) es.*2;
  lk_parent : ∀ q : ptr, is_Some (hp0 !! q) →
    parentAt st.1.1 q
    = match (if decide (q ∈ es.*2) then resolveParent m hp0 q else None) with
      | Some pp => Some pp
      | None => parentAt hp0 q
      end
}.

Lemma absChildrenAt_alter f (p q : ptr) hp :
  absChildrenAt (alter f p hp) q
  = if decide (p = q) then from_option (λ n, absChildProcs (f n)) [] (hp !! q)
    else absChildrenAt hp q.
Proof.
  unfold absChildrenAt. rewrite list_lookup_alter.
  case_decide; [subst|done]. by destruct (hp !! q).
Qed.

Lemma parentAt_alter f (p q : ptr) hp :
  parentAt (alter f p hp) q
  = if decide (p = q) then hp !! q ≫= (λ n, parentProc (f n))
    else parentAt hp q.
Proof.
  unfold parentAt. rewrite list_lookup_alter.
  case_decide; [subst|done]. by destruct (hp !! q).
Qed.

Lemma filter_snoc {A} (P : A → Prop) `{!∀ x, Decision (P x)} (l : list A) x :
  filter P (l ++ [x]) = filter P l ++ (if decide (P x) then [x] else []).
Proof.
  by rewrite filter_app.
Qed.

Lemma linked_snoc m hp0 es e st :
  linked m hp0 es st →
  field gopsProcess st.1.1 = field gopsProcess hp0 →
  linked m hp0 (es ++ [e]) (linkOne m st e).
Proof.
  intros [P R C Pa] Hg. destruct st as [[hp procs] roots].
  simpl in P, R, C, Pa, Hg.
  rewrite linkOne_unfold, (resolveParent_field _ _ _ _ Hg).
  assert (∀ q : ptr, is_Some (hp0 !! q) → is_Some (hp !! q)) as Hval.
  { intros q. by rewrite (field_eq_is_Some _ _ _ _ Hg). }
  destruct (resolveParent m hp0 e.2) as [pp|] eqn:Hres; split; simpl;
    rewrite ?fmap_app; simpl; rewrite ?filter_snoc.
  - by rewrite P.
  - rewrite decide_False by congruence. by rewrite app_nil_r.
  - intros q Hq. destruct (Hval q Hq) as [n Hn].
    assert (absChildrenAt (alter (push_absChild e.2) pp hp) q
            = absChildrenAt hp q ++ (if decide (pp = q) then [e.2] else [])) as E.
    { rewrite absChildrenAt_alter. unfold absChildrenAt. rewrite Hn. simpl.
      case_decide; [done|by rewrite app_nil_r]. }
    assert (absChildrenAt (alter (adopt pp) e.2 (alter (push_absChild e.2) pp hp)) q
            = absChildrenAt (alter (push_absChild e.2) pp hp) q) as E'.
    { apply absChildrenAt_field. by apply field_alter. }
    rewrite E', E, (C q Hq), filter_snoc, <- app_assoc, Hres. do 2 f_equal.
    destruct (decide (pp = q)) as [->|Hne].
    + by rewrite decide_True.
    + rewrite decide_False; [done|]. congruence.
  - intros q Hq. rewrite parentAt_alter. destruct (decide (e.2 = q)) as [<-|Hne].
    + rewrite decide_True by (apply elem_of_app; right; apply list_elem_of_here).
      rewrite Hres.
      destruct (Hval _ Hq) as [n Hn].
      by rewrite (lookup_alter_Some _ _ _ _ _ Hn).
    + assert (parentAt (alter (push_absChild e.2) pp hp) q = parentAt hp q) as ->.
      { apply parentAt_field. by apply field_alter. }
      rewrite (Pa q Hq).
      destruct (decide (q ∈ es.*2)) as [Hin|Hout].
      * by rewrite decide_True by (apply elem_of_app; by left).
      * rewrite decide_False; [done|].
        intros [?|?%list_elem_of_singleton]%elem_of_app; congruence.
  - by rewrite P.
  - rewrite decide_True by done. by rewrite R.
  - intros q Hq. rewrite filter_snoc, decide_False by congruence.
    rewrite app_nil_r. by apply C.
  - intros q Hq. rewrite (Pa q Hq).
    destruct (decide (e.2 = q)) as [<-|Hne].
    + rewrite (decide_True (P := e.2 ∈ es.*2 ++ [e.2]))
        by (apply elem_of_app; right; apply list_elem_of_here).
      rewrite Hres. by case_decide.
    + destruct (decide (q ∈ es.*2)) as [Hin|Hout].
      * by rewrite decide_True by (apply elem_of_app; by left).
      * rewrite decide_False; [done|].
        intros [?|?%list_elem_of_singleton]%elem_of_app; congruence.
Qed.

Lemma foldl_linkOne_linked m hp0 es :
  linked m hp0 es (foldl (linkOne m) (hp0, [], []) es).
Proof.
  induction es as [|e es IH] using rev_ind.
  - split; simpl; try done.
    + intros q _. by rewrite app_nil_r.
  - rewrite foldl_snoc. apply linked_snoc; [done|].
    apply (foldl_linkOne_field gopsProcess m es (hp0, [], [])); done.
Qed.

(** ** Sorting by pid *)

(** Strictly ascending process ids: each pid is below the next one. *)
Definition ascending (hp : Heap) (procs : list ptr) : Prop :=
  Sorted Z.lt (pidAt hp <$> procs).

#[global] Instance pid_le_total hp : Total (pid_le hp).
Proof. intros a b. unfold pid_le. lia. Qed.

#[global] Instance pid_le_trans hp : Transitive (pid_le hp).
Proof. intros a b d. unfold pid_le. lia. Qed.

Lemma Sorted_le_NoDup_lt (l : list Z) : Sorted Z.le l → NoDup l → Sorted Z.lt l.
Proof.
  induction 1 as [|x l HS IH HR]; intros Hnd; [constructor|].
  apply NoDup_cons in Hnd as [Hx Hnd]. constructor; [by apply IH|].
  destruct HR as [|y l Hxy]; constructor.
  assert (x ≠ y) by (intros ->; apply Hx, list_elem_of_here). lia.
Qed.

Lemma Sorted_lt_NoDup (l : list Z) : Sorted Z.lt l → NoDup l.
Proof.
  intros HS. apply (Sorted_StronglySorted Z.lt) in HS.
  induction HS as [|x l HS IH HF]; constructor; [|done].
  intros Hin. rewrite Forall_forall in HF. specialize (HF _ Hin). lia.
Qed.

Lemma sort_Permutation hp l : lockedSortProcessesByPid hp l ≡ₚ l.
Proof. apply merge_sort_Permutation. Qed.

Lemma sort_elem_of hp l (p : ptr) : p ∈ lockedSortProcessesByPid hp l ↔ p ∈ l.
Proof. by rewrite sort_Permutation. Qed.

Lemma sort_Sorted hp l : Sorted Z.le (pidAt hp <$> lockedSortProcessesByPid hp l).
Proof.
  apply (Sorted_fmap _ (pid_le hp)); [done|]. apply Sorted_merge_sort, _.
Qed.

Lemma sort_ascending hp l :
  NoDup (pidAt hp <$> l) → ascending hp (lockedSortProcessesByPid hp l).
Proof.
  intros Hnd. apply Sorted_le_NoDup_lt; [apply sort_Sorted|].
  by rewrite sort_Permutation.
Qed.

Lemma pids_field hp hp' (l : list ptr) :
  field gopsProcess hp' = field gopsProcess hp →
  pidAt hp' <$> l = pidAt hp <$> l.
Proof. intros E. apply list_fmap_ext. intros _ p _. by apply pidAt_field. Qed.

Lemma ascending_field hp hp' l :
  field gopsProcess hp' = field gopsProcess hp →
  ascending hp l → ascending hp' l.
Proof. intros E. unfold ascending. by rewrite (pids_field _ _ _ E). Qed.

Lemma ascending_NoDup hp l : ascending hp l → NoDup l.
Proof. intros H%Sorted_lt_NoDup. by eapply NoDup_fmap_1. Qed.

(** A sublist of an ascending list is ascending. *)
Lemma ascending_sublist hp l k : k `sublist_of` l → ascending hp l → ascending hp k.
Proof.
  intros Hs Ha. unfold ascending in *.
  apply (Sorted_StronglySorted Z.lt) in Ha.
  apply StronglySorted_Sorted.
  assert (pidAt hp <$> k `sublist_of` pidAt hp <$> l) as Hs'
    by (by apply fmap_sublist).
  revert Hs'. generalize (pidAt hp <$> k) (pidAt hp <$> l) Ha. clear.
  intros k l Ha. revert k. induction Ha as [|x l HS IH HF]; intros k Hs.
  - apply sublist_nil_r in Hs as ->. constructor.
  - apply sublist_cons_r in Hs as [Hs|(k' & -> & Hs)]; [by apply IH|].
    constructor; [by apply IH|].
    rewrite Forall_forall in *. intros y Hy. apply HF.
    by eapply elem_of_sublist.
Qed.

(** Sorting an ascending list does nothing. *)
Lemma sort_ascending_id hp l :
  ascending hp l → lockedSortProcessesByPid hp l = l.
Proof.
  intros Ha.
  assert (∀ a b : ptr, pidAt hp a < pidAt hp b → pid_le hp a b) as Hlt
    by (unfold pid_le; lia).
  assert (StronglySorted (pid_le hp) l) as Hl.
  { apply (Sorted_StronglySorted Z.lt) in Ha. unfold ascending in Ha.
    revert Ha. clear -Hlt. induction l as [|a l IH]; intros Ha; [constructor|].
    rewrite fmap_cons in Ha. apply StronglySorted_inv in Ha as [Ha HF].
    constructor; [by apply IH|].
    rewrite Forall_fmap in HF. eapply Forall_impl; [exact HF|].
    intros b Hb. by apply Hlt. }
  apply (StronglySorted_unique_strong (pid_le hp)).
  - intros a b Ha' Hb' H1 H2. apply sort_elem_of in Ha'.
    unfold pid_le in *. assert (pidAt hp a = pidAt hp b) as E by lia.
    apply Sorted_lt_NoDup in Ha.
    apply list_elem_of_lookup in Ha' as [i Hi].
    apply list_elem_of_lookup in Hb' as [j Hj].
    assert (i = j) as ->; [|congruence].
    eapply NoDup_lookup; [exact Ha| |]; rewrite list_lookup_fmap;
      [by rewrite Hi|by rewrite Hj; simpl; f_equal].
  - apply StronglySorted_merge_sort; apply _.
  - done.
  - apply sort_Permutation.
Qed.

(** The two loops that sort every child slice (lines 175-177, 248-250) are
    the same loop over different fields. *)
Section sortChildren.
Context (get : Process → list ptr) (set : list ptr → Process → Process).
Hypothesis get_set : ∀ l n, get (set l n) = l.
Hypothesis set_gops : ∀ l n, gopsProcess (set l n) = gopsProcess n.

Definition sortLoop (hp : Heap) (procs : list ptr) : Heap :=
  foldl (λ hp proc, alter (λ n, set (lockedSortProcessesByPid hp (get n)) n) proc hp)
        hp procs.

Definition getAt (hp : Heap) (q : ptr) : list ptr := from_option get [] (hp !! q).

Lemma sortLoop_gops hp procs :
  field gopsProcess (sortLoop hp procs) = field gopsProcess hp.
Proof.
  unfold sortLoop.
  apply (field_foldl_alter gopsProcess
           (λ h _ n, set (lockedSortProcessesByPid h (get n)) n) (λ _ b, b)).
  intros. apply set_gops.
Qed.

Lemma sortLoop_field {A} (proj : Process → A) hp procs :
  (∀ l n, proj (set l n) = proj n) →
  field proj (sortLoop hp procs) = field proj hp.
Proof.
  intros H. unfold sortLoop.
  apply (field_foldl_alter proj
           (λ h _ n, set (lockedSortProcessesByPid h (get n)) n) (λ _ b, b)).
  intros. apply H.
Qed.

Lemma getAt_sort_step hp (proc q : ptr) :
  getAt (alter (λ n, set (lockedSortProcessesByPid hp (get n)) n) proc hp) q
  = if decide (proc = q) then lockedSortProcessesByPid hp (getAt hp q)
    else getAt hp q.
Proof.
  unfold getAt. rewrite list_lookup_alter. case_decide; [subst|done].
  destruct (hp !! q); simpl; by rewrite ?get_set.
Qed.

Lemma sortLoop_Permutation hp procs q :
  getAt (sortLoop hp procs) q ≡ₚ getAt hp q.
Proof.
  revert hp. induction procs as [|proc procs IH]; intros hp; [done|].
  unfold sortLoop in *. simpl. rewrite IH, getAt_sort_step.
  case_decide; [apply sort_Permutation|done].
Qed.

Lemma sortLoop_Sorted hp procs q :
  q ∈ procs ∨ Sorted Z.le (pidAt hp <$> getAt hp q) →
  Sorted Z.le (pidAt hp <$> getAt (sortLoop hp procs) q).
Proof.
  revert hp. induction procs as [|proc procs IH]; intros hp H.
  - destruct H as [H|H]; [by apply elem_of_nil in H|done].
  - set (hp1 := alter (λ n, set (lockedSortProcessesByPid hp (get n)) n) proc hp).
    assert (field gopsProcess hp1 = field gopsProcess hp) as Hg
      by (apply field_alter; intros; apply set_gops).
    change (sortLoop hp (proc :: procs)) with (sortLoop hp1 procs).
    rewrite <- (pids_field _ _ _ Hg). apply IH.
    rewrite (pids_field _ _ _ Hg). subst hp1. rewrite getAt_sort_step.
    destruct (decide (proc = q)) as [->|Hne].
    + right. apply sort_Sorted.
    + destruct H as [[?|?]%elem_of_cons|H]; [congruence|by left|by right].
Qed.

Lemma sortLoop_ascending_id hp procs q :
  ascending hp (getAt hp q) → getAt (sortLoop hp procs) q = getAt hp q.
Proof.
  revert hp. induction procs as [|proc procs IH]; intros hp H; [done|].
  set (hp1 := alter (λ n, set (lockedSortProcessesByPid hp (get n)) n) proc hp).
  assert (field gopsProcess hp1 = field gopsProcess hp) as Hg
    by (apply field_alter; intros; apply set_gops).
  assert (getAt hp1 q = getAt hp q) as E.
  { subst hp1. rewrite getAt_sort_step. case_decide; [|done].
    by apply sort_ascending_id. }
  change (sortLoop hp (proc :: procs)) with (sortLoop hp1 procs).
  rewrite IH; [done|]. rewrite E. by apply (ascending_field hp).
Qed.

End sortChildren.

Lemma sortAbsChildren_sortLoop hp procs :
  sortAbsChildren hp procs = sortLoop absChildProcs set_absChildProcs hp procs.
Proof. done. Qed.

Lemma sortIncludedChildren_sortLoop hp procs :
  sortIncludedChildren hp procs
  = sortLoop includedChildProcs set_includedChildProcs hp procs.
Proof. done. Qed.

(** ** The included structure (lines 227-243) *)

Lemma includedChildrenAt_alter f (p q : ptr) hp :
  includedChildrenAt (alter f p hp) q
  = if decide (p = q)
    then from_option (λ n, includedChildProcs (f n)) [] (hp !! q)
    else includedChildrenAt hp q.
Proof.
  unfold includedChildrenAt. rewrite list_lookup_alter.
  case_decide; [subst|done]. by destruct (hp !! q).
Qed.

Lemma includeOne_unfold hp incl roots proc :
  includeOne (hp, incl, roots) proc
  = if includedAt hp proc then
      (match parentAt hp proc with
       | Some pp => alter (push_includedChild proc) pp hp
       | None => hp
       end,
       incl ++ [proc],
       if bool_decide (lockedParent hp proc = None)
       then roots ++ [proc] else roots)
    else (hp, incl, roots).
Proof.
  unfold includeOne, lockedParent. destruct (includedAt hp proc); [|done].
  destruct (parentAt hp proc) as [pp|]; [|done].
  assert (includedAt (alter (push_includedChild proc) pp hp) pp = includedAt hp pp)
    as -> by (apply includedAt_field; by apply field_alter).
  by destruct (bool_decide (pp = proc) || negb (includedAt hp pp)).
Qed.

Lemma includeOne_field {A} (proj : Process → A) st proc :
  (∀ ch n, proj (push_includedChild ch n) = proj n) →
  field proj (includeOne st proc).1.1 = field proj st.1.1.
Proof.
  intros Hp. destruct st as [[hp incl] roots]. rewrite includeOne_unfold.
  destruct (includedAt hp proc); [|done]. simpl.
  destruct (parentAt hp proc); [|done]. by apply field_alter.
Qed.

Lemma foldl_includeOne_field {A} (proj : Process → A) procs st :
  (∀ ch n, proj (push_includedChild ch n) = proj n) →
  field proj (foldl includeOne st procs).1.1 = field proj st.1.1.
Proof.
  intros Hp. revert st. induction procs as [|p procs IH]; intros st; [done|].
  simpl. rewrite IH. by apply includeOne_field.
Qed.

(** The state of the loop after the objects [procs]. *)
Record includedSoFar (hp0 : Heap) (procs : list ptr)
    (st : Heap * list ptr * list ptr) : Prop := {
  in_incl : st.1.2 = filter (λ p, includedAt hp0 p = true) procs;
  in_roots :
    st.2 = filter (λ p, includedAt hp0 p = true ∧ lockedParent hp0 p = None) procs;
  in_children : ∀ q : ptr, is_Some (hp0 !! q) →
    includedChildrenAt st.1.1 q
    = includedChildrenAt hp0 q
      ++ filter (λ p, includedAt hp0 p = true ∧ parentAt hp0 p = Some q) procs
}.

Lemma lockedParent_field hp hp' p :
  field parentProc hp' = field parentProc hp →
  field isIncluded hp' = field isIncluded hp →
  lockedParent hp' p = lockedParent hp p.
Proof.
  intros E1 E2. unfold lockedParent. rewrite (parentAt_field _ _ _ E1).
  destruct (parentAt hp p) as [pp|]; [|done].
  by rewrite (includedAt_field _ _ _ E2).
Qed.

Lemma includedSoFar_snoc hp0 procs proc st :
  includedSoFar hp0 procs st →
  field parentProc st.1.1 = field parentProc hp0 →
  field isIncluded st.1.1 = field isIncluded hp0 →
  includedSoFar hp0 (procs ++ [proc]) (includeOne st proc).
Proof.
  intros [I R C] Hpar Hinc. destruct st as [[hp incl] roots].
  simpl in I, R, C, Hpar, Hinc.
  rewrite includeOne_unfold, (includedAt_field _ _ _ Hinc),
    (parentAt_field _ _ _ Hpar), (lockedParent_field _ _ _ Hpar Hinc).
  assert (∀ q : ptr, is_Some (hp0 !! q) → is_Some (hp !! q)) as Hval.
  { intros q. by rewrite (field_eq_is_Some _ _ _ _ Hinc). }
  destruct (includedAt hp0 proc) eqn:Hi; split; simpl; rewrite ?filter_snoc.
  - rewrite decide_True by done. by rewrite I.
  - rewrite R. case_bool_decide as Hroot.
    + by rewrite decide_True.
    + rewrite decide_False by tauto. by rewrite app_nil_r.
  - intros q Hq. rewrite filter_snoc. destruct (Hval q Hq) as [n Hn].
    destruct (parentAt hp0 proc) as [pp|] eqn:Hpp.
    + rewrite includedChildrenAt_alter.
      destruct (decide (pp = q)) as [->|Hne].
      * rewrite decide_True by done. rewrite Hn. simpl.
        rewrite app_assoc, <- (C q Hq).
        unfold includedChildrenAt. by rewrite Hn.
      * rewrite decide_False by (intros [_ ?]; congruence).
        rewrite app_nil_r. by apply C.
    + rewrite decide_False by (intros [_ ?]; congruence).
      rewrite app_nil_r. by apply C.
  - rewrite decide_False by congruence. by rewrite app_nil_r.
  - rewrite decide_False by (intros [? _]; congruence). by rewrite app_nil_r.
  - intros q Hq. rewrite filter_snoc.
    rewrite decide_False by (intros [? _]; congruence).
    rewrite app_nil_r. by apply C.
Qed.

Lemma includeAll_includedSoFar hp0 procs :
  includedSoFar hp0 procs (includeAll hp0 procs).
Proof.
  unfold includeAll. induction procs as [|proc procs IH] using rev_ind.
  - split; simpl; try done. intros q _. by rewrite app_nil_r.
  - rewrite foldl_snoc. apply includedSoFar_snoc; [done|..].
    + by apply (foldl_includeOne_field parentProc procs (hp0, [], [])).
    + by apply (foldl_includeOne_field isIncluded procs (hp0, [], [])).
Qed.

Lemma includeAll_field {A} (proj : Process → A) hp procs :
  (∀ ch n, proj (push_includedChild ch n) = proj n) →
  field proj (includeAll hp procs).1.1 = field proj hp.
Proof. intros H. by apply (foldl_includeOne_field proj procs (hp, [], [])). Qed.

(** ** Walks that only flip the inclusion flag *)

(** [hp'] differs from [hp] at most in inclusion flags. *)
Definition keepsShape (hp hp' : Heap) : Prop :=
  ∀ A (proj : Process → A),
    (∀ b n, proj (set_isIncluded b n) = proj n) → field proj hp' = field proj hp.

(** A handler that never fails and only writes inclusion flags. *)
Definition flagOnly (h : ProcessHandler) : Prop :=
  ∀ p hp, (h p hp).2 = None ∧ keepsShape hp (h p hp).1.

Lemma keepsShape_refl hp : keepsShape hp hp.
Proof. by intros A proj _. Qed.

Lemma keepsShape_trans hp1 hp2 hp3 :
  keepsShape hp1 hp2 → keepsShape hp2 hp3 → keepsShape hp1 hp3.
Proof. intros H1 H2 A proj Hp. by rewrite (H2 A proj Hp), (H1 A proj Hp). Qed.

Lemma keepsShape_alter b (p : ptr) hp :
  keepsShape hp (alter (set_isIncluded b) p hp).
Proof. intros A proj Hp. apply field_alter. apply Hp. Qed.

Lemma includeHandler_flagOnly : flagOnly includeHandler.
Proof.
  intros p hp. split; [done|]. unfold includeHandler. simpl.
  destruct (includedAt hp p); [apply keepsShape_refl|apply keepsShape_alter].
Qed.

Lemma excludeHandler_flagOnly : flagOnly excludeHandler.
Proof. intros p hp. split; [done|]. apply keepsShape_alter. Qed.

(** A step [f] that never fails and keeps the shape. *)
Definition shapely (f : ptr → Heap → option (Heap * option error)) : Prop :=
  ∀ p hp hp' e, f p hp = Some (hp', e) → e = None ∧ keepsShape hp hp'.

Lemma forEachProc_shapely f : shapely f → ∀ l, shapely (λ _, forEachProc f l).
Proof.
  intros Hf l. induction l as [|p l IH]; intros _ hp hp' e; simpl.
  - intros [= <- <-]. split; [done|apply keepsShape_refl].
  - destruct (f p hp) as [[hp1 [e1|]]|] eqn:E; [| |done].
    + by destruct (Hf _ _ _ _ E).
    + intros H. destruct (Hf _ _ _ _ E) as [_ H1].
      destruct (IH p _ _ _ H) as [-> H2]. split; [done|].
      by eapply keepsShape_trans.
Qed.

Lemma lockedWalkFullSubtree_shapely fuel h :
  flagOnly h → shapely (lockedWalkFullSubtree fuel h).
Proof.
  intros Hh. induction fuel as [|fuel IH]; intros p hp hp' e; simpl; [done|].
  destruct (Hh p hp) as [He H1]. destruct (h p hp) as [hp1 e1].
  simpl in He, H1. subst e1. intros Hw.
  destruct (forEachProc_shapely _ IH _ p _ _ _ Hw) as [-> H2].
  split; [done|]. by eapply keepsShape_trans.
Qed.

Lemma lockedWalkFullAncestry_shapely fuel h :
  flagOnly h → shapely (lockedWalkFullAncestry fuel h).
Proof.
  intros Hh. induction fuel as [|fuel IH]; intros p hp hp' e; simpl; [done|].
  destruct (Hh p hp) as [He H1]. destruct (h p hp) as [hp1 e1].
  simpl in He, H1. subst e1.
  destruct (parentAt hp1 p) as [pp|]; [case_bool_decide|].
  - intros Hw. destruct (IH _ _ _ _ Hw) as [-> H2].
    split; [done|]. by eapply keepsShape_trans.
  - by intros [= <- <-].
  - by intros [= <- <-].
Qed.

Lemma lockedFullWalkFromRoots_shapely fuel roots h :
  flagOnly h → shapely (λ _ hp, lockedFullWalkFromRoots fuel roots h hp).
Proof.
  intros Hh. apply (forEachProc_shapely (lockedWalkFullSubtree fuel h)).
  by apply lockedWalkFullSubtree_shapely.
Qed.

(** The inclusion pass and the exclusion pass of the update. *)
Lemma foldl_set_isIncluded_shape b procs hp :
  keepsShape hp (foldl (λ hp proc, alter (set_isIncluded b) proc hp) hp procs).
Proof.
  revert hp. induction procs as [|p procs IH]; intros hp; simpl.
  - apply keepsShape_refl.
  - eapply keepsShape_trans; [apply keepsShape_alter|apply IH].
Qed.

Lemma markIncluded_shape fuel c cfgRoots procs hp hp' e :
  markIncluded fuel c cfgRoots procs hp = Some (hp', e) →
  e = None ∧ keepsShape hp hp'.
Proof.
  unfold markIncluded. destruct (fixedRootsOf c).
  - destruct (lockedFullWalkFromRoots fuel cfgRoots includeHandler hp)
      as [[hp1 e1]|] eqn:E1; [|done].
    destruct (lockedFullWalkFromRoots_shapely fuel cfgRoots includeHandler
                includeHandler_flagOnly 0%nat _ _ _ E1) as [-> H1].
    destruct (includeRootAncestors c).
    + destruct (forEachProc _ cfgRoots hp1) as [[hp2 e2]|] eqn:E2; [|done].
      destruct (forEachProc_shapely _
                  (lockedWalkFullAncestry_shapely fuel includeHandler
                     includeHandler_flagOnly) cfgRoots 0%nat _ _ _ E2)
        as [-> H2].
      intros [= <- <-]. split; [done|]. by eapply keepsShape_trans.
    + by intros [= <- <-].
  - intros [= <- <-]. split; [done|]. apply foldl_set_isIncluded_shape.
Qed.

Lemma excludeKernelThreads_shape fuel c m hp hp' e :
  excludeKernelThreads fuel c m hp = Some (hp', e) →
  e = None ∧ keepsShape hp hp'.
Proof.
  unfold excludeKernelThreads. destruct (includeKernelThreads c).
  - intros [= <- <-]. split; [done|apply keepsShape_refl].
  - destruct (m !! kthreadPid) as [kProc|].
    + destruct (lockedWalkFullSubtree fuel excludeHandler kProc hp)
        as [[hp1 e1]|] eqn:E1; [|done].
      destruct (lockedWalkFullSubtree_shapely fuel excludeHandler
                  excludeHandler_flagOnly _ _ _ _ E1) as [-> H1].
      by intros [= <- <-].
    + intros [= <- <-]. split; [done|apply keepsShape_refl].
Qed.

(** ** The update as a whole *)

(** The values the update computes before its walks; they do not depend on
    the walks, hence not on [fuel]. *)
Section stages.
Context (pt : ProcTree) (pruneTombstones : bool) (gs : list gops_Process).

Definition refreshedHeap : Heap := (refreshNodes pt pruneTombstones gs).1.
Definition refreshedMap : gmap Z ptr := (refreshNodes pt pruneTombstones gs).2.
Definition linkedHeap : Heap := (linkAll refreshedMap refreshedHeap).1.1.
Definition sortedProcs : list ptr :=
  lockedSortProcessesByPid linkedHeap (linkAll refreshedMap refreshedHeap).1.2.
Definition sortedRoots : list ptr :=
  lockedSortProcessesByPid linkedHeap (linkAll refreshedMap refreshedHeap).2.
Definition absoluteHeap : Heap := sortAbsChildren linkedHeap sortedProcs.

(** Lines 227-252, from the store the walks leave. *)
Definition finishUpdate (cfgRoots : option (list ptr)) (hp6 : Heap) : ProcTree :=
  let st := includeAll hp6 sortedProcs in
  mk_ProcTree (cfg pt) (sortIncludedChildren st.1.1 sortedProcs) refreshedMap
              sortedProcs sortedRoots cfgRoots
              (lockedSortProcessesByPid st.1.1 st.1.2)
              (lockedSortProcessesByPid st.1.1 st.2).

Lemma updateWith_inv fuel pt' :
  updateWith fuel pt pruneTombstones gs = Some (pt', None) →
  ∃ cfgRoots hp5 hp6,
    resolveConfigured pt refreshedMap = inl cfgRoots ∧
    markIncluded fuel (cfg pt) (default [] cfgRoots) sortedProcs absoluteHeap
      = Some (hp5, None) ∧
    excludeKernelThreads fuel (cfg pt) refreshedMap hp5 = Some (hp6, None) ∧
    pt' = finishUpdate cfgRoots hp6.
Proof.
  unfold updateWith, finishUpdate, absoluteHeap, sortedRoots, sortedProcs,
    linkedHeap, refreshedMap, refreshedHeap.
  destruct (refreshNodes pt pruneTombstones gs) as [hp2 m]. simpl.
  destruct (resolveConfigured pt m) as [cfgRoots|pid]; [|done].
  destruct (linkAll m hp2) as [[hp3 procs] roots]. simpl.
  destruct (markIncluded _ _ _ _ _) as [[hp5 [e|]]|] eqn:E1; [done| |done].
  destruct (excludeKernelThreads _ _ _ _) as [[hp6 [e|]]|] eqn:E2; [done| |done].
  destruct (includeAll hp6 _) as [[hp7 incl] iroots] eqn:E3. simpl.
  intros [= <-]. exists cfgRoots, hp5, hp6. by rewrite E3.
Qed.

(** Conversely, the update succeeds as soon as its walks return. *)
Lemma updateWith_finish fuel cfgRoots hp5 hp6 :
  resolveConfigured pt refreshedMap = inl cfgRoots →
  markIncluded fuel (cfg pt) (default [] cfgRoots) sortedProcs absoluteHeap
    = Some (hp5, None) →
  excludeKernelThreads fuel (cfg pt) refreshedMap hp5 = Some (hp6, None) →
  updateWith fuel pt pruneTombstones gs = Some (finishUpdate cfgRoots hp6, None).
Proof.
  unfold updateWith, finishUpdate, absoluteHeap, sortedRoots, sortedProcs,
    linkedHeap, refreshedMap, refreshedHeap.
  destruct (refreshNodes pt pruneTombstones gs) as [hp2 m]. simpl.
  intros ->. destruct (linkAll m hp2) as [[hp3 procs] roots]. simpl.
  intros -> ->. by destruct (includeAll hp6 _) as [[hp7 incl] iroots].
Qed.

(** A failing resolution of the configured roots ends the update early. *)
Lemma updateWith_missing fuel pid :
  resolveConfigured pt refreshedMap = inr pid →
  updateWith fuel pt pruneTombstones gs
  = Some (mk_ProcTree (cfg pt) refreshedHeap refreshedMap (absProcs pt)
            (absRootProcs pt) None (includedProcs pt) (includedRootProcs pt),
          Some (ConfiguredRootMissing pid)).
Proof.
  unfold updateWith, refreshedMap, refreshedHeap.
  destruct (refreshNodes pt pruneTombstones gs) as [hp2 m]. simpl.
  by intros ->.
Qed.

End stages.

Lemma keyed_field hp hp' m :
  field gopsProcess hp' = field gopsProcess hp → keyed hp m → keyed hp' m.
Proof.
  intros E Hk pid p Hp. destruct (Hk _ _ Hp) as (n & Hn & Hpid).
  pose proof (field_eq_lookup gopsProcess _ _ p E) as El. rewrite Hn in El.
  destruct (hp' !! p) as [n'|]; [|done]. exists n'. split; [done|].
  simpl in El. congruence.
Qed.

Lemma keyed_pidAt hp m pid (p : ptr) : keyed hp m → m !! pid = Some p → pidAt hp p = pid.
Proof.
  intros Hk Hp. destruct (Hk _ _ Hp) as (n & Hn & Hpid).
  unfold pidAt. by rewrite Hn.
Qed.

Lemma keyed_valid hp m pid (p : ptr) : keyed hp m → m !! pid = Some p → is_Some (hp !! p).
Proof. intros Hk Hp. destruct (Hk _ _ Hp) as (n & Hn & _). by exists n. Qed.

Lemma keyed_pids hp (m : gmap Z ptr) :
  keyed hp m → pidAt hp <$> (map_to_list m).*2 = (map_to_list m).*1.
Proof.
  intros Hk. rewrite <- list_fmap_compose. apply list_fmap_ext.
  intros i [pid p] Hi. simpl. eapply keyed_pidAt; [done|].
  apply elem_of_map_to_list. by eapply list_elem_of_lookup_2.
Qed.

Lemma elem_of_map_values (m : gmap Z ptr) (p : ptr) :
  p ∈ (map_to_list m).*2 ↔ ∃ pid, m !! pid = Some p.
Proof.
  rewrite list_elem_of_fmap. split.
  - intros ([pid q] & -> & Hin). exists pid. by apply elem_of_map_to_list.
  - intros [pid Hp]. exists (pid, p). split; [done|].
    by apply elem_of_map_to_list.
Qed.

Lemma linkAll_linked m hp : linked m hp (map_to_list m) (linkAll m hp).
Proof. apply foldl_linkOne_linked. Qed.

(** *** The state before the walks *)
Section absolute.
Context (pt : ProcTree) (pruneTombstones : bool) (gs : list gops_Process).
Hypothesis Hkeyed : keyed (heap pt) (pidMap pt).

Let hp2 := refreshedHeap pt pruneTombstones gs.
Let m := refreshedMap pt pruneTombstones gs.
Let hp3 := linkedHeap pt pruneTombstones gs.
Let hp4 := absoluteHeap pt pruneTombstones gs.
Let procs := sortedProcs pt pruneTombstones gs.

Lemma refreshed_keyed : keyed hp2 m.
Proof. by apply refreshNodes_keyed. Qed.

Lemma linkedHeap_field {A} (proj : Process → A) :
  (∀ pp n, proj (adopt pp n) = proj n) →
  (∀ ch n, proj (push_absChild ch n) = proj n) →
  field proj hp3 = field proj hp2.
Proof. intros. by apply (foldl_linkOne_field proj m _ (hp2, [], [])). Qed.

Lemma absoluteHeap_field {A} (proj : Process → A) :
  (∀ l n, proj (set_absChildProcs l n) = proj n) →
  field proj hp4 = field proj hp3.
Proof.
  intros. subst hp4. unfold absoluteHeap. rewrite sortAbsChildren_sortLoop.
  by apply sortLoop_field.
Qed.

Lemma absoluteHeap_gops : field gopsProcess hp4 = field gopsProcess hp2.
Proof. by rewrite absoluteHeap_field, linkedHeap_field. Qed.

Lemma sortedProcs_elem (p : ptr) : p ∈ procs ↔ ∃ pid, m !! pid = Some p.
Proof.
  pose proof (lk_procs _ _ _ _ (linkAll_linked m hp2)) as E.
  subst procs m hp2. unfold sortedProcs. rewrite sort_elem_of.
  rewrite E. apply elem_of_map_values.
Qed.

Lemma sortedProcs_ascending hp :
  field gopsProcess hp = field gopsProcess hp2 → ascending hp procs.
Proof.
  intros Hg. apply (ascending_field hp3).
  { by rewrite Hg, linkedHeap_field. }
  pose proof (lk_procs _ _ _ _ (linkAll_linked m hp2)) as E.
  pose proof (linkedHeap_field gopsProcess (λ _ _, eq_refl) (λ _ _, eq_refl)) as E3.
  pose proof (keyed_pids _ _ refreshed_keyed) as Ek.
  subst procs m hp2 hp3. unfold sortedProcs. apply sort_ascending.
  rewrite E, (pids_field _ _ _ E3), Ek. apply NoDup_fst_map_to_list.
Qed.


End absolute.

(** *** The state the update leaves *)
Section finished.
Context (pt : ProcTree) (pruneTombstones : bool) (gs : list gops_Process).
Context (cfgRoots : option (list ptr)) (hp6 : Heap).
Hypothesis Hkeyed : keyed (heap pt) (pidMap pt).
Hypothesis Hshape : keepsShape (absoluteHeap pt pruneTombstones gs) hp6.

Let hp2 := refreshedHeap pt pruneTombstones gs.
Let m := refreshedMap pt pruneTombstones gs.
Let hp3 := linkedHeap pt pruneTombstones gs.
Let hp4 := absoluteHeap pt pruneTombstones gs.
Let procs := sortedProcs pt pruneTombstones gs.
Let pt' := finishUpdate pt pruneTombstones gs cfgRoots hp6.

Lemma finish_field_hp6 {A} (proj : Process → A) :
  (∀ l n, proj (set_includedChildProcs l n) = proj n) →
  field proj (heap pt') = field proj hp6.
Proof.
  intros H. subst pt'. unfold finishUpdate. simpl.
  rewrite sortIncludedChildren_sortLoop, sortLoop_field by done.
  apply includeAll_field. intros. apply H.
Qed.

Lemma finish_field_hp4 {A} (proj : Process → A) :
  (∀ l n, proj (set_includedChildProcs l n) = proj n) →
  (∀ b n, proj (set_isIncluded b n) = proj n) →
  field proj (heap pt') = field proj hp4.
Proof. intros H1 H2. rewrite finish_field_hp6 by done. by apply Hshape. Qed.

Lemma finish_gops : field gopsProcess (heap pt') = field gopsProcess hp2.
Proof.
  rewrite finish_field_hp4 by done. by apply absoluteHeap_gops.
Qed.

Lemma finish_isTombstone : field isTombstone (heap pt') = field isTombstone hp2.
Proof.
  rewrite finish_field_hp4 by done.
  subst hp4 hp2. by rewrite absoluteHeap_field, linkedHeap_field.
Qed.

Lemma finish_parentProc : field parentProc (heap pt') = field parentProc hp3.
Proof.
  rewrite finish_field_hp4 by done. subst hp4 hp3. by rewrite absoluteHeap_field.
Qed.

Lemma finish_isIncluded : field isIncluded (heap pt') = field isIncluded hp6.
Proof. by apply finish_field_hp6. Qed.

Lemma finish_absChildProcs :
  field absChildProcs (heap pt') = field absChildProcs hp4.
Proof. by apply finish_field_hp4. Qed.

Lemma finish_keyed : keyed (heap pt') (pidMap pt').
Proof.
  apply (keyed_field hp2); [apply finish_gops|]. by apply refreshed_keyed.
Qed.

Lemma finish_absProcs_elem (p : ptr) :
  p ∈ absProcs pt' ↔ ∃ pid, pidMap pt' !! pid = Some p.
Proof. by apply sortedProcs_elem. Qed.

Lemma finish_absProcs_ascending : ascending (heap pt') (absProcs pt').
Proof. apply sortedProcs_ascending; [done|apply finish_gops]. Qed.

Lemma hp6_gops : field gopsProcess hp6 = field gopsProcess hp2.
Proof. rewrite (Hshape _ gopsProcess) by done. by apply absoluteHeap_gops. Qed.

Lemma finish_includeAll_gops :
  field gopsProcess (includeAll hp6 procs).1.1 = field gopsProcess hp2.
Proof. rewrite includeAll_field by done. apply hp6_gops. Qed.

(** [Processes()] is the ascending list of the included objects of the map. *)
Lemma finish_Processes :
  Processes pt' = filter (λ p, includedAt (heap pt') p = true) (absProcs pt').
Proof.
  unfold Processes. unfold pt' at 1. unfold finishUpdate at 1. simpl.
  rewrite (in_incl _ _ _ (includeAll_includedSoFar hp6 _)).
  rewrite sort_ascending_id.
  - apply list_filter_iff. intros p.
    by rewrite (includedAt_field _ _ _ finish_isIncluded).
  - eapply ascending_sublist; [apply sublist_filter|].
    apply sortedProcs_ascending; [done|apply finish_includeAll_gops].
Qed.

(** [Roots()] lists the included objects without an included parent. *)
Lemma finish_Roots :
  Roots pt'
  = filter (λ p, includedAt (heap pt') p = true ∧ lockedParent (heap pt') p = None)
           (absProcs pt').
Proof.
  assert (field parentProc (heap pt') = field parentProc hp6) as Epar
    by (by apply finish_field_hp6).
  unfold Roots. unfold pt' at 1. unfold finishUpdate at 1. simpl.
  rewrite (in_roots _ _ _ (includeAll_includedSoFar hp6 _)).
  rewrite sort_ascending_id.
  - apply list_filter_iff. intros p.
    by rewrite (includedAt_field _ _ _ finish_isIncluded),
      (lockedParent_field _ _ _ Epar finish_isIncluded).
  - eapply ascending_sublist; [apply sublist_filter|].
    apply sortedProcs_ascending; [done|apply finish_includeAll_gops].
Qed.

End finished.

(** *** Parent links and child slices the update leaves *)
Section structure.
Context (pt : ProcTree) (pruneTombstones : bool) (gs : list gops_Process).
Context (cfgRoots : option (list ptr)) (hp6 : Heap).
Hypothesis Hkeyed : keyed (heap pt) (pidMap pt).
Hypothesis Hshape : keepsShape (absoluteHeap pt pruneTombstones gs) hp6.

Let hp2 := refreshedHeap pt pruneTombstones gs.
Let m := refreshedMap pt pruneTombstones gs.
Let hp3 := linkedHeap pt pruneTombstones gs.
Let hp4 := absoluteHeap pt pruneTombstones gs.
Let procs := sortedProcs pt pruneTombstones gs.
Let pt' := finishUpdate pt pruneTombstones gs cfgRoots hp6.

(** Every object of the refreshed map starts the rebuild without children. *)
Lemma refreshed_childless pid (q : ptr) :
  m !! pid = Some q → absChildrenAt hp2 q = [] ∧ includedChildrenAt hp2 q = [].
Proof.
  intros Hq. unfold absChildrenAt, includedChildrenAt.
  destruct (refreshNodes_entry pt pruneTombstones gs Hkeyed pid q Hq)
    as [(g & _ & [(_ & n & _ & E)|(_ & _ & E)])|(_ & _ & _ & n & _ & E)];
    subst hp2; unfold refreshedHeap; by rewrite E.
Qed.

Lemma finish_resolveParent (p : ptr) :
  resolveParent (pidMap pt') (heap pt') p = resolveParent m hp2 p.
Proof.
  apply resolveParent_field. by apply finish_gops.
Qed.

Lemma finish_parentAt pid (q : ptr) :
  m !! pid = Some q →
  parentAt (heap pt') q
  = match resolveParent (pidMap pt') (heap pt') q with
    | Some pp => Some pp
    | None => parentAt hp2 q
    end.
Proof.
  intros Hq. rewrite finish_resolveParent.
  assert (field parentProc (heap pt') = field parentProc hp3) as Ep
    by (by apply finish_parentProc).
  rewrite (parentAt_field _ _ _ Ep). subst hp3.
  destruct (linkAll_linked m hp2) as [_ _ _ Pa].
  unfold linkedHeap. fold hp2 m. rewrite Pa.
  - rewrite decide_True; [done|]. apply elem_of_map_values. by exists pid.
  - eapply keyed_valid; [|done]. by apply refreshed_keyed.
Qed.

Lemma finish_absChildren pid (q : ptr) :
  m !! pid = Some q →
  ascending (heap pt') (absChildrenAt (heap pt') q) ∧
  ∀ p : ptr, p ∈ absChildrenAt (heap pt') q ↔
             (∃ pid', m !! pid' = Some p) ∧
             resolveParent (pidMap pt') (heap pt') p = Some q.
Proof.
  intros Hq.
  assert (field gopsProcess (heap pt') = field gopsProcess hp2) as Eg
    by (by apply finish_gops).
  assert (field gopsProcess hp3 = field gopsProcess hp2) as Eg3
    by (by apply linkedHeap_field).
  assert (field absChildProcs (heap pt') = field absChildProcs hp4) as Ec
    by (by apply finish_absChildProcs).
  rewrite (absChildrenAt_field _ _ _ Ec). destruct (linkAll_linked m hp2) as [Pr _ C _].
  assert (is_Some (hp2 !! q)) as Hv
    by (eapply keyed_valid; [by apply refreshed_keyed|done]).
  specialize (C q Hv). rewrite (proj1 (refreshed_childless _ _ Hq)) in C.
  simpl in C. change (linkAll m hp2).1.1 with hp3 in C.
  assert (absChildrenAt hp4 q ≡ₚ absChildrenAt hp3 q) as Hperm.
  { subst hp4. unfold absoluteHeap. rewrite sortAbsChildren_sortLoop.
    by apply (sortLoop_Permutation absChildProcs set_absChildProcs). }
  split.
  - apply Sorted_le_NoDup_lt.
    + rewrite (pids_field hp3) by (by rewrite Eg, Eg3).
      subst hp4. unfold absoluteHeap. rewrite sortAbsChildren_sortLoop.
      apply (sortLoop_Sorted absChildProcs set_absChildProcs); try done.
      left. apply sortedProcs_elem. by exists pid.
    + rewrite Hperm, C, (pids_field hp2) by done.
      eapply sublist_NoDup; [|apply fmap_sublist, sublist_filter].
      assert (pidAt hp2 <$> (map_to_list m).*2 = (map_to_list m).*1) as ->
        by (apply keyed_pids; by apply refreshed_keyed).
      apply NoDup_fst_map_to_list.
  - intros p. rewrite Hperm, C, list_elem_of_filter, elem_of_map_values.
    rewrite finish_resolveParent. tauto.
Qed.

(** [Children()] of an object of the map lists, in ascending pid order, the
    included objects whose parent link points to it. *)
Lemma finish_Children pid (q : ptr) :
  m !! pid = Some q →
  Children (heap pt') q
  = filter (λ p, includedAt (heap pt') p = true ∧ parentAt (heap pt') p = Some q)
           (absProcs pt').
Proof.
  intros Hq. unfold Children.
  assert (field parentProc (heap pt') = field parentProc hp6) as Epar
    by (by apply finish_field_hp6).
  assert (field isIncluded (heap pt') = field isIncluded hp6) as Einc
    by (by apply finish_isIncluded).
  set (P := λ p : ptr, includedAt hp6 p = true ∧ parentAt hp6 p = Some q).
  assert (includedChildrenAt (includeAll hp6 procs).1.1 q = filter P procs) as E7.
  { rewrite (in_children _ _ _ (includeAll_includedSoFar hp6 procs)).
    - assert (includedChildrenAt hp6 q = includedChildrenAt hp2 q) as ->.
      { apply includedChildrenAt_field.
        rewrite (Hshape _ includedChildProcs) by done.
        subst hp2. by rewrite absoluteHeap_field, linkedHeap_field. }
      by rewrite (proj2 (refreshed_childless _ _ Hq)).
    - rewrite (field_eq_is_Some gopsProcess hp2 hp6).
      + eapply keyed_valid; [by apply refreshed_keyed|done].
      + by apply hp6_gops. }
  transitivity (filter P procs).
  - unfold pt' at 1. unfold finishUpdate. simpl.
    change (sortedProcs pt pruneTombstones gs) with procs.
    rewrite sortIncludedChildren_sortLoop.
    change (includedChildrenAt ?h ?x) with (getAt includedChildProcs h x) in *.
    rewrite (sortLoop_ascending_id includedChildProcs set_includedChildProcs);
      try done.
    rewrite E7. eapply ascending_sublist; [apply sublist_filter|].
    apply sortedProcs_ascending; [done|].
    by apply finish_includeAll_gops.
  - apply list_filter_iff. intros p. subst P. simpl.
    by rewrite (includedAt_field _ _ _ Einc), (parentAt_field _ _ _ Epar).
Qed.

End structure.

(** ** Sessions the program can be in *)

(** What an update that got an enumeration can return: either the configured
    roots could not be resolved, or the update ran to its end.  The handlers
    of the update never fail, so no walk error is ever returned. *)
Lemma updateWith_cases fuel pt pruneTombstones gs pt' e :
  updateWith fuel pt pruneTombstones gs = Some (pt', e) →
  (∃ pid,
      resolveConfigured pt (refreshedMap pt pruneTombstones gs) = inr pid ∧
      e = Some (ConfiguredRootMissing pid) ∧
      pt' = mk_ProcTree (cfg pt) (refreshedHeap pt pruneTombstones gs)
              (refreshedMap pt pruneTombstones gs) (absProcs pt)
              (absRootProcs pt) None (includedProcs pt) (includedRootProcs pt))
  ∨ (∃ cfgRoots hp5 hp6,
      resolveConfigured pt (refreshedMap pt pruneTombstones gs) = inl cfgRoots ∧
      markIncluded fuel (cfg pt) (default [] cfgRoots)
        (sortedProcs pt pruneTombstones gs) (absoluteHeap pt pruneTombstones gs)
        = Some (hp5, None) ∧
      excludeKernelThreads fuel (cfg pt) (refreshedMap pt pruneTombstones gs) hp5
        = Some (hp6, None) ∧
      keepsShape (absoluteHeap pt pruneTombstones gs) hp6 ∧
      e = None ∧
      pt' = finishUpdate pt pruneTombstones gs cfgRoots hp6).
Proof.
  intros H.
  destruct (resolveConfigured pt (refreshedMap pt pruneTombstones gs))
    as [cfgRoots|pid] eqn:Hres.
  - right. destruct e as [e|].
    + exfalso. revert H.
      unfold updateWith, refreshedMap in *.
      destruct (refreshNodes pt pruneTombstones gs) as [hp2 m]. simpl in Hres.
      rewrite Hres. destruct (linkAll m hp2) as [[hp3 procs] roots].
      destruct (markIncluded _ _ _ _ _) as [[hp5 e5]|] eqn:E1; [|done].
      destruct (markIncluded_shape _ _ _ _ _ _ _ E1) as [-> _].
      destruct (excludeKernelThreads _ _ _ _) as [[hp6 e6]|] eqn:E2; [|done].
      destruct (excludeKernelThreads_shape _ _ _ _ _ _ E2) as [-> _].
      by destruct (includeAll hp6 _) as [[hp7 incl] iroots].
    + destruct (updateWith_inv _ _ _ _ _ H) as (r & hp5 & hp6 & Hr & E1 & E2 & ->).
      assert (r = cfgRoots) as -> by congruence.
      exists cfgRoots, hp5, hp6. repeat split; try done.
      eapply keepsShape_trans.
      * by destruct (markIncluded_shape _ _ _ _ _ _ _ E1).
      * by destruct (excludeKernelThreads_shape _ _ _ _ _ _ E2).
  - left. exists pid. rewrite (updateWith_missing _ _ _ fuel pid Hres) in H.
    by injection H as <- <-.
Qed.

(** Whatever the outcome, the pid map and the raw data of the objects are
    those the reconciliation left. *)
Lemma updateWith_nodes fuel pt pruneTombstones gs pt' e :
  keyed (heap pt) (pidMap pt) →
  updateWith fuel pt pruneTombstones gs = Some (pt', e) →
  cfg pt' = cfg pt ∧
  pidMap pt' = refreshedMap pt pruneTombstones gs ∧
  field gopsProcess (heap pt')
    = field gopsProcess (refreshedHeap pt pruneTombstones gs) ∧
  field isTombstone (heap pt')
    = field isTombstone (refreshedHeap pt pruneTombstones gs).
Proof.
  intros Hk H. apply updateWith_cases in H
    as [(pid & _ & _ & ->)|(r & hp5 & hp6 & _ & _ & _ & Hs & _ & ->)].
  - done.
  - repeat split; try done.
    + by apply finish_gops.
    + by apply finish_isTombstone.
Qed.

Lemma updateWith_keyed fuel pt pruneTombstones gs pt' e :
  keyed (heap pt) (pidMap pt) →
  updateWith fuel pt pruneTombstones gs = Some (pt', e) →
  keyed (heap pt') (pidMap pt').
Proof.
  intros Hk H. destruct (updateWith_nodes _ _ _ _ _ _ Hk H) as (_ & -> & Eg & _).
  apply (keyed_field _ _ _ Eg). by apply refreshed_keyed.
Qed.

(** With kernel threads excluded, no object of the pid map carries pid 2 or
    parent pid 2. *)
Definition kernelFree (pt : ProcTree) : Prop :=
  includeKernelThreads (cfg pt) = false →
  ∀ pid (p : ptr) n, pidMap pt !! pid = Some p → heap pt !! p = Some n →
    Pid (gopsProcess n) ≠ 2 ∧ PPid (gopsProcess n) ≠ 2.

Lemma keepRecord_excluding c g :
  includeKernelThreads c = false → keepRecord c g = true → Pid g ≠ 2 ∧ PPid g ≠ 2.
Proof.
  unfold keepRecord. intros -> H. simpl in H.
  apply andb_prop in H as [H1 H2].
  by apply bool_decide_eq_true in H1, H2.
Qed.

Lemma updateWith_kernelFree fuel pt pruneTombstones gs pt' e :
  keyed (heap pt) (pidMap pt) → kernelFree pt →
  updateWith fuel pt pruneTombstones gs = Some (pt', e) →
  kernelFree pt'.
Proof.
  intros Hk Hf H. destruct (updateWith_nodes _ _ _ _ _ _ Hk H) as (Ec & Em & Eg & _).
  intros Hc pid p n' Hp Hn'. rewrite Ec in Hc. rewrite Em in Hp.
  pose proof (field_eq_lookup gopsProcess _ _ p Eg) as El. rewrite Hn' in El.
  simpl in El.
  destruct (refreshNodes_entry pt pruneTombstones gs Hk pid p Hp)
    as [(g & Hl & [(_ & n & _ & E)|(_ & _ & E)])|(_ & _ & Hold & n & Hn & E)];
    unfold refreshedHeap in El; rewrite E in El; simpl in El;
    injection El as El; rewrite El.
  - apply lastKept_Some in Hl as (_ & Hkeep & _).
    by apply (keepRecord_excluding (cfg pt)).
  - apply lastKept_Some in Hl as (_ & Hkeep & _).
    by apply (keepRecord_excluding (cfg pt)).
  - by apply (Hf Hc pid p n).
Qed.

(** The sessions reachable from [New]: the empty session it allocates, and
    whatever an update returns from a reachable session (also when the update
    returns an error: the caller keeps the session). *)
Inductive reachable : ProcTree → Prop :=
| reachable_empty c : reachable (emptySession c)
| reachable_update fuel pt pruneTombstones r pt' e :
    reachable pt →
    answer r (Update fuel pt pruneTombstones) = Some (pt', e) →
    reachable pt'.

Lemma answer_Update_inl fuel pt pruneTombstones gs :
  answer (inl gs) (Update fuel pt pruneTombstones)
  = updateWith fuel pt pruneTombstones gs.
Proof. done. Qed.

Lemma answer_Update_inr fuel pt pruneTombstones msg :
  answer (inr msg) (Update fuel pt pruneTombstones)
  = Some (pt, Some (ProviderError msg)).
Proof. done. Qed.

Lemma reachable_inv pt : reachable pt → keyed (heap pt) (pidMap pt) ∧ kernelFree pt.
Proof.
  induction 1 as [c|fuel pt prune r pt' e _ [IHk IHf] H].
  - split; [by intros pid p|by intros _ pid p n].
  - destruct r as [gs|msg].
    + rewrite answer_Update_inl in H. split.
      * by eapply updateWith_keyed.
      * by eapply updateWith_kernelFree.
    + rewrite answer_Update_inr in H. by injection H as <- <-.
Qed.

Lemma reachable_keyed pt : reachable pt → keyed (heap pt) (pidMap pt).
Proof. intros H. by apply reachable_inv. Qed.

(** ** Updates without configured roots *)

Lemma NoDup_Pid_eq (gs : list gops_Process) g g' :
  NoDup (Pid <$> gs) → g ∈ gs → g' ∈ gs → Pid g = Pid g' → g = g'.
Proof.
  intros Hnd Hin Hin' Hp.
  apply list_elem_of_lookup in Hin as [i Hi].
  apply list_elem_of_lookup in Hin' as [j Hj].
  assert (i = j) as ->; [|congruence].
  eapply NoDup_lookup; [exact Hnd| |];
    rewrite list_lookup_fmap; [by rewrite Hi|by rewrite Hj; simpl; f_equal].
Qed.

Lemma markIncluded_unrooted fuel c cfgRoots procs hp :
  fixedRootsOf c = false →
  markIncluded fuel c cfgRoots procs hp
  = Some (foldl (λ hp proc, alter (set_isIncluded true) proc hp) hp procs, None).
Proof. unfold markIncluded. by intros ->. Qed.

Lemma includedAt_all (procs : list ptr) hp (p : ptr) :
  p ∈ procs → is_Some (hp !! p) →
  includedAt (foldl (λ hp proc, alter (set_isIncluded true) proc hp) hp procs) p
  = true.
Proof.
  intros Hin [n Hn]. unfold includedAt.
  rewrite (foldl_alter_lookup (set_isIncluded true) id) by done.
  rewrite list_fmap_id, decide_True by done. by rewrite Hn.
Qed.

Lemma excludeKernelThreads_absent fuel c (m : gmap Z ptr) hp :
  includeKernelThreads c = true ∨ m !! kthreadPid = None →
  excludeKernelThreads fuel c m hp = Some (hp, None).
Proof.
  unfold excludeKernelThreads. intros [->| ->]; [done|].
  by destruct (includeKernelThreads c).
Qed.

Lemma resolveConfigured_unrooted pt m :
  fixedRootsOf (cfg pt) = false → resolveConfigured pt m = inl (cfgRootProcs pt).
Proof. unfold resolveConfigured. by intros ->. Qed.

(** The policy never keeps a record of pid 2 when kernel threads are
    excluded, so pid 2 gets no object in a session that has none. *)
Lemma lastKept_kthread c gs :
  includeKernelThreads c = false → lastKept c gs kthreadPid = None.
Proof.
  intros Hc. apply lastKept_None. intros g _ Hk Hp.
  by destruct (keepRecord_excluding c g Hc Hk).
Qed.

Lemma keepRecord_plain c g : Pid g ≠ 2 → PPid g ≠ 2 → keepRecord c g = true.
Proof.
  intros H1 H2. unfold keepRecord.
  rewrite !bool_decide_eq_true_2 by done. by destruct (includeKernelThreads c).
Qed.

(** ** The objects known before an update *)

Section known.
Context (pt : ProcTree) (pruneTombstones : bool) (gs : list gops_Process).
Hypothesis Hkeyed : keyed (heap pt) (pidMap pt).

(** What marking and reconciliation leave of an object the session knew:
    the object entombed, and then refreshed when a kept record names its
    pid. *)
Lemma refreshed_known pid (p : ptr) :
  pidMap pt !! pid = Some p →
  ∃ n, heap pt !! p = Some n ∧
       refreshedHeap pt pruneTombstones gs !! p
       = Some (match lastKept (cfg pt) gs pid with
               | Some g => refresh g (entomb n)
               | None => entomb n
               end).
Proof.
  intros Hp. destruct (lastKept (cfg pt) gs pid) as [g|] eqn:Hl.
  - by destruct (refreshNodes_rediscovered pt pruneTombstones gs Hkeyed pid p g
                   Hp Hl) as [_ H].
  - by destruct (refreshNodes_vanished pt pruneTombstones gs Hkeyed pid p Hp Hl)
      as [_ H].
Qed.

Lemma refreshed_known_childless pid (p : ptr) :
  pidMap pt !! pid = Some p →
  is_Some (refreshedHeap pt pruneTombstones gs !! p) ∧
  absChildrenAt (refreshedHeap pt pruneTombstones gs) p = [] ∧
  includedChildrenAt (refreshedHeap pt pruneTombstones gs) p = [].
Proof.
  intros Hp. destruct (refreshed_known pid p Hp) as (n & _ & E).
  unfold absChildrenAt, includedChildrenAt. rewrite E.
  split; [by eexists|]. by destruct (lastKept (cfg pt) gs pid).
Qed.

Context (cfgRoots : option (list ptr)) (hp6 : Heap).
Hypothesis Hshape : keepsShape (absoluteHeap pt pruneTombstones gs) hp6.

Let hp2 := refreshedHeap pt pruneTombstones gs.
Let m := refreshedMap pt pruneTombstones gs.
Let hp3 := linkedHeap pt pruneTombstones gs.
Let hp4 := absoluteHeap pt pruneTombstones gs.
Let procs := sortedProcs pt pruneTombstones gs.
Let pt' := finishUpdate pt pruneTombstones gs cfgRoots hp6.

(** The absolute children a known object ends the update with are linked
    to it by this update. *)
Lemma known_absChildren pid (q ch : ptr) :
  pidMap pt !! pid = Some q →
  ch ∈ absChildrenAt (heap pt') q ↔
  (∃ pid', pidMap pt' !! pid' = Some ch) ∧
  resolveParent (pidMap pt') (heap pt') ch = Some q.
Proof.
  intros Hq. destruct (refreshed_known_childless pid q Hq) as (Hv & Ha & _).
  assert (field absChildProcs (heap pt') = field absChildProcs hp4) as Ec
    by (by apply finish_absChildProcs).
  rewrite (absChildrenAt_field _ _ _ Ec).
  destruct (linkAll_linked m hp2) as [_ _ C _].
  specialize (C q Hv). fold hp2 in Ha. rewrite Ha in C. simpl in C.
  change (linkAll m hp2).1.1 with hp3 in C.
  assert (absChildrenAt hp4 q ≡ₚ absChildrenAt hp3 q) as Hperm.
  { subst hp4. unfold absoluteHeap. rewrite sortAbsChildren_sortLoop.
    by apply (sortLoop_Permutation absChildProcs set_absChildProcs). }
  rewrite Hperm, C, list_elem_of_filter, elem_of_map_values.
  rewrite (finish_resolveParent pt pruneTombstones gs cfgRoots hp6 Hshape).
  tauto.
Qed.

(** The included children a known object ends the update with are listed
    objects whose parent link points to it. *)
Lemma known_includedChildren pid (q ch : ptr) :
  pidMap pt !! pid = Some q →
  ch ∈ includedChildrenAt (heap pt') q ↔
  ch ∈ Processes pt' ∧ parentAt (heap pt') ch = Some q.
Proof.
  intros Hq. destruct (refreshed_known_childless pid q Hq) as (Hv & _ & Hi).
  assert (field parentProc (heap pt') = field parentProc hp6) as Epar
    by (by apply finish_field_hp6).
  assert (field isIncluded (heap pt') = field isIncluded hp6) as Einc
    by (by apply finish_isIncluded).
  set (P := λ p : ptr, includedAt hp6 p = true ∧ parentAt hp6 p = Some q).
  assert (includedChildrenAt (includeAll hp6 procs).1.1 q = filter P procs) as E7.
  { rewrite (in_children _ _ _ (includeAll_includedSoFar hp6 procs)).
    - assert (includedChildrenAt hp6 q = includedChildrenAt hp2 q) as ->.
      { apply includedChildrenAt_field.
        rewrite (Hshape _ includedChildProcs) by done.
        subst hp2. by rewrite absoluteHeap_field, linkedHeap_field. }
      subst hp2. by rewrite Hi.
    - rewrite (field_eq_is_Some gopsProcess hp2 hp6); [done|].
      by apply hp6_gops. }
  assert (includedChildrenAt (heap pt') q ≡ₚ filter P procs) as ->.
  { rewrite <- E7. unfold pt' at 1. unfold finishUpdate. simpl.
    change (sortedProcs pt pruneTombstones gs) with procs.
    rewrite sortIncludedChildren_sortLoop.
    by apply (sortLoop_Permutation includedChildProcs set_includedChildProcs). }
  rewrite list_elem_of_filter. unfold P.
  rewrite <- (includedAt_field _ _ _ Einc), <- (parentAt_field _ _ _ Epar).
  assert (Processes pt'
          = filter (λ p, includedAt (heap pt') p = true) (absProcs pt')) as ->
    by (by apply finish_Processes).
  rewrite list_elem_of_filter. change (absProcs pt') with procs. tauto.
Qed.

End known.

(** * The claims *)

(** ** Concrete sessions used as instances *)

(** The session [New] leaves for an enumeration, or the empty session when
    [New] fails. *)
Definition sessionOf (fuel : nat) (opts : list ConfigOption)
    (gs : list gops_Process) : ProcTree :=
  match answer (inl gs) (New fuel opts) with
  | Some (inl pt) => pt
  | _ => emptySession (NewConfig opts)
  end.

(** The session after one more update. *)
Definition sessionAfter (fuel : nat) (pt : ProcTree) (pruneTombstones : bool)
    (gs : list gops_Process) : ProcTree :=
  match answer (inl gs) (Update fuel pt pruneTombstones) with
  | Some (pt', _) => pt'
  | None => pt
  end.

Lemma answer_New fuel opts r :
  answer r (New fuel opts)
  = match answer r (Update fuel (emptySession (NewConfig opts)) false) with
    | None => None
    | Some (_, Some err) => Some (inr err)
    | Some (pt, None) => Some (inl pt)
    end.
Proof. by destruct r. Qed.

Lemma New_Update fuel opts r pt :
  answer r (New fuel opts) = Some (inl pt) ↔
  answer r (Update fuel (emptySession (NewConfig opts)) false) = Some (pt, None).
Proof.
  rewrite answer_New.
  destruct (answer r (Update _ _ _)) as [[pt' [e|]]|]; split; congruence.
Qed.

Lemma reachable_New fuel opts r pt :
  answer r (New fuel opts) = Some (inl pt) → reachable pt.
Proof.
  intros H%New_Update. eapply reachable_update; [apply reachable_empty|exact H].
Qed.

Lemma sessionOf_reachable fuel opts gs : reachable (sessionOf fuel opts gs).
Proof.
  unfold sessionOf.
  destruct (answer (inl gs) (New fuel opts)) as [[pt|e]|] eqn:E;
    [by eapply reachable_New|apply reachable_empty..].
Qed.

Lemma sessionAfter_reachable fuel pt pruneTombstones gs :
  reachable pt → reachable (sessionAfter fuel pt pruneTombstones gs).
Proof.
  intros H. unfold sessionAfter.
  destruct (answer _ _) as [[pt' e]|] eqn:E; [|done].
  by eapply reachable_update.
Qed.

(** The enumeration of the specification's round-trip scenario. *)
Definition initAB : list gops_Process :=
  [mk_gops 1 0 "init"; mk_gops 100 1 "a"; mk_gops 200 100 "b"].

(** ** C1: a failing enumeration changes nothing *)

(** C1.  If the provider call inside the update fails, the update returns the
    provider's error and the session it leaves is the session it was given:
    pid map, store (all fields of all objects) and derived lists are
    untouched.  Construction, which runs the initial update, returns the same
    error and no session.  This holds for every session, every
    [pruneTombstones] and every bound on the walks. *)
Theorem C1_enumeration_failure_keeps_state
    (fuel : nat) (pt : ProcTree) (pruneTombstones : bool)
    (opts : list ConfigOption) (msg : string) :
  answer (inr msg) (Update fuel pt pruneTombstones)
    = Some (pt, Some (ProviderError msg)) ∧
  answer (inr msg) (New fuel opts) = Some (inr (ProviderError msg)).
Proof. split; reflexivity. Qed.

(** ** C8: the order of marking and enumerating *)

(** Every object of the pid map is a tombstone without children. *)
Definition allMarked (pt : ProcTree) : Prop :=
  ∀ pid (p : ptr), pidMap pt !! pid = Some p →
    tombstoneAt (heap pt) p = true ∧
    absChildrenAt (heap pt) p = [] ∧
    includedChildrenAt (heap pt) p = [].

(** The claim as stated: when the update calls the provider, the marking pass
    has already run. *)
Definition marksBeforeEnumerating (fuel : nat) (pt : ProcTree)
    (pruneTombstones : bool) : Prop :=
  ∀ at_call,
    session_at_call (lockedUpdate fuel pt pruneTombstones) = Some at_call →
    allMarked at_call.

(** At the second update of the round-trip session the provider is called
    while pid 1 is still live and still has its child. *)
Lemma C8_counterexample :
  ¬ marksBeforeEnumerating 5 (sessionOf 5 [] initAB) false.
Proof.
  intros H. specialize (H _ eq_refl 1 0%nat).
  assert (pidMap (sessionOf 5 [] initAB) !! 1 = Some 0%nat) as Hp
    by (vm_compute; reflexivity).
  destruct (H Hp) as [Ht _]. vm_compute in Ht. discriminate.
Qed.

(** C8 (amended).  The update calls the provider first, on the session
    exactly as it was given; when the call fails nothing is marked.  Only
    after a successful call is every object of the pid map marked: in the
    store the marking loop leaves it is a tombstone and both its child lists
    are empty, its other fields being as before.  The reconciliation loop
    runs on that marked store, so after it an object found again is the
    marked object refreshed (live again, still without children) and an
    object not found again is the marked object.  In the session the update
    leaves, an object known before is a tombstone exactly when it was not
    found again; when the update stops at a missing configured root its
    store is the reconciled store; and when it succeeds the child lists of
    an object known before hold nothing from before the update, only the
    objects this update links below it. *)
Theorem C8_enumerates_then_marks
    (fuel : nat) (pt : ProcTree) (pruneTombstones : bool) :
  session_at_call (lockedUpdate fuel pt pruneTombstones) = Some pt ∧
  (∀ msg, answer (inr msg) (lockedUpdate fuel pt pruneTombstones)
          = Some (pt, Some (ProviderError msg))) ∧
  (∀ gs pt' e pid (p : ptr),
     reachable pt →
     answer (inl gs) (lockedUpdate fuel pt pruneTombstones) = Some (pt', e) →
     pidMap pt !! pid = Some p →
     ∃ n,
       heap pt !! p = Some n ∧
       markAll (pidMap pt) (heap pt) !! p = Some (entomb n) ∧
       tombstoneAt (markAll (pidMap pt) (heap pt)) p = true ∧
       absChildrenAt (markAll (pidMap pt) (heap pt)) p = [] ∧
       includedChildrenAt (markAll (pidMap pt) (heap pt)) p = [] ∧
       refreshedHeap pt pruneTombstones gs
       = (reconcile (cfg pt) gs (markAll (pidMap pt) (heap pt), pidMap pt)).1 ∧
       refreshedHeap pt pruneTombstones gs !! p
       = Some (match lastKept (cfg pt) gs pid with
               | Some g => refresh g (entomb n)
               | None => entomb n
               end) ∧
       (tombstoneAt (heap pt') p = true ↔ lastKept (cfg pt) gs pid = None) ∧
       (∀ pid0, e = Some (ConfiguredRootMissing pid0) →
          heap pt' = refreshedHeap pt pruneTombstones gs) ∧
       (e = None →
        ∀ ch : ptr,
          (ch ∈ absChildrenAt (heap pt') p ↔
           (∃ pid', PidProcess pt' pid' = Some ch) ∧
           resolveParent (pidMap pt') (heap pt') ch = Some p) ∧
          (ch ∈ includedChildrenAt (heap pt') p ↔
           ch ∈ Processes pt' ∧ parentAt (heap pt') ch = Some p))).
Proof.
  split; [done|]. split; [done|].
  intros gs pt' e pid p Hr H Hp.
  apply reachable_keyed in Hr.
  change (updateWith fuel pt pruneTombstones gs = Some (pt', e)) in H.
  destruct (refreshed_known pt pruneTombstones gs Hr pid p Hp) as (n & Hn & E).
  assert (markAll (pidMap pt) (heap pt) !! p = Some (entomb n)) as Em
    by (by rewrite (markAll_known _ _ _ _ Hp), Hn).
  exists n. split; [exact Hn|]. split; [exact Em|].
  split; [by unfold tombstoneAt; rewrite Em|].
  split; [by unfold absChildrenAt; rewrite Em|].
  split; [by unfold includedChildrenAt; rewrite Em|].
  split; [done|]. split; [exact E|]. split; [|split].
  - destruct (updateWith_nodes _ _ _ _ _ _ Hr H) as (_ & _ & _ & Et).
    rewrite (tombstoneAt_field _ _ _ Et). unfold tombstoneAt. rewrite E.
    by destruct (lastKept (cfg pt) gs pid).
  - intros pid0 ->.
    by apply updateWith_cases in H
      as [(? & _ & _ & ->)|(? & ? & ? & _ & _ & _ & _ & ? & _)].
  - intros ->.
    apply updateWith_cases in H
      as [(? & _ & ? & _)|(r0 & hp5 & hp6 & _ & _ & _ & Hs & _ & ->)]; [done|].
    intros ch. split.
    + by apply (known_absChildren pt pruneTombstones gs Hr r0 hp6 Hs pid).
    + by apply (known_includedChildren pt pruneTombstones gs Hr r0 hp6 Hs pid).
Qed.

Lemma C8_enumerates_then_marks_witness :
  tombstoneAt
    (heap (sessionAfter 5 (sessionOf 5 [] initAB) false [mk_gops 1 0 "init"]))
    1%nat = true.
Proof.
  assert (answer (inl [mk_gops 1 0 "init"])
            (lockedUpdate 5 (sessionOf 5 [] initAB) false)
          = Some (sessionAfter 5 (sessionOf 5 [] initAB) false
                    [mk_gops 1 0 "init"], None)) as H1
    by (vm_compute; reflexivity).
  assert (pidMap (sessionOf 5 [] initAB) !! 100 = Some 1%nat) as H2
    by (vm_compute; reflexivity).
  assert (lastKept (cfg (sessionOf 5 [] initAB)) [mk_gops 1 0 "init"] 100 = None)
    as H3 by (vm_compute; reflexivity).
  destruct (C8_enumerates_then_marks 5 (sessionOf 5 [] initAB) false)
    as (_ & _ & H).
  destruct (H [mk_gops 1 0 "init"] _ None 100 1%nat
              (sessionOf_reachable 5 [] initAB) H1 H2)
    as (n & _ & _ & _ & _ & _ & _ & _ & [_ Hts] & _).
  exact (Hts H3).
Defined.

(** ** C4: a configured root that is missing *)

Lemma resolveRoots_missing m pids acc pid :
  pid ∈ pids → m !! pid = None →
  ∃ pid', resolveRoots m pids acc = inr pid' ∧ pid' ∈ pids ∧ m !! pid' = None.
Proof.
  revert acc. induction pids as [|x pids IH]; intros acc Hin Hm.
  - by apply elem_of_nil in Hin.
  - simpl. destruct (m !! x) as [proc|] eqn:Hx.
    + apply elem_of_cons in Hin as [->|Hin]; [congruence|].
      destruct (IH (acc ++ [proc]) Hin Hm) as (pid' & E & Hin' & Hm').
      exists pid'. split; [done|]. split; [by apply list_elem_of_further|done].
    + exists x. split; [done|]. split; [apply list_elem_of_here|done].
Qed.

Lemma resolveConfigured_retry pt m :
  fixedRootsOf (cfg pt) = true → cfgRootProcs pt = None →
  resolveConfigured pt m
  = match resolveRoots m (rootPids (cfg pt)) [] with
    | inl procs => inl (Some procs)
    | inr pid => inr pid
    end.
Proof. unfold resolveConfigured. by intros -> ->. Qed.

Lemma emptySession_keyed c : keyed (heap (emptySession c)) (pidMap (emptySession c)).
Proof. by intros pid p. Qed.

(** A pid that is not enumerated has no object after the first update. *)
Lemma refreshedMap_empty_absent c gs pid :
  pid ∉ Pid <$> gs → refreshedMap (emptySession c) false gs !! pid = None.
Proof.
  intros Hn. apply refreshNodes_never; [apply emptySession_keyed|done|].
  apply lastKept_None. intros g Hg _ <-. apply Hn.
  apply list_elem_of_fmap. by exists g.
Qed.

(** C4.  When root pids are configured, the configured-root list is still
    unresolved and some configured pid has no object in the pid map at
    resolution time (after reconciliation and pruning), the update returns
    the configuration error for a missing configured pid and leaves the
    configured-root list unresolved, so that the next update attempts the
    resolution again, against the pid map it then has.  When this is the
    initial update of [New], [New] returns that error and no session. *)
Theorem C4_missing_configured_root
    (fuel : nat) (pt : ProcTree) (pruneTombstones : bool)
    (gs : list gops_Process) (pid : Z) :
  fixedRootsOf (cfg pt) = true →
  cfgRootProcs pt = None →
  pid ∈ rootPids (cfg pt) →
  refreshedMap pt pruneTombstones gs !! pid = None →
  ∃ pid' pt',
    answer (inl gs) (Update fuel pt pruneTombstones)
      = Some (pt', Some (ConfiguredRootMissing pid')) ∧
    pid' ∈ rootPids (cfg pt) ∧
    pidMap pt' !! pid' = None ∧
    cfgRootProcs pt' = None ∧
    (∀ m, resolveConfigured pt' m
          = match resolveRoots m (rootPids (cfg pt)) [] with
            | inl procs => inl (Some procs)
            | inr missing => inr missing
            end) ∧
    (∀ opts, pt = emptySession (NewConfig opts) → pruneTombstones = false →
       answer (inl gs) (New fuel opts) = Some (inr (ConfiguredRootMissing pid'))).
Proof.
  intros Hfixed Hnil Hin Hm.
  destruct (resolveRoots_missing _ _ [] _ Hin Hm) as (pid' & E & Hin' & Hm').
  assert (resolveConfigured pt (refreshedMap pt pruneTombstones gs) = inr pid')
    as Hres by (by rewrite resolveConfigured_retry, E).
  eexists pid', _. split; [by apply updateWith_missing|].
  repeat split; try done.
  - intros m. by rewrite resolveConfigured_retry.
  - intros opts -> ->. rewrite answer_New.
    change (answer (inl gs) (Update fuel ?s false)) with (updateWith fuel s false gs).
    by rewrite (updateWith_missing _ _ _ fuel pid' Hres).
Qed.

Lemma C4_missing_configured_root_witness :
  ∃ pid', answer (inl initAB) (New 5 [WithRootPid 9999])
          = Some (inr (ConfiguredRootMissing pid')).
Proof.
  destruct (C4_missing_configured_root 5 (emptySession (NewConfig [WithRootPid 9999]))
              false initAB 9999)
    as (pid' & pt' & _ & _ & _ & _ & _ & H).
  - reflexivity.
  - reflexivity.
  - vm_compute. apply list_elem_of_here.
  - vm_compute. reflexivity.
  - exists pid'. by apply H.
Defined.

(** ** C5: identity of rediscovered objects *)

(** C5.  Take two consecutive updates of a reachable session, both given an
    enumeration, and a pid for which both enumerations hold a record that
    the kernel-thread policy keeps.  Then the lookup by pid answers the same
    pointer after the first and after the second update; the second update
    did not allocate: it stored the deciding record of the second
    enumeration in that object and cleared its tombstone flag. *)
Theorem C5_identity_preserved
    (fuel1 fuel2 : nat) (pt0 pt1 pt2 : ProcTree) (prune1 prune2 : bool)
    (gs1 gs2 : list gops_Process) (e1 e2 : option error)
    (pid : Z) (g1 g2 : gops_Process) :
  reachable pt0 →
  answer (inl gs1) (Update fuel1 pt0 prune1) = Some (pt1, e1) →
  answer (inl gs2) (Update fuel2 pt1 prune2) = Some (pt2, e2) →
  g1 ∈ gs1 → Pid g1 = pid → keepRecord (cfg pt0) g1 = true →
  g2 ∈ gs2 → Pid g2 = pid → keepRecord (cfg pt0) g2 = true →
  ∃ (p : ptr) n,
    PidProcess pt1 pid = Some p ∧
    PidProcess pt2 pid = Some p ∧
    (p < length (heap pt1))%nat ∧
    heap pt2 !! p = Some n ∧
    lastKept (cfg pt0) gs2 pid = Some (gopsProcess n) ∧
    isTombstone n = false.
Proof.
  intros Hr H1 H2 Hg1 Hp1 Hk1 Hg2 Hp2 Hk2.
  rewrite answer_Update_inl in H1, H2.
  pose proof (reachable_keyed _ Hr) as K0.
  pose proof (updateWith_keyed _ _ _ _ _ _ K0 H1) as K1.
  destruct (updateWith_nodes _ _ _ _ _ _ K0 H1) as (Ec1 & Em1 & _ & _).
  destruct (updateWith_nodes _ _ _ _ _ _ K1 H2) as (Ec2 & Em2 & Eg2 & Et2).
  destruct (lastKept_is_Some (cfg pt0) gs1 g1 Hg1 Hk1) as [l1 Hl1].
  destruct (lastKept_is_Some (cfg pt0) gs2 g2 Hg2 Hk2) as [l2 Hl2].
  rewrite Hp1 in Hl1. rewrite Hp2 in Hl2.
  assert (∃ p : ptr, pidMap pt1 !! pid = Some p) as [p Hp].
  { rewrite Em1. destruct (pidMap pt0 !! pid) as [p|] eqn:E0.
    - exists p. by destruct (refreshNodes_rediscovered pt0 prune1 gs1 K0 _ _ _ E0 Hl1).
    - destruct (refreshNodes_created pt0 prune1 gs1 K0 _ _ E0 Hl1) as (p & ? & _).
      by exists p. }
  rewrite <- Ec1 in Hl2.
  destruct (refreshNodes_rediscovered pt1 prune2 gs2 K1 _ _ _ Hp Hl2)
    as (Hm2 & n & Hn & E).
  pose proof (field_eq_lookup gopsProcess _ _ p Eg2) as Lg.
  pose proof (field_eq_lookup isTombstone _ _ p Et2) as Lt.
  unfold refreshedHeap in Lg, Lt. rewrite E in Lg, Lt.
  destruct (heap pt2 !! p) as [n2|] eqn:Hn2; [|done].
  simpl in Lg, Lt. injection Lg as Lg. injection Lt as Lt.
  exists p, n2. unfold PidProcess. rewrite Em2.
  repeat split; try done.
  - apply lookup_lt_is_Some. by exists n.
  - rewrite Lg. by rewrite Ec1 in Hl2.
Qed.

(** The second enumeration of this instance reports pid 100 under a new
    parent and a new name; it is stored in the object allocated first. *)
Lemma C5_identity_preserved_witness :
  ∃ (p : ptr) n,
    PidProcess (sessionOf 5 [] initAB) 100 = Some p ∧
    PidProcess (sessionAfter 5 (sessionOf 5 [] initAB) false
                  [mk_gops 100 0 "a2"; mk_gops 1 0 "init"]) 100 = Some p ∧
    heap (sessionAfter 5 (sessionOf 5 [] initAB) false
            [mk_gops 100 0 "a2"; mk_gops 1 0 "init"]) !! p = Some n ∧
    gopsProcess n = mk_gops 100 0 "a2" ∧
    isTombstone n = false.
Proof.
  destruct (C5_identity_preserved 5 5 (emptySession (NewConfig []))
              (sessionOf 5 [] initAB)
              (sessionAfter 5 (sessionOf 5 [] initAB) false
                 [mk_gops 100 0 "a2"; mk_gops 1 0 "init"])
              false false initAB [mk_gops 100 0 "a2"; mk_gops 1 0 "init"]
              None None 100 (mk_gops 100 1 "a") (mk_gops 100 0 "a2"))
    as (p & n & H1 & H2 & _ & Hn & Hl & Ht).
  - apply reachable_empty.
  - vm_compute. reflexivity.
  - vm_compute. reflexivity.
  - vm_compute. apply list_elem_of_further, list_elem_of_here.
  - reflexivity.
  - reflexivity.
  - vm_compute. apply list_elem_of_here.
  - reflexivity.
  - reflexivity.
  - exists p, n. split; [exact H1|]. split; [exact H2|]. split; [exact Hn|].
    split; [|exact Ht].
    assert (lastKept (cfg (emptySession (NewConfig [])))
              [mk_gops 100 0 "a2"; mk_gops 1 0 "init"] 100
            = Some (mk_gops 100 0 "a2")) as E by (vm_compute; reflexivity).
    rewrite E in Hl. congruence.
Defined.

(** ** C9: every list is strictly ascending by pid *)



(** ** C6: the life of a tombstone *)

Lemma lastKept_absent c gs pid : pid ∉ Pid <$> gs → lastKept c gs pid = None.
Proof.
  intros Hn. apply lastKept_None. intros g Hg _ <-. apply Hn.
  apply list_elem_of_fmap. by exists g.
Qed.

(** An object without parent link and without children. *)
Definition structureCleared (hp : Heap) (p : ptr) : Prop :=
  parentAt hp p = None ∧ absChildrenAt hp p = [] ∧ includedChildrenAt hp p = [].

(** The claim as stated, for a session [ptA], the enumeration [gsB] of the
    next update and a pid. *)
Definition tombstoneLifecycleAsStated (fuel : nat) (ptA : ProcTree)
    (gsB : list gops_Process) (pid : Z) : Prop :=
  ∀ ptB,
    is_Some (PidProcess ptA pid) → pid ∉ Pid <$> gsB →
    answer (inl gsB) (Update fuel ptA false) = Some (ptB, None) →
    (∃ p : ptr, PidProcess ptB pid = Some p ∧
                tombstoneAt (heap ptB) p = true ∧
                structureCleared (heap ptB) p) ∧
    (∀ gsC ptC, pid ∉ Pid <$> gsC →
       answer (inl gsC) (Update fuel ptB true) = Some (ptC, None) →
       PidProcess ptC pid = None).

(** In the round-trip session let pids 100 and 200 vanish.  The tombstone of
    pid 100 is still linked below pid 1 and still has pid 200 as its child. *)
Lemma C6_counterexample :
  ¬ tombstoneLifecycleAsStated 5 (sessionOf 5 [] initAB) [mk_gops 1 0 "init"] 100.
Proof.
  intros H.
  destruct (H (sessionAfter 5 (sessionOf 5 [] initAB) false [mk_gops 1 0 "init"]))
    as [(p & Hp & _ & Hpar & _) _].
  - by exists 1%nat.
  - vm_compute. intros Hin. inversion Hin as [|? ? ? Hin']; inversion Hin'.
  - vm_compute. reflexivity.
  - vm_compute in Hp. injection Hp as <-. vm_compute in Hpar. discriminate.
Qed.

(** C6 (amended).  If a pid has an object in a reachable session and is
    absent from the enumeration of the next update, run without pruning,
    then after that update the lookup by pid still answers the same object;
    the object is a tombstone and holds the raw data it held before.  Its
    structure is not cleared but rederived like that of every other object
    of the pid map: its parent link points to the object of its last-known
    parent pid when the map has one (and is left as it was otherwise), its
    absolute children are the objects of the map whose parent pid resolves
    to it, and [Children()] lists those of the objects of the map that are
    included and linked below it.  Any later update that prunes tombstones
    while the pid is still absent removes the pid from the map. *)
Theorem C6_tombstone_kept_until_pruned
    (fuel : nat) (pt ptB : ProcTree) (gsB : list gops_Process)
    (pid : Z) (p : ptr) :
  reachable pt →
  PidProcess pt pid = Some p →
  pid ∉ Pid <$> gsB →
  answer (inl gsB) (Update fuel pt false) = Some (ptB, None) →
  PidProcess ptB pid = Some p ∧
  (∃ n nB, heap pt !! p = Some n ∧ heap ptB !! p = Some nB ∧
           isTombstone nB = true ∧ gopsProcess nB = gopsProcess n) ∧
  parentAt (heap ptB) p
    = match resolveParent (pidMap ptB) (heap ptB) p with
      | Some pp => Some pp
      | None => parentAt (heap pt) p
      end ∧
  (∀ ch : ptr, ch ∈ absChildrenAt (heap ptB) p ↔
     (∃ pid', PidProcess ptB pid' = Some ch) ∧
     resolveParent (pidMap ptB) (heap ptB) ch = Some p) ∧
  (∀ ch : ptr, ch ∈ Children (heap ptB) p ↔
     (∃ pid', PidProcess ptB pid' = Some ch) ∧
     includedAt (heap ptB) ch = true ∧ parentAt (heap ptB) ch = Some p) ∧
  (∀ fuel' gsC ptC e, pid ∉ Pid <$> gsC →
     answer (inl gsC) (Update fuel' ptB true) = Some (ptC, e) →
     PidProcess ptC pid = None).
Proof.
  intros Hr Hp Habs H. unfold PidProcess in *.
  assert (reachable ptB) as HrB by (by eapply reachable_update).
  rewrite answer_Update_inl in H.
  pose proof (reachable_keyed _ Hr) as K.
  pose proof (lastKept_absent (cfg pt) gsB pid Habs) as Hl.
  destruct (refreshNodes_vanished pt false gsB K pid p Hp Hl) as (Hm & n & Hn & E).
  destruct (updateWith_nodes _ _ _ _ _ _ K H) as (Ec & Em & Eg & Et).
  assert (pidMap ptB !! pid = Some p) as HpB by (by rewrite Em).
  split; [done|].
  pose proof (field_eq_lookup gopsProcess _ _ p Eg) as Lg.
  pose proof (field_eq_lookup isTombstone _ _ p Et) as Lt.
  unfold refreshedHeap in Lg, Lt. rewrite E in Lg, Lt.
  destruct (heap ptB !! p) as [nB|] eqn:HnB; [|done].
  simpl in Lg, Lt. injection Lg as Lg. injection Lt as Lt.
  split; [by exists n, nB|].
  apply updateWith_cases in H
    as [(? & _ & ? & _)|(r & hp5 & hp6 & _ & _ & _ & Hs & _ & ->)]; [done|].
  split; [|split; [|split]].
  - rewrite (finish_parentAt pt false gsB r hp6 K Hs pid p Hm).
    destruct (resolveParent _ _ p); [done|].
    unfold parentAt, refreshedHeap. by rewrite E, Hn.
  - intros ch.
    by destruct (finish_absChildren pt false gsB r hp6 K Hs pid p Hm) as [_ ->].
  - intros ch. rewrite (finish_Children pt false gsB r hp6 K Hs pid p Hm).
    rewrite list_elem_of_filter, finish_absProcs_elem. tauto.
  - intros fuel' gsC ptC e HabsC HC. rewrite answer_Update_inl in HC.
    pose proof (reachable_keyed _ HrB) as KB.
    destruct (updateWith_nodes _ _ _ _ _ _ KB HC) as (_ & -> & _ & _).
    pose proof (lastKept_absent (cfg (finishUpdate pt false gsB r hp6))
                  gsC pid HabsC) as HlC.
    by destruct (refreshNodes_vanished _ true gsC KB pid p HpB HlC) as [E' _].
Qed.

Lemma C6_tombstone_kept_until_pruned_witness :
  PidProcess (sessionAfter 5 (sessionOf 5 [] initAB) false [mk_gops 1 0 "init"])
             100 = Some 1%nat ∧
  parentAt (heap (sessionAfter 5 (sessionOf 5 [] initAB) false
                    [mk_gops 1 0 "init"])) 1%nat = Some 0%nat ∧
  PidProcess (sessionAfter 5
                (sessionAfter 5 (sessionOf 5 [] initAB) false [mk_gops 1 0 "init"])
                true [mk_gops 1 0 "init"]) 100 = None.
Proof.
  destruct (C6_tombstone_kept_until_pruned 5 (sessionOf 5 [] initAB)
              (sessionAfter 5 (sessionOf 5 [] initAB) false [mk_gops 1 0 "init"])
              [mk_gops 1 0 "init"] 100 1%nat)
    as (H1 & _ & H2 & _ & _ & H3).
  - apply sessionOf_reachable.
  - vm_compute. reflexivity.
  - vm_compute. intros Hin. inversion Hin as [|? ? ? Hin']; inversion Hin'.
  - vm_compute. reflexivity.
  - split; [done|]. split.
    + rewrite H2. vm_compute. reflexivity.
    + apply (H3 5%nat [mk_gops 1 0 "init"] _ None).
      * vm_compute. intros Hin. inversion Hin as [|? ? ? Hin']; inversion Hin'.
      * vm_compute. reflexivity.
Defined.

(** ** C3: kernel threads and configured roots *)

(** Ancestry as the enumeration reports it: [d] descends from [a] when
    parent pids lead from [d] to [a]. *)
Definition parentPidIn (gs : list gops_Process) (child parent : Z) : Prop :=
  ∃ g, g ∈ gs ∧ Pid g = child ∧ PPid g = parent.

Inductive descendantIn (gs : list gops_Process) : Z → Z → Prop :=
| descendant_child d a : parentPidIn gs d a → descendantIn gs d a
| descendant_step d mid a :
    parentPidIn gs d mid → descendantIn gs mid a → descendantIn gs d a.

(** The claim as stated, for the update that constructs a session. *)
Definition kernelExclusionAsStated (fuel : nat) (c : Config)
    (gs : list gops_Process) : Prop :=
  includeKernelThreads c = false →
  (∃ r, r ∈ rootPids c ∧ descendantIn gs kthreadPid r) →
  ∀ pt, answer (inl gs) (New fuel [WithConfig c]) = Some (inl pt) →
  ∀ d (p : ptr), descendantIn gs d kthreadPid → p ∈ Processes pt →
    pidAt (heap pt) p ≠ d.

(** A helper process started by a kernel worker. *)
Definition initKernelHelper : list gops_Process :=
  [mk_gops 1 0 "init"; mk_gops 2 1 "kthreadd"; mk_gops 3 2 "kworker";
   mk_gops 4 3 "helper"].

(** With roots 1 and 4 configured, root 1 is an ancestor of pid 2 and pid 4
    descends from pid 2 through pid 3, yet pid 4 is listed. *)
Lemma C3_counterexample :
  ¬ kernelExclusionAsStated 5 (mk_Config false false [1; 4]) initKernelHelper.
Proof.
  intros H.
  assert (∀ g, g ∈ initKernelHelper → parentPidIn initKernelHelper (Pid g) (PPid g))
    as Hpar by (intros g Hg; by exists g).
  assert (mk_gops 2 1 "kthreadd" ∈ initKernelHelper) as H2
    by (apply list_elem_of_further, list_elem_of_here).
  assert (mk_gops 3 2 "kworker" ∈ initKernelHelper) as H3
    by (do 2 apply list_elem_of_further; apply list_elem_of_here).
  assert (mk_gops 4 3 "helper" ∈ initKernelHelper) as H4
    by (do 3 apply list_elem_of_further; apply list_elem_of_here).
  apply (H eq_refl) with
    (pt := sessionOf 5 [WithConfig (mk_Config false false [1; 4])] initKernelHelper)
    (d := 4) (p := 1%nat).
  - exists 1. split; [apply list_elem_of_here|].
    apply descendant_child. apply (Hpar _ H2).
  - vm_compute. reflexivity.
  - eapply descendant_step; [apply (Hpar _ H4)|].
    apply descendant_child. apply (Hpar _ H3).
  - vm_compute. apply list_elem_of_further, list_elem_of_here.
  - vm_compute. reflexivity.
Qed.

Lemma reachable_kernelFree_lookup pt pid (p : ptr) :
  reachable pt → includeKernelThreads (cfg pt) = false →
  pidMap pt !! pid = Some p →
  pid ≠ 2 ∧ pidAt (heap pt) p ≠ 2 ∧ ppidAt (heap pt) p ≠ 2.
Proof.
  intros Hr Hc Hp. destruct (reachable_inv _ Hr) as [K F].
  destruct (K _ _ Hp) as (n & Hn & Hpid).
  destruct (F Hc _ _ _ Hp Hn) as [H1 H2].
  unfold pidAt, ppidAt. rewrite Hn. simpl. split; [congruence|done].
Qed.

(** C3 (amended).  With kernel threads excluded, after every update of a
    reachable session that got an enumeration, whatever roots are
    configured: pid 2 has no object in the pid map and no object of the map
    has parent pid 2, so after a successful update no process with pid 2 or
    parent pid 2 is in [Processes()], even if the enumeration places it
    below a configured root.  Such records are dropped by the
    reconciliation, before the inclusion pass; the exclusion walk that
    follows the inclusion pass looks up pid 2, finds no object and leaves
    the store as it is. *)
Theorem C3_kernel_threads_never_listed
    (fuel : nat) (pt pt' : ProcTree) (pruneTombstones : bool)
    (gs : list gops_Process) (e : option error) :
  reachable pt →
  includeKernelThreads (cfg pt) = false →
  answer (inl gs) (Update fuel pt pruneTombstones) = Some (pt', e) →
  PidProcess pt' kthreadPid = None ∧
  (∀ pid (p : ptr), PidProcess pt' pid = Some p →
     pidAt (heap pt') p ≠ 2 ∧ ppidAt (heap pt') p ≠ 2) ∧
  (e = None → ∀ p : ptr, p ∈ Processes pt' →
     pidAt (heap pt') p ≠ 2 ∧ ppidAt (heap pt') p ≠ 2) ∧
  (∀ hp, excludeKernelThreads fuel (cfg pt') (pidMap pt') hp = Some (hp, None)).
Proof.
  intros Hr Hc H.
  assert (reachable pt') as Hr' by (by eapply reachable_update).
  rewrite answer_Update_inl in H.
  pose proof (reachable_keyed _ Hr) as K.
  destruct (updateWith_nodes _ _ _ _ _ _ K H) as (Ec & _ & _ & _).
  assert (includeKernelThreads (cfg pt') = false) as Hc' by (by rewrite Ec).
  assert (pidMap pt' !! kthreadPid = None) as Hno.
  { destruct (pidMap pt' !! kthreadPid) as [p|] eqn:E; [|done].
    by destruct (reachable_kernelFree_lookup _ _ _ Hr' Hc' E) as [? _]. }
  split; [done|]. split; [|split].
  - intros pid p Hp. by destruct (reachable_kernelFree_lookup _ _ _ Hr' Hc' Hp) as [_ ?].
  - intros -> p Hp.
    apply updateWith_cases in H
      as [(? & _ & ? & _)|(r & hp5 & hp6 & _ & _ & _ & Hs & _ & ->)]; [done|].
    rewrite finish_Processes in Hp by done.
    apply list_elem_of_filter in Hp as [_ Hp].
    apply finish_absProcs_elem in Hp as [pid Hp].
    by destruct (reachable_kernelFree_lookup _ _ _ Hr' Hc' Hp) as [_ ?].
  - intros hp. unfold excludeKernelThreads. by rewrite Hc', Hno.
Qed.

Lemma C3_kernel_threads_never_listed_witness :
  PidProcess (sessionOf 5 [WithRootPid 1] initKernelHelper) kthreadPid = None ∧
  ∀ p : ptr, p ∈ Processes (sessionOf 5 [WithRootPid 1] initKernelHelper) →
    ppidAt (heap (sessionOf 5 [WithRootPid 1] initKernelHelper)) p ≠ 2.
Proof.
  destruct (C3_kernel_threads_never_listed 5
              (emptySession (NewConfig [WithRootPid 1]))
              (sessionOf 5 [WithRootPid 1] initKernelHelper)
              false initKernelHelper None)
    as (H1 & _ & H2 & _).
  - apply reachable_empty.
  - reflexivity.
  - vm_compute. reflexivity.
  - split; [done|]. intros p Hp. by destruct (H2 eq_refl p Hp).
Defined.

(** ** C10: a process below a kernel thread *)

(** C10.  Construct a session with the default configuration from an
    enumeration that lists every pid once and holds a process [g] whose pid
    and parent pid differ from 2 and whose parent [kp] has parent pid 2.
    Construction succeeds whatever the bound on the walks; pid 2 and the
    parent have no object, [g] has one; it has no parent link, is an
    absolute root, is included and is listed by [Processes()] and by
    [Roots()], although it descends from pid 2; the exclusion walk finds no
    object for pid 2 and changes nothing. *)
Theorem C10_kernel_grandchild_listed
    (fuel : nat) (gs : list gops_Process) (g kp : gops_Process) :
  NoDup (Pid <$> gs) →
  g ∈ gs → kp ∈ gs →
  Pid g ≠ 2 → PPid g ≠ 2 →
  Pid kp = PPid g → PPid kp = 2 →
  ∃ pt (p : ptr),
    answer (inl gs) (New fuel []) = Some (inl pt) ∧
    descendantIn gs (Pid g) kthreadPid ∧
    PidProcess pt kthreadPid = None ∧
    PidProcess pt (PPid g) = None ∧
    PidProcess pt (Pid g) = Some p ∧
    parentAt (heap pt) p = None ∧
    p ∈ absRootProcs pt ∧
    includedAt (heap pt) p = true ∧
    p ∈ Processes pt ∧
    p ∈ Roots pt ∧
    (∀ hp, excludeKernelThreads fuel (cfg pt) (pidMap pt) hp = Some (hp, None)).
Proof.
  intros Hnd Hg Hkp Hpid Hppid Hlink Hk2.
  set (pt0 := emptySession (NewConfig [])).
  assert (keyed (heap pt0) (pidMap pt0)) as K by apply emptySession_keyed.
  set (m := refreshedMap pt0 false gs).
  set (hp2 := refreshedHeap pt0 false gs).
  set (procs := sortedProcs pt0 false gs).
  set (hp4 := absoluteHeap pt0 false gs).
  set (hp5 := foldl (λ hp proc, alter (set_isIncluded true) proc hp) hp4 procs).
  assert (m !! kthreadPid = None) as Hno2.
  { apply refreshNodes_never; [done..|]. by apply lastKept_kthread. }
  assert (m !! PPid g = None) as Hnop.
  { apply refreshNodes_never; [done..|]. apply lastKept_None.
    intros g' Hg' Hkeep Hp'.
    assert (g' = kp) as -> by (eapply NoDup_Pid_eq; [done..|congruence]).
    destruct (keepRecord_excluding (cfg pt0) kp eq_refl Hkeep). congruence. }
  assert (lastKept (cfg pt0) gs (Pid g) = Some g) as Hl
    by (apply lastKept_NoDup; [done..|by apply keepRecord_plain]).
  destruct (refreshNodes_created pt0 false gs K (Pid g) g eq_refl Hl)
    as (p & Hp & _ & Hcell).
  fold m in Hp. change ((refreshNodes pt0 false gs).1) with hp2 in Hcell.
  assert (keepsShape hp4 hp5) as Hs by apply foldl_set_isIncluded_shape.
  assert (updateWith fuel pt0 false gs
          = Some (finishUpdate pt0 false gs None hp5, None)) as Hup.
  { apply (updateWith_finish pt0 false gs fuel None hp5 hp5).
    - by apply resolveConfigured_unrooted.
    - by apply markIncluded_unrooted.
    - apply excludeKernelThreads_absent. by right. }
  set (pt := finishUpdate pt0 false gs None hp5).
  assert (resolveParent (pidMap pt) (heap pt) p = None) as Hres.
  { unfold pt. rewrite finish_resolveParent by done.
    unfold resolveParent, ppidAt. fold hp2 m. rewrite Hcell. simpl.
    rewrite Hnop. by case_bool_decide. }
  assert (parentAt (heap pt) p = None) as Hpar.
  { unfold pt. rewrite (finish_parentAt pt0 false gs None hp5 K Hs _ _ Hp).
    fold pt. rewrite Hres. unfold parentAt. fold hp2. by rewrite Hcell. }
  assert (p ∈ absProcs pt) as Hin
    by (apply (finish_absProcs_elem pt0 false gs None hp5); by exists (Pid g)).
  assert (includedAt (heap pt) p = true) as Hinc.
  { unfold pt.
    rewrite (includedAt_field _ _ _ (finish_isIncluded pt0 false gs None hp5)).
    apply includedAt_all; [done|].
    rewrite (field_eq_is_Some gopsProcess hp2 hp4)
      by apply absoluteHeap_gops.
    by rewrite Hcell. }
  exists pt, p. split.
  { rewrite answer_New. fold pt0. by rewrite answer_Update_inl, Hup. }
  split.
  { eapply descendant_step; [by exists g|].
    apply descendant_child. exists kp. by rewrite Hlink. }
  repeat split; try done.
  - unfold pt, finishUpdate, sortedRoots. simpl. apply sort_elem_of.
    destruct (linkAll_linked m hp2) as [_ R _ _]. fold pt0 m hp2.
    rewrite R. apply list_elem_of_filter. split.
    + rewrite <- Hres. unfold pt. by rewrite finish_resolveParent.
    + apply elem_of_map_values. by exists (Pid g).
  - unfold pt. rewrite finish_Processes by done. fold pt.
    by apply list_elem_of_filter.
  - unfold pt. rewrite finish_Roots by done. fold pt.
    apply list_elem_of_filter. split; [|done]. split; [done|].
    unfold lockedParent. by rewrite Hpar.
  - intros hp. apply excludeKernelThreads_absent. by right.
Qed.

Lemma C10_kernel_grandchild_listed_witness :
  ∃ (p : ptr), PidProcess (sessionOf 0 [] initKernelHelper) 4 = Some p ∧
               p ∈ Processes (sessionOf 0 [] initKernelHelper) ∧
               p ∈ Roots (sessionOf 0 [] initKernelHelper).
Proof.
  destruct (C10_kernel_grandchild_listed 0 initKernelHelper
              (mk_gops 4 3 "helper") (mk_gops 3 2 "kworker"))
    as (pt & p & Hnew & _ & _ & _ & Hp & _ & _ & _ & HP & HR & _).
  - vm_compute. repeat constructor; intros Hin;
      repeat (apply elem_of_cons in Hin as [Hin|Hin]; [discriminate|]);
      by apply elem_of_nil in Hin.
  - do 3 apply list_elem_of_further. apply list_elem_of_here.
  - do 2 apply list_elem_of_further. apply list_elem_of_here.
  - done.
  - done.
  - reflexivity.
  - reflexivity.
  - exists p. unfold sessionOf. by rewrite Hnew.
Defined.

(** * Further properties of the code *)

(** ** Configuration *)

Lemma Config_eta c :
  mk_Config (includeKernelThreads c) (includeRootAncestors c) (rootPids c) = c.
Proof. by destruct c. Qed.

Lemma NewConfig_snoc opts opt : NewConfig (opts ++ [opt]) = opt (NewConfig opts).
Proof. unfold NewConfig. by rewrite foldl_snoc. Qed.

(** [Refine] starts from every value of the configuration it is called on and
    applies the options in call order; without options it returns an equal
    configuration, and so does [NewConfig(WithConfig(cfg))], which is how the
    command passes its configuration to [New].  A [WithConfig] option
    discards whatever the options before it had set. *)
Theorem Refine_applies_options (c : Config) (opts before : list ConfigOption) :
  Refine c opts = foldl (λ c opt, opt c) c opts ∧
  Refine c [] = c ∧
  NewConfig [WithConfig c] = c ∧
  NewConfig (before ++ WithConfig c :: opts) = Refine c opts.
Proof.
  assert (∀ c0, WithConfig c c0 = c) as Hw
    by (intros c0; unfold WithConfig; apply Config_eta).
  split; [|split; [|split]].
  - unfold Refine, NewConfig. simpl. by rewrite Hw.
  - unfold Refine, NewConfig. simpl. by rewrite Hw.
  - unfold NewConfig. simpl. by rewrite Hw.
  - unfold Refine, NewConfig. rewrite foldl_app. simpl. by rewrite !Hw.
Qed.

(** Root pids accumulate in call order and leave the two flags alone;
    [WithoutRootPid] forgets the pids given before it.  The command refines
    its configuration once per [--root] flag, which yields the pids in the
    order of the flags. *)
Theorem WithRootPid_accumulates (opts : list ConfigOption) (c : Config)
    (pids : list Z) :
  rootPids (NewConfig (opts ++ (WithRootPid <$> pids)))
    = rootPids (NewConfig opts) ++ pids ∧
  includeKernelThreads (NewConfig (opts ++ (WithRootPid <$> pids)))
    = includeKernelThreads (NewConfig opts) ∧
  includeRootAncestors (NewConfig (opts ++ (WithRootPid <$> pids)))
    = includeRootAncestors (NewConfig opts) ∧
  rootPids (NewConfig (opts ++ WithoutRootPid :: (WithRootPid <$> pids))) = pids ∧
  foldl (λ c pid, Refine c [WithRootPid pid]) c pids
    = mk_Config (includeKernelThreads c) (includeRootAncestors c)
                (rootPids c ++ pids).
Proof.
  assert (∀ c0 : Config,
            foldl (λ c opt, opt c) c0 (WithRootPid <$> pids)
            = mk_Config (includeKernelThreads c0) (includeRootAncestors c0)
                        (rootPids c0 ++ pids)) as Hfold.
  { induction pids as [|pid pids IH]; intros c0; simpl.
    - by rewrite app_nil_r, Config_eta.
    - rewrite IH. simpl. by rewrite <- app_assoc. }
  unfold NewConfig. rewrite !foldl_app, Hfold. simpl. rewrite Hfold.
  repeat split; try done.
  clear Hfold. revert c. induction pids as [|pid pids IH]; intros c; simpl.
  - by rewrite app_nil_r, Config_eta.
  - rewrite IH. unfold Refine, NewConfig. simpl. by rewrite <- app_assoc.
Qed.

(** ** Depth and ancestry *)

Lemma lockedDepth_loop_acc fuel hp p r :
  lockedDepth_loop fuel hp p r = Z.add r <$> lockedDepth_loop fuel hp p 0.
Proof.
  revert p r. induction fuel as [|fuel IH]; intros p r; simpl;
    destruct (parentAt hp p) as [pp|]; simpl; rewrite ?Z.add_0_r; try done;
    destruct (bool_decide (pp ≠ p) && includedAt hp pp); simpl;
    rewrite ?Z.add_0_r; try done.
  rewrite (IH pp (r + 1)), (IH pp (0 + 1)).
  destruct (lockedDepth_loop fuel hp pp 0) as [d|]; simpl; [|done].
  f_equal. lia.
Qed.

Lemma lockedParent_cond hp p pp :
  parentAt hp p = Some pp →
  bool_decide (pp ≠ p) && includedAt hp pp
  = negb (bool_decide (pp = p) || negb (includedAt hp pp)).
Proof.
  intros _. destruct (includedAt hp pp); rewrite ?andb_true_r, ?andb_false_r,
    ?orb_false_r, ?orb_true_r; simpl; [|done].
  by repeat case_bool_decide.
Qed.

(** [Depth()] counts the steps of [Parent()]: an object for which [Parent()]
    answers nil has depth 0, whatever the bound on the loop; this includes an
    object that is its own parent and an object whose parent is excluded.
    An object whose [Parent()] is [q] is one deeper than [q]. *)
Theorem Depth_counts_Parent_steps (fuel : nat) (hp : Heap) (p : ptr) :
  (lockedParent hp p = None → lockedDepth fuel hp p = Some 0) ∧
  (parentAt hp p = Some p → lockedDepth fuel hp p = Some 0) ∧
  (∀ q, lockedParent hp p = Some q →
        lockedDepth (S fuel) hp p = Z.succ <$> lockedDepth fuel hp q).
Proof.
  assert (lockedParent hp p = None → lockedDepth fuel hp p = Some 0) as H0.
  { unfold lockedParent, lockedDepth. intros H.
    destruct fuel; simpl; destruct (parentAt hp p) as [pp|] eqn:E; try done;
      rewrite (lockedParent_cond _ _ _ E);
      by destruct (bool_decide (pp = p) || negb (includedAt hp pp)). }
  split; [done|]. split.
  - intros Hself. apply H0. unfold lockedParent. rewrite Hself.
    by rewrite bool_decide_eq_true_2.
  - unfold lockedParent, lockedDepth. intros q H. simpl.
    destruct (parentAt hp p) as [pp|] eqn:E; [|done].
    rewrite (lockedParent_cond _ _ _ E).
    destruct (bool_decide (pp = p) || negb (includedAt hp pp)); [done|].
    injection H as ->. simpl. rewrite lockedDepth_loop_acc.
    destruct (lockedDepth_loop fuel hp q 0) as [d|]; simpl; [|done].
    f_equal. lia.
Qed.

(** The [k]-th ancestor along the absolute parent links. *)
Fixpoint nthParent (hp : Heap) (k : nat) (p : ptr) : option ptr :=
  match k with
  | O => Some p
  | S k' => parentAt hp p ≫= nthParent hp k'
  end.

Lemma nthParent_S hp k p :
  nthParent hp (S k) p = parentAt hp p ≫= nthParent hp k.
Proof. done. Qed.

Lemma lockedIsDescendantOf_true fuel hp p a :
  lockedIsDescendantOf fuel hp p (Some a) = Some true →
  ∃ k, (k < fuel)%nat ∧ nthParent hp (S k) p = Some a.
Proof.
  revert p. induction fuel as [|fuel IH]; intros p; [done|].
  cbn [lockedIsDescendantOf].
  destruct (parentAt hp p) as [pp|] eqn:E; [|done]. case_bool_decide as Hd.
  - intros _. exists 0%nat. split; [lia|]. rewrite nthParent_S, E. simpl.
    by f_equal.
  - intros H. destruct (IH _ H) as (k & Hk & Hn). exists (S k). split; [lia|].
    by rewrite nthParent_S, E.
Qed.

Lemma lockedIsDescendantOf_false fuel hp p a :
  lockedIsDescendantOf fuel hp p (Some a) = Some false →
  ∀ k, nthParent hp (S k) p ≠ Some a.
Proof.
  revert p. induction fuel as [|fuel IH]; intros p; [done|].
  cbn [lockedIsDescendantOf].
  destruct (parentAt hp p) as [pp|] eqn:E.
  - case_bool_decide as Hd; [done|]. intros H k.
    rewrite nthParent_S, E. destruct k as [|k]; [simpl; congruence|].
    by apply (IH _ H k).
  - intros _ k. by rewrite nthParent_S, E.
Qed.

Lemma lockedIsDescendantOf_mono fuel hp p a b :
  lockedIsDescendantOf fuel hp p a = Some b →
  lockedIsDescendantOf (S fuel) hp p a = Some b.
Proof.
  revert p. induction fuel as [|fuel IH]; intros p; [done|].
  intros H. simpl in H.
  change (lockedIsDescendantOf (S (S fuel)) hp p a)
    with (match parentAt hp p with
          | None => Some false
          | Some parent =>
              match a with
              | None => Some false
              | Some a' =>
                  if bool_decide (parent = a') then Some true
                  else lockedIsDescendantOf (S fuel) hp parent a
              end
          end).
  destruct (parentAt hp p) as [pp|]; [|done].
  destruct a as [a'|]; [|done]. case_bool_decide; [done|]. by apply IH.
Qed.

(** [IsDescendantOf] answers from the absolute parent links alone, whatever
    the inclusion flags: when it answers true the given ancestor is met some
    steps up the parent chain, and when it answers false the chain ends
    without meeting it.  An answer is not changed by a larger bound, a nil
    ancestor is never an ancestor, and [IsAncestorOf] is the same test with
    the roles exchanged. *)
Theorem IsDescendantOf_follows_parent_chain
    (fuel : nat) (hp : Heap) (p a : ptr) (anc : option ptr) (b : bool) :
  (lockedIsDescendantOf fuel hp p (Some a) = Some true →
     ∃ k, nthParent hp (S k) p = Some a) ∧
  (lockedIsDescendantOf fuel hp p (Some a) = Some false →
     ∀ k, nthParent hp (S k) p ≠ Some a) ∧
  (lockedIsDescendantOf fuel hp p anc = Some b →
     ∀ more, lockedIsDescendantOf (more + fuel) hp p anc = Some b) ∧
  lockedIsDescendantOf (S fuel) hp p None = Some false ∧
  lockedIsAncestorOf fuel hp a (Some p) = lockedIsDescendantOf fuel hp p (Some a) ∧
  lockedIsAncestorOf fuel hp a None = Some false.
Proof.
  split; [|split; [|split; [|split; [|split]]]].
  - intros H. destruct (lockedIsDescendantOf_true _ _ _ _ H) as (k & _ & Hk).
    by exists k.
  - apply lockedIsDescendantOf_false.
  - intros H more. induction more as [|more IH]; [done|].
    by apply lockedIsDescendantOf_mono.
  - simpl. by destruct (parentAt hp p).
  - done.
  - done.
Qed.

(** An object that is its own absolute parent counts as its own descendant,
    and asking whether it descends from any other object never returns: the
    test has no guard against the self-parent link that [Depth], [Parent]
    and the ancestry walks check for. *)
Theorem IsDescendantOf_self_parent (hp : Heap) (p : ptr) :
  parentAt hp p = Some p →
  (∀ fuel, lockedIsDescendantOf (S fuel) hp p (Some p) = Some true) ∧
  (∀ fuel a, a ≠ p → lockedIsDescendantOf fuel hp p (Some a) = None).
Proof.
  intros Hself. split.
  - intros fuel. simpl. rewrite Hself. by rewrite bool_decide_eq_true_2.
  - intros fuel a Ha. induction fuel as [|fuel IH]; [done|].
    simpl. rewrite Hself. by rewrite bool_decide_eq_false_2.
Qed.

(** The objects an ancestry walk visits from [p], in order: [p], its parent,
    and so on up to an object without parent or with itself as parent. *)
Fixpoint ancestryOf (fuel : nat) (hp : Heap) (p : ptr) : option (list ptr) :=
  match fuel with
  | O => None
  | S fuel' =>
      match parentAt hp p with
      | Some pp =>
          if bool_decide (pp ≠ p) then (p ::.) <$> ancestryOf fuel' hp pp
          else Some [p]
      | None => Some [p]
      end
  end.

Lemma ancestryOf_field fuel hp hp' p :
  field parentProc hp' = field parentProc hp →
  ancestryOf fuel hp' p = ancestryOf fuel hp p.
Proof.
  intros E. revert p. induction fuel as [|fuel IH]; intros p; [done|].
  cbn [ancestryOf]. rewrite (parentAt_field _ _ _ E).
  destruct (parentAt hp p) as [pp|]; [|done]. by rewrite IH.
Qed.

Lemma ancestryOf_nthParent fuel hp p l :
  ancestryOf fuel hp p = Some l →
  ∀ (k : nat) x, l !! k = Some x → nthParent hp k p = Some x.
Proof.
  revert p l. induction fuel as [|fuel IH]; intros p l; [done|].
  cbn [ancestryOf].
  assert (∀ (k : nat) x, [p] !! k = Some x → nthParent hp k p = Some x) as Hone.
  { intros [|k] x; [by intros [= <-]|done]. }
  destruct (parentAt hp p) as [pp|] eqn:E; [case_bool_decide|].
  - destruct (ancestryOf fuel hp pp) as [l'|] eqn:El; [|done].
    intros [= <-] [|k] x; [by intros [= <-]|].
    intros Hk. rewrite nthParent_S, E. by apply (IH _ _ El).
  - by intros [= <-].
  - by intros [= <-].
Qed.

Lemma lockedWalkFullAncestry_list fuel h hp p l :
  (∀ q hp0, field parentProc (h q hp0).1 = field parentProc hp0) →
  ancestryOf fuel hp p = Some l →
  lockedWalkFullAncestry fuel h p hp = forEachProc (λ q hp0, Some (h q hp0)) l hp.
Proof.
  intros Hh. revert p hp l. induction fuel as [|fuel IH]; intros p hp l; [done|].
  cbn [ancestryOf lockedWalkFullAncestry].
  pose proof (Hh p hp) as E. destruct (h p hp) as [hp1 e] eqn:Eh. simpl in E.
  rewrite (parentAt_field _ _ _ E).
  destruct (parentAt hp p) as [pp|]; [case_bool_decide|].
  - destruct (ancestryOf fuel hp pp) as [l'|] eqn:El; [|done].
    intros [= <-]. simpl. rewrite Eh. destruct e; [done|].
    apply IH. by rewrite (ancestryOf_field _ _ _ _ E).
  - intros [= <-]. simpl. rewrite Eh. by destruct e.
  - intros [= <-]. simpl. rewrite Eh. by destruct e.
Qed.

Lemma lockedWalkAncestry_guarded fuel h p hp :
  lockedWalkAncestry fuel h p hp
  = lockedWalkFullAncestry fuel
      (λ q hp0, if includedAt hp0 q then h q hp0 else (hp0, None)) p hp.
Proof.
  revert p hp. induction fuel as [|fuel IH]; intros p hp; [done|].
  cbn [lockedWalkAncestry lockedWalkFullAncestry].
  destruct (if includedAt hp p then h p hp else (hp, None)) as [hp1 [e|]];
    [done|].
  destruct (parentAt hp1 p) as [pp|]; [|done]. by rewrite IH.
Qed.

Lemma WalkAncestry_locked fuel h p hp :
  (∀ q hp0, field parentProc (h q hp0).1 = field parentProc hp0) →
  WalkAncestry fuel h p hp = lockedWalkAncestry fuel h p hp.
Proof.
  intros Hh. revert p hp. induction fuel as [|fuel IH]; intros p hp; [done|].
  cbn [lockedWalkAncestry WalkAncestry].
  assert (field parentProc (if includedAt hp p then h p hp else (hp, None)).1
          = field parentProc hp) as E by (by destruct (includedAt hp p)).
  destruct (if includedAt hp p then h p hp else (hp, None)) as [hp1 [e|]];
    [done|].
  simpl in E. rewrite (parentAt_field _ _ _ E).
  destruct (parentAt hp p) as [pp|]; [|done]. by rewrite IH.
Qed.

(** An ancestry walk whose handler leaves the parent links alone calls the
    handler on the object, then on its parent, its grandparent and so on, in
    that order, and stops at the first error, at an object without parent or
    at an object that is its own parent.  The full walk calls it on every
    object of that chain; [WalkAncestry] calls it on the included ones and
    climbs past the others. *)
Theorem WalkAncestry_visits_parent_chain
    (fuel : nat) (h : ProcessHandler) (hp : Heap) (p : ptr) (l : list ptr) :
  (∀ q hp0, field parentProc (h q hp0).1 = field parentProc hp0) →
  ancestryOf fuel hp p = Some l →
  (∀ (k : nat) x, l !! k = Some x → nthParent hp k p = Some x) ∧
  lockedWalkFullAncestry fuel h p hp
    = forEachProc (λ q hp0, Some (h q hp0)) l hp ∧
  WalkAncestry fuel h p hp
    = forEachProc
        (λ q hp0, Some (if includedAt hp0 q then h q hp0 else (hp0, None))) l hp.
Proof.
  intros Hh Hl. split; [by apply (ancestryOf_nthParent fuel)|].
  split; [by apply lockedWalkFullAncestry_list|].
  rewrite WalkAncestry_locked, lockedWalkAncestry_guarded by done.
  apply lockedWalkFullAncestry_list; [|done].
  intros q hp0. by destruct (includedAt hp0 q).
Qed.

(** ** Lookups and lists of the session *)

(** The lookup by pid answers an object that carries that pid, and no object
    is registered under two pids. *)
Theorem PidProcess_pid_agrees (pt : ProcTree) (pid : Z) (p : ptr) :
  reachable pt →
  PidProcess pt pid = Some p →
  lockedPid (heap pt) p = pid ∧
  (∀ pid', PidProcess pt pid' = Some p → pid' = pid).
Proof.
  intros Hr Hp. apply reachable_keyed in Hr. split.
  - by eapply keyed_pidAt.
  - intros pid' Hp'. by eapply keyed_inj.
Qed.

Lemma PidProcess_pid_agrees_witness :
  lockedPid (heap (sessionOf 5 [] initAB)) 1%nat = 100.
Proof.
  destruct (PidProcess_pid_agrees (sessionOf 5 [] initAB) 100 1%nat) as [H _].
  - apply sessionOf_reachable.
  - vm_compute. reflexivity.
  - exact H.
Defined.

(** After a successful update [Processes()] lists exactly the objects of the
    pid map that are included, tombstones among them, and [Roots()] lists
    exactly the listed objects for which [Parent()] answers nil. *)
Theorem Processes_and_Roots_membership
    (fuel : nat) (pt pt' : ProcTree) (pruneTombstones : bool)
    (gs : list gops_Process) :
  reachable pt →
  answer (inl gs) (Update fuel pt pruneTombstones) = Some (pt', None) →
  (∀ p : ptr, p ∈ Processes pt' ↔
     (∃ pid, PidProcess pt' pid = Some p) ∧ includedAt (heap pt') p = true) ∧
  (∀ p : ptr, p ∈ Roots pt' ↔
     p ∈ Processes pt' ∧ lockedParent (heap pt') p = None).
Proof.
  intros Hr H. rewrite answer_Update_inl in H.
  pose proof (reachable_keyed _ Hr) as K.
  apply updateWith_cases in H
    as [(? & _ & ? & _)|(r & hp5 & hp6 & _ & _ & _ & Hs & _ & ->)]; [done|].
  split; intros p.
  - rewrite finish_Processes, list_elem_of_filter, finish_absProcs_elem by done.
    tauto.
  - rewrite finish_Roots, finish_Processes, !list_elem_of_filter by done. tauto.
Qed.

Lemma Processes_and_Roots_membership_witness :
  0%nat ∈ Roots (sessionOf 5 [] initAB) ↔
    0%nat ∈ Processes (sessionOf 5 [] initAB) ∧
    lockedParent (heap (sessionOf 5 [] initAB)) 0%nat = None.
Proof.
  destruct (Processes_and_Roots_membership 5 (emptySession (NewConfig []))
              (sessionOf 5 [] initAB) false initAB) as [_ H].
  - apply reachable_empty.
  - vm_compute. reflexivity.
  - exact (H 0%nat).
Defined.

(** [Parent()] and [Children()] agree after a successful update: the
    children of an object of the pid map are exactly the listed objects
    whose parent link points to it, so a listed object is among the children
    of the object its [Parent()] answers, and a child of an included object,
    other than that object itself, has it as [Parent()]. *)
Theorem Parent_and_Children_agree
    (fuel : nat) (pt pt' : ProcTree) (pruneTombstones : bool)
    (gs : list gops_Process) (pid : Z) (q : ptr) :
  reachable pt →
  answer (inl gs) (Update fuel pt pruneTombstones) = Some (pt', None) →
  PidProcess pt' pid = Some q →
  (∀ c : ptr, c ∈ Children (heap pt') q ↔
     c ∈ Processes pt' ∧ parentAt (heap pt') c = Some q) ∧
  (∀ c : ptr, c ∈ Processes pt' → lockedParent (heap pt') c = Some q →
     c ∈ Children (heap pt') q) ∧
  (∀ c : ptr, c ∈ Children (heap pt') q → c ≠ q →
     includedAt (heap pt') q = true → lockedParent (heap pt') c = Some q).
Proof.
  intros Hr H Hq. rewrite answer_Update_inl in H.
  pose proof (reachable_keyed _ Hr) as K.
  apply updateWith_cases in H
    as [(? & _ & ? & _)|(r & hp5 & hp6 & _ & _ & _ & Hs & _ & ->)]; [done|].
  assert (∀ c : ptr, c ∈ Children (heap (finishUpdate pt pruneTombstones gs r hp6)) q ↔
            c ∈ Processes (finishUpdate pt pruneTombstones gs r hp6) ∧
            parentAt (heap (finishUpdate pt pruneTombstones gs r hp6)) c = Some q)
    as Hch.
  { intros c.
    rewrite (finish_Children pt pruneTombstones gs r hp6 K Hs pid q Hq).
    rewrite finish_Processes, !list_elem_of_filter by done. tauto. }
  split; [done|]. split.
  - intros c Hc Hpar. apply Hch. split; [done|].
    unfold lockedParent in Hpar.
    destruct (parentAt _ c) as [pp|]; [|done].
    destruct (bool_decide (pp = c) || negb (includedAt _ pp)); congruence.
  - intros c Hc Hne Hinc. apply Hch in Hc as [_ Hpar].
    unfold lockedParent. rewrite Hpar, Hinc.
    by rewrite bool_decide_eq_false_2.
Qed.

Lemma Parent_and_Children_agree_witness :
  2%nat ∈ Children (heap (sessionOf 5 [] initAB)) 1%nat ↔
    2%nat ∈ Processes (sessionOf 5 [] initAB) ∧
    parentAt (heap (sessionOf 5 [] initAB)) 2%nat = Some 1%nat.
Proof.
  destruct (Parent_and_Children_agree 5 (emptySession (NewConfig []))
              (sessionOf 5 [] initAB) false initAB 100 1%nat) as [H _].
  - apply reachable_empty.
  - vm_compute. reflexivity.
  - vm_compute. reflexivity.
  - exact (H 2%nat).
Defined.

(** After an update that got an enumeration, an object of the pid map is a
    tombstone exactly when the enumeration held no record for its pid that
    the kernel-thread policy keeps; an update that prunes leaves no
    tombstone in the pid map. *)
Theorem tombstone_iff_not_rediscovered
    (fuel : nat) (pt pt' : ProcTree) (pruneTombstones : bool)
    (gs : list gops_Process) (e : option error) (pid : Z) (p : ptr) :
  reachable pt →
  answer (inl gs) (Update fuel pt pruneTombstones) = Some (pt', e) →
  PidProcess pt' pid = Some p →
  (tombstoneAt (heap pt') p = true ↔ lastKept (cfg pt) gs pid = None) ∧
  (pruneTombstones = true → tombstoneAt (heap pt') p = false).
Proof.
  intros Hr H Hp. rewrite answer_Update_inl in H.
  pose proof (reachable_keyed _ Hr) as K.
  destruct (updateWith_nodes _ _ _ _ _ _ K H) as (_ & Em & _ & Et).
  unfold PidProcess in Hp. rewrite Em in Hp.
  rewrite (tombstoneAt_field _ _ _ Et). unfold tombstoneAt, refreshedHeap.
  destruct (refreshNodes_entry pt pruneTombstones gs K pid p Hp)
    as [(g & Hl & [(_ & n & _ & E)|(_ & _ & E)])|(Hl & Hprune & _ & n & _ & E)];
    rewrite E, Hl; simpl; split; try done; try (split; done).
  by rewrite Hprune.
Qed.

Lemma tombstone_iff_not_rediscovered_witness :
  tombstoneAt
    (heap (sessionAfter 5 (sessionOf 5 [] initAB) false [mk_gops 1 0 "init"]))
    2%nat = true ↔
  lastKept (cfg (sessionOf 5 [] initAB)) [mk_gops 1 0 "init"] 200 = None.
Proof.
  destruct (tombstone_iff_not_rediscovered 5 (sessionOf 5 [] initAB)
              (sessionAfter 5 (sessionOf 5 [] initAB) false [mk_gops 1 0 "init"])
              false [mk_gops 1 0 "init"] None 200 2%nat) as [H _].
  - apply sessionOf_reachable.
  - vm_compute. reflexivity.
  - vm_compute. reflexivity.
  - exact H.
Defined.

Lemma IsDescendantOf_self_parent_witness :
  lockedIsDescendantOf 1
    (heap (sessionOf 5 [] [mk_gops 5 5 "x"; mk_gops 7 0 "y"])) 0%nat (Some 0%nat)
  = Some true.
Proof.
  destruct (IsDescendantOf_self_parent
              (heap (sessionOf 5 [] [mk_gops 5 5 "x"; mk_gops 7 0 "y"])) 0%nat)
    as [H _].
  - vm_compute. reflexivity.
  - exact (H 0%nat).
Defined.

Lemma WalkAncestry_visits_parent_chain_witness :
  WalkAncestry 5 (λ _ hp, (hp, None)) 2%nat (heap (sessionOf 5 [] initAB))
  = forEachProc
      (λ q hp0, Some (if includedAt hp0 q then (hp0, None) else (hp0, None)))
      [2; 1; 0]%nat (heap (sessionOf 5 [] initAB)).
Proof.
  destruct (WalkAncestry_visits_parent_chain 5 (λ _ hp, (hp, None))
              (heap (sessionOf 5 [] initAB)) 2%nat [2; 1; 0]%nat)
    as (_ & _ & H).
  - intros q hp0. reflexivity.
  - vm_compute. reflexivity.
  - exact H.
Defined.

(** ** Updates of a session without configured roots *)

Lemma filter_all {A} (P : A → Prop) `{!∀ x, Decision (P x)} (l : list A) :
  (∀ x, x ∈ l → P x) → filter P l = l.
Proof.
  induction l as [|x l IH]; intros Hall; [done|].
  rewrite filter_cons, decide_True by (apply Hall, list_elem_of_here).
  f_equal. apply IH. intros y Hy. by apply Hall, list_elem_of_further.
Qed.

Lemma refreshedMap_kthread pt pruneTombstones gs :
  reachable pt → includeKernelThreads (cfg pt) = false →
  refreshedMap pt pruneTombstones gs !! kthreadPid = None.
Proof.
  intros Hr Hc. apply refreshNodes_never.
  - by apply reachable_keyed.
  - destruct (pidMap pt !! kthreadPid) as [p|] eqn:E; [|done].
    by destruct (reachable_kernelFree_lookup _ _ _ Hr Hc E) as [? _].
  - by apply lastKept_kthread.
Qed.

Lemma excludeKernelThreads_reachable fuel pt pruneTombstones gs hp :
  reachable pt →
  excludeKernelThreads fuel (cfg pt) (refreshedMap pt pruneTombstones gs) hp
  = Some (hp, None).
Proof.
  intros Hr. apply excludeKernelThreads_absent.
  destruct (includeKernelThreads (cfg pt)) eqn:Hc; [by left|right].
  by apply refreshedMap_kthread.
Qed.

(** The store an update without configured roots hands to its last phase. *)
Definition allIncludedHeap (pt : ProcTree) (pruneTombstones : bool)
    (gs : list gops_Process) : Heap :=
  foldl (λ hp proc, alter (set_isIncluded true) proc hp)
        (absoluteHeap pt pruneTombstones gs) (sortedProcs pt pruneTombstones gs).

Lemma updateWith_unrooted fuel pt pruneTombstones gs :
  reachable pt → fixedRootsOf (cfg pt) = false →
  updateWith fuel pt pruneTombstones gs
  = Some (finishUpdate pt pruneTombstones gs (cfgRootProcs pt)
            (allIncludedHeap pt pruneTombstones gs), None).
Proof.
  intros Hr Hf.
  apply (updateWith_finish pt pruneTombstones gs fuel (cfgRootProcs pt)
           (allIncludedHeap pt pruneTombstones gs)).
  - by apply resolveConfigured_unrooted.
  - by apply markIncluded_unrooted.
  - by apply excludeKernelThreads_reachable.
Qed.

Lemma allIncludedHeap_included pt pruneTombstones gs pid (p : ptr) :
  keyed (heap pt) (pidMap pt) →
  refreshedMap pt pruneTombstones gs !! pid = Some p →
  includedAt (allIncludedHeap pt pruneTombstones gs) p = true.
Proof.
  intros K Hp. apply includedAt_all.
  - apply sortedProcs_elem. by exists pid.
  - rewrite (field_eq_is_Some gopsProcess (refreshedHeap pt pruneTombstones gs))
      by apply absoluteHeap_gops.
    eapply keyed_valid; [by apply refreshed_keyed|done].
Qed.

(** Without configured roots an update that gets an enumeration runs no
    walk: it succeeds whatever the bound on the walks and whatever the
    enumeration holds (parent cycles included), and afterwards
    [Processes()] is the ascending list of all objects of the pid map,
    tombstones included, each marked included. *)
Theorem update_without_roots_succeeds
    (pt : ProcTree) (pruneTombstones : bool) (gs : list gops_Process) :
  reachable pt →
  rootPids (cfg pt) = [] →
  ∃ pt',
    (∀ fuel, answer (inl gs) (Update fuel pt pruneTombstones) = Some (pt', None)) ∧
    Processes pt' = absProcs pt' ∧
    (∀ p : ptr, p ∈ Processes pt' ↔ ∃ pid, PidProcess pt' pid = Some p) ∧
    (∀ p : ptr, p ∈ Processes pt' → includedAt (heap pt') p = true).
Proof.
  intros Hr Hroots.
  assert (fixedRootsOf (cfg pt) = false) as Hf
    by (unfold fixedRootsOf; rewrite Hroots; done).
  pose proof (reachable_keyed _ Hr) as K.
  set (hp5 := allIncludedHeap pt pruneTombstones gs).
  assert (keepsShape (absoluteHeap pt pruneTombstones gs) hp5) as Hs
    by apply foldl_set_isIncluded_shape.
  set (pt' := finishUpdate pt pruneTombstones gs (cfgRootProcs pt) hp5).
  assert (∀ p : ptr, p ∈ absProcs pt' → includedAt (heap pt') p = true) as Hall.
  { intros p [pid Hp]%finish_absProcs_elem.
    unfold pt'. rewrite (includedAt_field _ _ _
      (finish_isIncluded pt pruneTombstones gs (cfgRootProcs pt) hp5)).
    by eapply allIncludedHeap_included. }
  assert (Processes pt' = absProcs pt') as HP.
  { unfold pt'. rewrite finish_Processes by done. by apply filter_all. }
  exists pt'. split; [|split; [done|split]].
  - intros fuel. rewrite answer_Update_inl. by apply updateWith_unrooted.
  - intros p. rewrite HP. by apply finish_absProcs_elem.
  - intros p. rewrite HP. apply Hall.
Qed.

Lemma update_without_roots_succeeds_witness :
  ∃ pt', ∀ fuel,
    answer (inl [mk_gops 5 5 "x"; mk_gops 7 0 "y"])
           (Update fuel (sessionOf 5 [] initAB) true) = Some (pt', None).
Proof.
  destruct (update_without_roots_succeeds (sessionOf 5 [] initAB) true
              [mk_gops 5 5 "x"; mk_gops 7 0 "y"]) as (pt' & H & _).
  - apply sessionOf_reachable.
  - vm_compute. reflexivity.
  - exists pt'. exact H.
Defined.

(** After an update that got an enumeration, a pid has an object exactly
    when the enumeration holds a record for it that the kernel-thread policy
    keeps, or when it had an object before and tombstones are not pruned. *)
Theorem pid_map_after_update
    (fuel : nat) (pt pt' : ProcTree) (pruneTombstones : bool)
    (gs : list gops_Process) (e : option error) (pid : Z) :
  reachable pt →
  answer (inl gs) (Update fuel pt pruneTombstones) = Some (pt', e) →
  is_Some (PidProcess pt' pid) ↔
    (∃ g, g ∈ gs ∧ Pid g = pid ∧ keepRecord (cfg pt) g = true) ∨
    (pruneTombstones = false ∧ is_Some (PidProcess pt pid)).
Proof.
  intros Hr H. rewrite answer_Update_inl in H.
  pose proof (reachable_keyed _ Hr) as K.
  destruct (updateWith_nodes _ _ _ _ _ _ K H) as (_ & Em & _ & _).
  unfold PidProcess. rewrite Em. unfold refreshedMap. split.
  - intros [p Hp].
    destruct (refreshNodes_entry pt pruneTombstones gs K pid p Hp)
      as [(g & Hl & _)|(_ & Hprune & Hold & _)].
    + left. exists g. apply lastKept_Some in Hl. tauto.
    + right. split; [done|]. by exists p.
  - intros [(g & Hg & <- & Hk)|[-> [p Hp]]].
    + destruct (lastKept_is_Some (cfg pt) gs g Hg Hk) as [g' Hl].
      destruct (pidMap pt !! Pid g) as [p|] eqn:Hold.
      * exists p. by destruct (refreshNodes_rediscovered pt pruneTombstones gs K
                                  _ _ _ Hold Hl).
      * destruct (refreshNodes_created pt pruneTombstones gs K _ _ Hold Hl)
          as (p & Hp & _). by exists p.
    + exists p. destruct (lastKept (cfg pt) gs pid) as [g|] eqn:Hl.
      * by destruct (refreshNodes_rediscovered pt false gs K _ _ _ Hp Hl).
      * by destruct (refreshNodes_vanished pt false gs K _ _ Hp Hl).
Qed.

Lemma pid_map_after_update_witness :
  is_Some (PidProcess (sessionOf 5 [] initKernelHelper) 3) ↔
    (∃ g, g ∈ initKernelHelper ∧ Pid g = 3 ∧
          keepRecord (cfg (emptySession (NewConfig []))) g = true) ∨
    (false = false ∧ is_Some (PidProcess (emptySession (NewConfig [])) 3)).
Proof.
  apply (pid_map_after_update 5 (emptySession (NewConfig []))
           (sessionOf 5 [] initKernelHelper) false initKernelHelper None 3).
  - apply reachable_empty.
  - vm_compute. reflexivity.
Defined.

Lemma resolveParent_Some m hp (c q : ptr) :
  resolveParent m hp c = Some q ↔ ppidAt hp c ≠ 0 ∧ m !! ppidAt hp c = Some q.
Proof.
  unfold resolveParent. case_bool_decide; [tauto|]. split; [done|tauto].
Qed.

Lemma resolveParent_None m hp (c : ptr) :
  resolveParent m hp c = None ↔ ppidAt hp c = 0 ∨ m !! ppidAt hp c = None.
Proof.
  unfold resolveParent. case_bool_decide as Hd; [tauto|].
  split; [|done]. intros _. left. by destruct (decide (ppidAt hp c = 0)).
Qed.

(** The absolute tree a successful update builds follows the parent pids of
    the objects of the pid map: an object is an absolute root exactly when
    its parent pid is 0 or has no object; the absolute children of the
    object of a pid are the objects whose parent pid is that pid, when it is
    not 0; and an object whose parent pid has an object is linked to it. *)
Theorem absolute_tree_follows_parent_pids
    (fuel : nat) (pt pt' : ProcTree) (pruneTombstones : bool)
    (gs : list gops_Process) :
  reachable pt →
  answer (inl gs) (Update fuel pt pruneTombstones) = Some (pt', None) →
  (∀ p : ptr, p ∈ absRootProcs pt' ↔
     (∃ pid, PidProcess pt' pid = Some p) ∧
     (ppidAt (heap pt') p = 0 ∨ PidProcess pt' (ppidAt (heap pt') p) = None)) ∧
  (∀ pid (q c : ptr), PidProcess pt' pid = Some q →
     c ∈ absChildrenAt (heap pt') q ↔
     (∃ pid', PidProcess pt' pid' = Some c) ∧
     ppidAt (heap pt') c = pid ∧ pid ≠ 0) ∧
  (∀ pid (c q : ptr), PidProcess pt' pid = Some c →
     ppidAt (heap pt') c ≠ 0 →
     PidProcess pt' (ppidAt (heap pt') c) = Some q →
     parentAt (heap pt') c = Some q).
Proof.
  intros Hr H. rewrite answer_Update_inl in H.
  pose proof (reachable_keyed _ Hr) as K.
  apply updateWith_cases in H
    as [(? & _ & ? & _)|(r & hp5 & hp6 & _ & _ & _ & Hs & _ & ->)]; [done|].
  set (pt' := finishUpdate pt pruneTombstones gs r hp6).
  assert (keyed (heap pt') (pidMap pt')) as K' by (by apply finish_keyed).
  unfold PidProcess. split; [|split].
  - intros p. rewrite <- resolveParent_None.
    assert (resolveParent (pidMap pt') (heap pt') p
            = resolveParent (refreshedMap pt pruneTombstones gs)
                (refreshedHeap pt pruneTombstones gs) p) as ->
      by (by apply finish_resolveParent).
    change (absRootProcs pt') with (sortedRoots pt pruneTombstones gs).
    change (pidMap pt') with (refreshedMap pt pruneTombstones gs).
    unfold sortedRoots. rewrite sort_elem_of.
    destruct (linkAll_linked (refreshedMap pt pruneTombstones gs)
                (refreshedHeap pt pruneTombstones gs)) as [_ R _ _].
    rewrite R, list_elem_of_filter, elem_of_map_values. tauto.
  - intros pid q c Hq.
    destruct (finish_absChildren pt pruneTombstones gs r hp6 K Hs pid q Hq)
      as [_ Hch].
    etrans; [exact (Hch c)|]. fold pt'. rewrite resolveParent_Some. split.
    + intros (Hc & Hne & Hpar). split; [done|].
      assert (ppidAt (heap pt') c = pid) as <- by (by eapply keyed_inj). done.
    + intros (Hc & <- & Hne). done.
  - intros pid c q Hc Hne Hq.
    unfold pt'. rewrite (finish_parentAt pt pruneTombstones gs r hp6 K Hs pid c Hc).
    fold pt'.
    assert (resolveParent (pidMap pt') (heap pt') c = Some q) as ->
      by (by apply resolveParent_Some).
    done.
Qed.

Lemma absolute_tree_follows_parent_pids_witness :
  1%nat ∈ absRootProcs (sessionOf 5 [] initKernelHelper) ↔
    (∃ pid, PidProcess (sessionOf 5 [] initKernelHelper) pid = Some 1%nat) ∧
    (ppidAt (heap (sessionOf 5 [] initKernelHelper)) 1%nat = 0 ∨
     PidProcess (sessionOf 5 [] initKernelHelper)
       (ppidAt (heap (sessionOf 5 [] initKernelHelper)) 1%nat) = None).
Proof.
  destruct (absolute_tree_follows_parent_pids 5 (emptySession (NewConfig []))
              (sessionOf 5 [] initKernelHelper) false initKernelHelper)
    as [H _].
  - apply reachable_empty.
  - vm_compute. reflexivity.
  - exact (H 1%nat).
Defined.

(** ** What the inclusion walks include *)

(** Inclusion flags only get set from [hp] to [hp']. *)
Definition grows (hp hp' : Heap) : Prop :=
  ∀ q : ptr, includedAt hp q = true → includedAt hp' q = true.

(** [x] is [p] or below [p] along the absolute child slices. *)
Inductive reach (hp : Heap) : ptr → ptr → Prop :=
| reach_refl p : reach hp p p
| reach_step p c x : c ∈ absChildrenAt hp p → reach hp c x → reach hp p x.

Lemma grows_refl hp : grows hp hp.
Proof. by intros q. Qed.

Lemma grows_trans hp1 hp2 hp3 : grows hp1 hp2 → grows hp2 hp3 → grows hp1 hp3.
Proof. intros H1 H2 q Hq. by apply H2, H1. Qed.

Lemma keepsShape_valid hp hp' (p : ptr) :
  keepsShape hp hp' → is_Some (hp' !! p) ↔ is_Some (hp !! p).
Proof. intros Hs. apply (field_eq_is_Some gopsProcess). by apply Hs. Qed.

Lemma reach_field hp hp' p x :
  field absChildProcs hp' = field absChildProcs hp → reach hp p x → reach hp' p x.
Proof.
  intros E. induction 1 as [p|p c x Hc _ IH]; [constructor|].
  eapply reach_step; [|exact IH]. by rewrite (absChildrenAt_field _ _ _ E).
Qed.

Lemma includedAt_alter_set b (p q : ptr) hp :
  includedAt (alter (set_isIncluded b) p hp) q
  = if decide (p = q) then from_option (λ _, b) false (hp !! q)
    else includedAt hp q.
Proof.
  unfold includedAt. rewrite list_lookup_alter.
  case_decide; [subst|done]. by destruct (hp !! q).
Qed.

Lemma includeHandler_includes p hp :
  grows hp (includeHandler p hp).1 ∧
  (is_Some (hp !! p) → includedAt (includeHandler p hp).1 p = true).
Proof.
  unfold includeHandler. simpl. destruct (includedAt hp p) eqn:E.
  - split; [apply grows_refl|done].
  - split.
    + intros q Hq. rewrite includedAt_alter_set. case_decide; [|done].
      subst. congruence.
    + intros [n Hn]. rewrite includedAt_alter_set, decide_True by done.
      by rewrite Hn.
Qed.

(** What a step of an inclusion walk does: it never fails, keeps the shape,
    only sets flags, and includes every valid object of [covers hp p]. *)
Definition includes (covers : Heap → ptr → ptr → Prop)
    (f : ptr → Heap → option (Heap * option error)) : Prop :=
  ∀ p hp hp' e, f p hp = Some (hp', e) →
    e = None ∧ keepsShape hp hp' ∧ grows hp hp' ∧
    ∀ x, covers hp p x → is_Some (hp !! x) → includedAt hp' x = true.

Lemma forEachProc_includes covers f l hp hp' e :
  includes covers f →
  (∀ h1 h2 p x, keepsShape h1 h2 → covers h1 p x → covers h2 p x) →
  forEachProc f l hp = Some (hp', e) →
  e = None ∧ keepsShape hp hp' ∧ grows hp hp' ∧
  ∀ p x, p ∈ l → covers hp p x → is_Some (hp !! x) → includedAt hp' x = true.
Proof.
  intros Hf Hcov. revert hp. induction l as [|c l IH]; intros hp; simpl.
  - intros [= <- <-]. split; [done|]. split; [apply keepsShape_refl|].
    split; [apply grows_refl|].
    intros p x Hin. by apply elem_of_nil in Hin.
  - destruct (f c hp) as [[hp1 [e1|]]|] eqn:E; [| |done].
    + by destruct (Hf _ _ _ _ E).
    + destruct (Hf _ _ _ _ E) as (_ & S1 & G1 & C1). intros Hrest.
      destruct (IH _ Hrest) as (-> & S2 & G2 & C2).
      repeat split.
      * by eapply keepsShape_trans.
      * by eapply grows_trans.
      * intros p x [->|Hin]%elem_of_cons Hc Hx.
        { apply G2. by apply C1. }
        { apply (C2 p x Hin); [by eapply Hcov|].
          by apply (keepsShape_valid hp hp1). }
Qed.

Lemma lockedWalkFullSubtree_includes fuel :
  includes reach (lockedWalkFullSubtree fuel includeHandler).
Proof.
  induction fuel as [|fuel IH]; intros p hp hp' e; [done|].
  cbn [lockedWalkFullSubtree].
  destruct (includeHandler_flagOnly p hp) as [He S1].
  destruct (includeHandler_includes p hp) as [G1 I1].
  destruct (includeHandler p hp) as [hp1 e1]. simpl in He, S1, G1, I1. subst e1.
  intros Hw.
  apply (forEachProc_includes reach) in Hw as (-> & S2 & G2 & C2); [|done|].
  - repeat split.
    + by eapply keepsShape_trans.
    + by eapply grows_trans.
    + intros x Hr Hx. destruct Hr as [p|p c x Hc Hr].
      * apply G2. by apply I1.
      * apply (C2 c x).
        { by rewrite (absChildrenAt_field _ _ _ (S1 _ absChildProcs (λ _ _, eq_refl))). }
        { eapply reach_field; [|exact Hr]. by apply S1. }
        { by apply (keepsShape_valid hp hp1). }
  - intros h1 h2 q x Hs. apply reach_field. by apply Hs.
Qed.

(** [a] is [p] or an ancestor of [p] along the absolute parent links. *)
Definition above (hp : Heap) (p a : ptr) : Prop := ∃ k, nthParent hp k p = Some a.

Lemma nthParent_field hp hp' k p :
  field parentProc hp' = field parentProc hp → nthParent hp' k p = nthParent hp k p.
Proof.
  intros E. revert p. induction k as [|k IH]; intros p; [done|].
  rewrite !nthParent_S, (parentAt_field _ _ _ E).
  destruct (parentAt hp p); [apply IH|done].
Qed.

Lemma nthParent_self hp k p : parentAt hp p = Some p → nthParent hp k p = Some p.
Proof.
  intros E. induction k as [|k IH]; [done|]. by rewrite nthParent_S, E.
Qed.

Lemma lockedWalkFullAncestry_includes fuel :
  includes above (lockedWalkFullAncestry fuel includeHandler).
Proof.
  induction fuel as [|fuel IH]; intros p hp hp' e; [done|].
  cbn [lockedWalkFullAncestry].
  destruct (includeHandler_flagOnly p hp) as [He S1].
  destruct (includeHandler_includes p hp) as [G1 I1].
  destruct (includeHandler p hp) as [hp1 e1]. simpl in He, S1, G1, I1. subst e1.
  assert (parentAt hp1 p = parentAt hp p) as Ep
    by (apply parentAt_field; by apply S1).
  rewrite Ep.
  destruct (parentAt hp p) as [pp|] eqn:E; [case_bool_decide as Hne|].
  - intros Hw. destruct (IH _ _ _ _ Hw) as (-> & S2 & G2 & C2).
    repeat split.
    + by eapply keepsShape_trans.
    + by eapply grows_trans.
    + intros x [[|k] Hk] Hx.
      * injection Hk as <-. apply G2. by apply I1.
      * rewrite nthParent_S, E in Hk. simpl in Hk.
        apply C2; [|by apply (keepsShape_valid hp hp1)].
        exists k. rewrite <- Hk. apply nthParent_field. by apply S1.
  - intros [= <- <-]. repeat split; try done.
    intros x [k Hk] Hx.
    assert (pp = p) as -> by (by destruct (decide (pp = p))).
    rewrite nthParent_self in Hk by done. injection Hk as <-. by apply I1.
  - intros [= <- <-]. repeat split; try done.
    intros x [[|k] Hk] Hx.
    + injection Hk as <-. by apply I1.
    + by rewrite nthParent_S, E in Hk.
Qed.

Lemma above_field hp hp' p a :
  field parentProc hp' = field parentProc hp → above hp p a → above hp' p a.
Proof. intros E [k Hk]. exists k. by rewrite (nthParent_field _ _ _ _ E). Qed.

Lemma markIncluded_includes fuel c roots procs hp hp5 :
  markIncluded fuel c roots procs hp = Some (hp5, None) →
  (∀ r x : ptr, r ∈ roots → reach hp r x → is_Some (hp !! x) → x ∈ procs →
     includedAt hp5 x = true) ∧
  (includeRootAncestors c = true →
   ∀ r a : ptr, r ∈ roots → above hp r a → is_Some (hp !! a) → a ∈ procs →
     includedAt hp5 a = true).
Proof.
  unfold markIncluded. destruct (fixedRootsOf c).
  - unfold lockedFullWalkFromRoots.
    destruct (forEachProc (lockedWalkFullSubtree fuel includeHandler) roots hp)
      as [[hp1 e1]|] eqn:E1; [|done].
    apply (forEachProc_includes reach) in E1 as (-> & S1 & G1 & C1);
      [|apply lockedWalkFullSubtree_includes|].
    2:{ intros h1 h2 q x Hs. apply reach_field. by apply Hs. }
    destruct (includeRootAncestors c).
    + destruct (forEachProc (lockedWalkFullAncestry fuel includeHandler) roots hp1)
        as [[hp2 e2]|] eqn:E2; [|done].
      apply (forEachProc_includes above) in E2 as (-> & S2 & G2 & C2);
        [|apply lockedWalkFullAncestry_includes|].
      2:{ intros h1 h2 q x Hs. apply above_field. by apply Hs. }
      intros [= <-]. split.
      * intros r x Hr Hx Hv _. apply G2. by apply (C1 r).
      * intros _ r a Hr Ha Hv _. apply (C2 r); [done| |].
        { eapply above_field; [|exact Ha]. by apply S1. }
        { by apply (keepsShape_valid hp hp1). }
    + intros [= <-]. split; [|done].
      intros r x Hr Hx Hv _. by apply (C1 r).
  - intros [= <-]. split.
    + intros r x _ _ Hv Hin. by apply includedAt_all.
    + intros _ r a _ _ Hv Hin. by apply includedAt_all.
Qed.

(** After a successful update [Processes()] lists every object of the pid
    map that is a configured root or lies below one along the absolute
    child lists, and, when ancestors of roots are to be included, every
    object of the pid map that lies above a configured root along the
    absolute parent links. *)
Theorem configured_roots_subtrees_listed
    (fuel : nat) (pt pt' : ProcTree) (pruneTombstones : bool)
    (gs : list gops_Process) (roots : list ptr) :
  reachable pt →
  answer (inl gs) (Update fuel pt pruneTombstones) = Some (pt', None) →
  cfgRootProcs pt' = Some roots →
  (∀ (r x : ptr) pid, r ∈ roots → reach (heap pt') r x →
     PidProcess pt' pid = Some x → x ∈ Processes pt') ∧
  (includeRootAncestors (cfg pt) = true →
   ∀ (r a : ptr) pid, r ∈ roots → above (heap pt') r a →
     PidProcess pt' pid = Some a → a ∈ Processes pt').
Proof.
  intros Hr H Hroots. rewrite answer_Update_inl in H.
  pose proof (reachable_keyed _ Hr) as K.
  apply updateWith_cases in H
    as [(? & _ & ? & _)|(r0 & hp5 & hp6 & _ & E1 & E2 & Hs & _ & ->)]; [done|].
  simpl in Hroots. subst r0. simpl in E1.
  rewrite excludeKernelThreads_reachable in E2 by done. injection E2 as <-.
  destruct (markIncluded_includes _ _ _ _ _ _ E1) as [C1 C2].
  set (pt' := finishUpdate pt pruneTombstones gs (Some roots) hp5).
  assert (∀ (x : ptr) pid, PidProcess pt' pid = Some x →
            is_Some (absoluteHeap pt pruneTombstones gs !! x) ∧
            x ∈ sortedProcs pt pruneTombstones gs) as Hmap.
  { intros x pid Hx. split.
    - rewrite (field_eq_is_Some gopsProcess (refreshedHeap pt pruneTombstones gs))
        by apply absoluteHeap_gops.
      eapply keyed_valid; [by apply refreshed_keyed|exact Hx].
    - apply sortedProcs_elem. by exists pid. }
  assert (∀ (x : ptr) pid, PidProcess pt' pid = Some x →
            includedAt hp5 x = true → x ∈ Processes pt') as Hlist.
  { intros x pid Hx Hi. unfold pt'. rewrite finish_Processes by done.
    apply list_elem_of_filter. split.
    - by rewrite (includedAt_field _ _ _
                    (finish_isIncluded pt pruneTombstones gs (Some roots) hp5)).
    - apply finish_absProcs_elem. by exists pid. }
  split.
  - intros r x pid Hin Hreach Hx. apply (Hlist x pid Hx).
    destruct (Hmap x pid Hx) as [Hv Hp]. apply (C1 r); try done.
    eapply reach_field; [|exact Hreach].
    symmetry. by apply finish_absChildProcs.
  - intros Hanc r a pid Hin Habove Ha. apply (Hlist a pid Ha).
    destruct (Hmap a pid Ha) as [Hv Hp]. apply (C2 Hanc r); try done.
    eapply above_field; [|exact Habove].
    symmetry. by apply finish_field_hp4.
Qed.

Lemma configured_roots_subtrees_listed_witness :
  2%nat ∈ Processes (sessionOf 5 [WithRootPid 100] initAB).
Proof.
  destruct (configured_roots_subtrees_listed 5
              (emptySession (NewConfig [WithRootPid 100]))
              (sessionOf 5 [WithRootPid 100] initAB) false initAB [1%nat])
    as [H _].
  - apply reachable_empty.
  - vm_compute. reflexivity.
  - vm_compute. reflexivity.
  - apply (H 1%nat 2%nat 200).
    + apply list_elem_of_here.
    + apply (reach_step _ 1%nat 2%nat 2%nat); [|apply reach_refl].
      vm_compute. apply list_elem_of_here.
    + vm_compute. reflexivity.
Defined.

(** ** An object that is its own child *)

Lemma forEachProc_stuck f (p : ptr) l hp :
  shapely f →
  (∀ hp', keepsShape hp hp' → f p hp' = None) →
  p ∈ l → forEachProc f l hp = None.
Proof.
  intros Hf. revert hp. induction l as [|c l IH]; intros hp Hp Hin.
  - by apply elem_of_nil in Hin.
  - simpl. destruct (f c hp) as [[hp1 [e1|]]|] eqn:E; [| |done].
    + by destruct (Hf _ _ _ _ E).
    + destruct (Hf _ _ _ _ E) as [_ S1].
      apply elem_of_cons in Hin as [->|Hin].
      * rewrite (Hp hp (keepsShape_refl hp)) in E. done.
      * apply IH; [|done]. intros hp' S2. apply Hp. by eapply keepsShape_trans.
Qed.

Lemma lockedWalkFullSubtree_own_child fuel h (p : ptr) hp :
  flagOnly h → p ∈ absChildrenAt hp p → lockedWalkFullSubtree fuel h p hp = None.
Proof.
  intros Hh. revert hp. induction fuel as [|fuel IH]; intros hp Hp; [done|].
  cbn [lockedWalkFullSubtree].
  destruct (Hh p hp) as [He S1]. destruct (h p hp) as [hp1 e1].
  simpl in He, S1. subst e1.
  apply (forEachProc_stuck _ p).
  - by apply lockedWalkFullSubtree_shapely.
  - intros hp' S2. apply IH.
    rewrite (absChildrenAt_field _ _ _ (S2 _ absChildProcs (λ _ _, eq_refl))).
    by rewrite (absChildrenAt_field _ _ _ (S1 _ absChildProcs (λ _ _, eq_refl))).
  - by rewrite (absChildrenAt_field _ _ _ (S1 _ absChildProcs (λ _ _, eq_refl))).
Qed.

Lemma lockedWalkSubtree_readonly fuel h (c : ptr) hp :
  (∀ q hp0, h q hp0 = (hp0, None)) →
  lockedWalkSubtree fuel h c hp = None ∨
  lockedWalkSubtree fuel h c hp = Some (hp, None).
Proof.
  intros Hh. revert c. induction fuel as [|fuel IH]; intros c; [by left|].
  cbn [lockedWalkSubtree]. destruct (includedAt hp c); [|by right].
  rewrite Hh. generalize (lockedChildren hp c). intros l.
  induction l as [|d l IHl]; simpl; [by right|].
  destruct (IH d) as [-> | ->]; [by left|done].
Qed.

Lemma forEachProc_readonly_stuck f (p : ptr) l hp :
  (∀ c, f c hp = None ∨ f c hp = Some (hp, None)) →
  f p hp = None → p ∈ l → forEachProc f l hp = None.
Proof.
  intros Hf Hp. induction l as [|c l IH]; intros Hin.
  - by apply elem_of_nil in Hin.
  - simpl. apply elem_of_cons in Hin as [<-|Hin]; [by rewrite Hp|].
    destruct (Hf c) as [-> | ->]; [done|by apply IH].
Qed.

Lemma WalkSubtree_own_child fuel h (p : ptr) hp :
  (∀ q hp0, h q hp0 = (hp0, None)) →
  includedAt hp p = true → p ∈ Children hp p →
  WalkSubtree fuel h p hp = None.
Proof.
  intros Hh Hi Hp. unfold WalkSubtree.
  induction fuel as [|fuel IH]; [done|].
  cbn [lockedWalkSubtree]. rewrite Hi, Hh.
  apply (forEachProc_readonly_stuck _ p); [|done..].
  intros c. by apply lockedWalkSubtree_readonly.
Qed.

(** A subtree walk started at an object that is among its own children
    never returns, whatever the bound on its depth: neither the full walk
    with a handler that only writes inclusion flags, as the update uses
    it, nor the public filtered walk with a handler that leaves the store
    alone.  The walks of the same file that climb parent links stop at such
    an object. *)
Theorem subtree_walk_from_own_child_never_returns
    (h : ProcessHandler) (hp : Heap) (p : ptr) :
  (flagOnly h → p ∈ absChildrenAt hp p →
     ∀ fuel, lockedWalkFullSubtree fuel h p hp = None) ∧
  ((∀ q hp0, h q hp0 = (hp0, None)) →
     includedAt hp p = true → p ∈ Children hp p →
     ∀ fuel, WalkSubtree fuel h p hp = None).
Proof.
  split.
  - intros Hh Hp fuel. by apply lockedWalkFullSubtree_own_child.
  - intros Hh Hi Hp fuel. by apply WalkSubtree_own_child.
Qed.

Lemma subtree_walk_from_own_child_never_returns_witness :
  (∀ fuel, lockedWalkFullSubtree fuel includeHandler 0%nat
             (heap (sessionOf 5 [] [mk_gops 5 5 "x"; mk_gops 7 0 "y"])) = None) ∧
  (∀ fuel, WalkSubtree fuel (λ _ hp, (hp, None)) 0%nat
             (heap (sessionOf 5 [] [mk_gops 5 5 "x"; mk_gops 7 0 "y"])) = None).
Proof.
  destruct (subtree_walk_from_own_child_never_returns includeHandler
              (heap (sessionOf 5 [] [mk_gops 5 5 "x"; mk_gops 7 0 "y"])) 0%nat)
    as [H1 _].
  destruct (subtree_walk_from_own_child_never_returns (λ _ hp, (hp, None))
              (heap (sessionOf 5 [] [mk_gops 5 5 "x"; mk_gops 7 0 "y"])) 0%nat)
    as [_ H2].
  split.
  - apply H1; [apply includeHandler_flagOnly|].
    vm_compute. apply list_elem_of_here.
  - apply H2.
    + intros q hp0. reflexivity.
    + vm_compute. reflexivity.
    + vm_compute. apply list_elem_of_here.
Defined.

(** * The public walk *)

(** ** The order of a filtered subtree walk *)

(** The concatenation of the lists [f] gives for the objects of [l]. *)
Definition visitEach (f : ptr → option (list ptr)) (l : list ptr)
    : option (list ptr) :=
  foldr (λ c acc, match f c, acc with
                  | Some a, Some b => Some (a ++ b)
                  | _, _ => None
                  end) (Some []) l.

(** The objects a filtered subtree walk calls its handler on, in the order
    of the calls, when no call fails: the object itself when it is included,
    then the lists of its children, child by child. *)
Fixpoint visitOrder (fuel : nat) (hp : Heap) (p : ptr) : option (list ptr) :=
  match fuel with
  | O => None
  | S fuel' =>
      if includedAt hp p then
        match visitEach (visitOrder fuel' hp) (lockedChildren hp p) with
        | Some l => Some (p :: l)
        | None => None
        end
      else Some []
  end.

Definition walkOrder (fuel : nat) (pt : ProcTree) : option (list ptr) :=
  visitEach (visitOrder fuel (heap pt)) (Roots pt).

(** [x] is met going down included child lists from [p], every object on
    the way being included. *)
Inductive ireach (hp : Heap) : ptr → ptr → Prop :=
  | ireach_here (p : ptr) : includedAt hp p = true → ireach hp p p
  | ireach_child (p c x : ptr) :
      includedAt hp p = true → c ∈ lockedChildren hp p →
      ireach hp c x → ireach hp p x.

Lemma forEachProc_app f l1 l2 hp :
  forEachProc f (l1 ++ l2) hp
  = match forEachProc f l1 hp with
    | Some (hp', None) => forEachProc f l2 hp'
    | r => r
    end.
Proof.
  revert hp. induction l1 as [|c l1 IH]; intros hp; [done|].
  simpl. destruct (f c hp) as [[hp1 [e|]]|]; [done| |done]. apply IH.
Qed.

Lemma forEachProc_readonly (h : ProcessHandler) l hp :
  (∀ q hp0, (h q hp0).1 = hp0) →
  ∃ e, forEachProc (λ q hp0, Some (h q hp0)) l hp = Some (hp, e).
Proof.
  intros Hh. induction l as [|c l [e IH]]; [by exists None|].
  simpl. specialize (Hh c hp). destruct (h c hp) as [hp1 [e1|]]; simpl in Hh; subst hp1.
  - by exists (Some e1).
  - by exists e.
Qed.

Lemma visitEach_cons f c l :
  visitEach f (c :: l)
  = match f c, visitEach f l with
    | Some a, Some b => Some (a ++ b)
    | _, _ => None
    end.
Proof. done. Qed.

Lemma visitEach_Some_cons f c l k :
  visitEach f (c :: l) = Some k →
  ∃ a b, f c = Some a ∧ visitEach f l = Some b ∧ k = a ++ b.
Proof.
  rewrite visitEach_cons. destruct (f c) as [a|]; [|done].
  destruct (visitEach f l) as [b|]; [|done]. intros [= <-]. by exists a, b.
Qed.

Lemma visitEach_elem f l k (x : ptr) :
  visitEach f l = Some k →
  x ∈ k ↔ ∃ c a, c ∈ l ∧ f c = Some a ∧ x ∈ a.
Proof.
  revert k. induction l as [|c l IH]; intros k.
  - intros [= <-]. split.
    + by intros ?%elem_of_nil.
    + by intros (c & a & ?%elem_of_nil & _).
  - intros (a & b & Ea & Eb & ->)%visitEach_Some_cons.
    rewrite elem_of_app, (IH b Eb). split.
    + intros [Hx|(c' & a' & Hc & E & Hx)].
      * exists c, a. split; [apply list_elem_of_here|done].
      * exists c', a'. split; [by apply list_elem_of_further|done].
    + intros (c' & a' & Hc & E & Hx). apply elem_of_cons in Hc as [->|Hc].
      * left. congruence.
      * right. by exists c', a'.
Qed.

Lemma visitEach_total f l :
  (∀ c, c ∈ l → is_Some (f c)) → is_Some (visitEach f l).
Proof.
  induction l as [|c l IH]; intros H; [by eexists|].
  rewrite visitEach_cons.
  destruct (H c) as [a ->]; [apply list_elem_of_here|].
  destruct IH as [b ->]; [|by eexists].
  intros c' Hc'. apply H. by apply list_elem_of_further.
Qed.

Lemma visitEach_NoDup f l k :
  NoDup l →
  (∀ c a, c ∈ l → f c = Some a → NoDup a) →
  (∀ c c' a a' (x : ptr), c ∈ l → c' ∈ l → f c = Some a → f c' = Some a' →
     x ∈ a → x ∈ a' → c = c') →
  visitEach f l = Some k → NoDup k.
Proof.
  revert k. induction l as [|c l IH]; intros k Hnd Hone Htwo.
  - intros [= <-]. apply NoDup_nil_2.
  - intros (a & b & Ea & Eb & ->)%visitEach_Some_cons.
    apply NoDup_cons in Hnd as [Hc Hnd].
    apply NoDup_app. split; [|split].
    + apply (Hone c); [apply list_elem_of_here|done].
    + intros x Hxa Hxb.
      apply (visitEach_elem _ _ _ x Eb) in Hxb as (c' & a' & Hc' & Ea' & Hxa').
      assert (c = c') as <-; [|done].
      apply (Htwo c c' a a' x); try done; [apply list_elem_of_here|].
      by apply list_elem_of_further.
    + apply IH; try done.
      * intros c' a' Hc'. apply Hone. by apply list_elem_of_further.
      * intros c1 c2 a1 a2 x H1 H2. apply Htwo; by apply list_elem_of_further.
Qed.

(** The walk with a handler that leaves the store alone is the loop over the
    visit order. *)
Lemma lockedWalkSubtree_visitOrder fuel (h : ProcessHandler) hp (p : ptr) l :
  (∀ q hp0, (h q hp0).1 = hp0) →
  visitOrder fuel hp p = Some l →
  lockedWalkSubtree fuel h p hp = forEachProc (λ q hp0, Some (h q hp0)) l hp.
Proof.
  intros Hh. revert p l. induction fuel as [|fuel IH]; intros p l; [done|].
  cbn [visitOrder lockedWalkSubtree].
  destruct (includedAt hp p); [|by intros [= <-]].
  destruct (visitEach _ _) as [k|] eqn:Ek; [|done]. intros [= <-].
  cbn [forEachProc]. pose proof (Hh p hp) as Hp.
  destruct (h p hp) as [hp1 [e|]]; simpl in Hp; subst hp1; [done|].
  revert k Ek. generalize (lockedChildren hp p). intros cs.
  induction cs as [|c cs IHc]; intros k.
  - by intros [= <-].
  - intros (a & b & Ea & Eb & ->)%visitEach_Some_cons.
    rewrite forEachProc_app. cbn [forEachProc]. rewrite (IH c a Ea).
    destruct (forEachProc_readonly h a hp Hh) as [e ->].
    destruct e; [done|]. by apply IHc.
Qed.

Lemma WalkFromRoots_visitOrder fuel (h : ProcessHandler) hp roots l :
  (∀ q hp0, (h q hp0).1 = hp0) →
  visitEach (visitOrder fuel hp) roots = Some l →
  WalkFromRoots fuel roots h hp = forEachProc (λ q hp0, Some (h q hp0)) l hp.
Proof.
  intros Hh. unfold WalkFromRoots, lockedWalkFromRoots.
  revert l. induction roots as [|c cs IHc]; intros k.
  - by intros [= <-].
  - intros (a & b & Ea & Eb & ->)%visitEach_Some_cons.
    rewrite forEachProc_app. cbn [forEachProc].
    rewrite (lockedWalkSubtree_visitOrder _ _ _ _ _ Hh Ea).
    destruct (forEachProc_readonly h a hp Hh) as [e ->].
    destruct e; [done|]. by apply IHc.
Qed.

Lemma visitOrder_elem fuel hp (p x : ptr) l :
  visitOrder fuel hp p = Some l → x ∈ l ↔ ireach hp p x.
Proof.
  revert p l. induction fuel as [|fuel IH]; intros p l; [done|].
  cbn [visitOrder]. destruct (includedAt hp p) eqn:Hi.
  - destruct (visitEach _ _) as [k|] eqn:Ek; [|done]. intros [= <-].
    rewrite elem_of_cons, (visitEach_elem _ _ _ x Ek). split.
    + intros [->|(c & a & Hc & Ea & Hx)]; [by apply ireach_here|].
      eapply ireach_child; [done..|]. by apply (IH c a).
    + intros Hr. inversion Hr as [? Hi'|? c ? Hi' Hc Hcx]; subst; [by left|].
      right.
      assert (is_Some (visitOrder fuel hp c)) as [a Ea].
      { clear -Ek Hc. revert k Ek. induction Hc as [c cs|c c' cs Hc IHc]; intros k.
        - intros (a & b & Ea & _)%visitEach_Some_cons. by eexists.
        - intros (a & b & _ & Eb & _)%visitEach_Some_cons. by apply (IHc b). }
      exists c, a. split; [done|]. split; [done|]. by apply (IH c a).
  - intros [= <-]. split; [by intros ?%elem_of_nil|].
    intros Hr. inversion Hr; congruence.
Qed.

(** ** Walks over a forest *)

Section forest.
Context (hp : Heap) (D : ptr → Prop) (height : ptr → nat).
Hypothesis Hchild : ∀ q c : ptr, D q → c ∈ lockedChildren hp q →
  D c ∧ parentAt hp c = Some q ∧ (height c < height q)%nat.
Hypothesis Hnodup : ∀ q : ptr, D q → NoDup (lockedChildren hp q).

Lemma visitOrder_total fuel (p : ptr) :
  D p → (height p < fuel)%nat → is_Some (visitOrder fuel hp p).
Proof.
  revert p. induction fuel as [|fuel IH]; intros p Hp Hlt; [lia|].
  cbn [visitOrder]. destruct (includedAt hp p); [|by eexists].
  destruct (visitEach_total (visitOrder fuel hp) (lockedChildren hp p)) as [k ->];
    [|by eexists].
  intros c Hc. destruct (Hchild p c Hp Hc) as (Hd & _ & Hh). apply IH; [done|lia].
Qed.

Lemma ireach_below (p x : ptr) :
  D p → ireach hp p x → D x ∧ (height x ≤ height p)%nat.
Proof.
  intros Hp Hr. induction Hr as [p _|p c x _ Hc _ IH]; [by split|].
  destruct (Hchild p c Hp Hc) as (Hd & _ & Hh).
  destruct (IH Hd). split; [done|lia].
Qed.

Lemma ireach_included (p x : ptr) : ireach hp p x → includedAt hp x = true.
Proof. induction 1; done. Qed.

Lemma ireach_snoc (p q x : ptr) :
  ireach hp p q → x ∈ lockedChildren hp q → includedAt hp x = true →
  ireach hp p x.
Proof.
  intros Hr Hx Hi. induction Hr as [p Hp|p c q Hp Hc _ IH].
  - eapply ireach_child; [done..|]. by apply ireach_here.
  - eapply ireach_child; [done..|]. by apply IH.
Qed.

(** Going down to [x] from an object other than [x] passes the parent of
    [x]. *)
Lemma ireach_last (p x : ptr) :
  D p → ireach hp p x →
  p = x ∨ ∃ q : ptr, D q ∧ ireach hp p q ∧ x ∈ lockedChildren hp q.
Proof.
  intros Hp Hr. induction Hr as [p _|p c x Hi Hc Hr IH]; [by left|].
  right. destruct (Hchild p c Hp Hc) as (Hd & _ & _).
  destruct (IH Hd) as [->|(q & Hq & Hcq & Hx)].
  - exists p. split; [done|]. split; [by apply ireach_here|done].
  - exists q. split; [done|]. split; [|done]. by eapply ireach_child.
Qed.

(** Two objects above the same object lie one above the other. *)
Lemma ireach_comparable (a b x : ptr) :
  D a → D b → ireach hp a x → ireach hp b x → ireach hp a b ∨ ireach hp b a.
Proof.
  intros Ha Hb Hax Hbx. revert b Hb Hbx.
  induction Hax as [a Hi|a c x Hi Hc Hcx IH]; intros b Hb Hbx; [by right|].
  destruct (Hchild a c Ha Hc) as (Hd & Hpar & _).
  destruct (IH Hd b Hb Hbx) as [Hcb|Hbc].
  - left. by eapply ireach_child.
  - destruct (ireach_last b c Hb Hbc) as [->|(q & Hq & Hbq & Hcq)].
    + left. eapply ireach_child; [done..|].
      apply ireach_here. inversion Hcx; done.
    + destruct (Hchild q c Hq Hcq) as (_ & Hpar' & _).
      assert (q = a) as -> by congruence. by right.
Qed.

Lemma visitOrder_NoDup fuel (p : ptr) l :
  D p → visitOrder fuel hp p = Some l → NoDup l.
Proof.
  revert p l. induction fuel as [|fuel IH]; intros p l Hp; [done|].
  cbn [visitOrder]. destruct (includedAt hp p) eqn:Hi;
    [|intros [= <-]; apply NoDup_nil_2].
  destruct (visitEach _ _) as [k|] eqn:Ek; [|done]. intros [= <-].
  apply NoDup_cons. split.
  - intros (c & a & Hc & Ea & Hx)%(visitEach_elem _ _ _ p Ek).
    destruct (Hchild p c Hp Hc) as (Hd & _ & Hh).
    apply (visitOrder_elem _ _ _ _ _ Ea) in Hx.
    destruct (ireach_below c p Hd Hx). lia.
  - apply (visitEach_NoDup _ _ _ (Hnodup p Hp)) in Ek; [done| |].
    + intros c a Hc. apply IH. by destruct (Hchild p c Hp Hc).
    + intros c c' a a' x Hc Hc' Ea Ea' Hx Hx'.
      apply (visitOrder_elem _ _ _ _ _ Ea) in Hx.
      apply (visitOrder_elem _ _ _ _ _ Ea') in Hx'.
      destruct (Hchild p c Hp Hc) as (Hd & Hpar & Hh).
      destruct (Hchild p c' Hp Hc') as (Hd' & Hpar' & Hh').
      assert (∀ u v : ptr, D u → D v → parentAt hp v = Some p →
                (height u < height p)%nat → ireach hp u v → u = v) as Hup.
      { intros u v Hu Hv Hpv Hlt Huv.
        destruct (ireach_last u v Hu Huv) as [->|(q & Hq & Huq & Hvq)]; [done|].
        destruct (Hchild q v Hq Hvq) as (_ & Hpar'' & _).
        assert (q = p) as -> by congruence.
        destruct (ireach_below u p Hu Huq). lia. }
      destruct (ireach_comparable c c' x Hd Hd' Hx Hx') as [H|H].
      * by apply Hup.
      * symmetry. by apply Hup.
Qed.

(** The walk from a list of distinct roots meets every object below them
    once. *)
Lemma visitEach_roots_NoDup fuel roots l :
  NoDup roots →
  (∀ r : ptr, r ∈ roots → D r ∧ lockedParent hp r = None) →
  visitEach (visitOrder fuel hp) roots = Some l → NoDup l.
Proof.
  intros Hnd Hroots. apply visitEach_NoDup; [done| |].
  - intros r a Hr. apply visitOrder_NoDup. by destruct (Hroots r Hr).
  - intros r r' a a' x Hr Hr' Ea Ea' Hx Hx'.
    apply (visitOrder_elem _ _ _ _ _ Ea) in Hx.
    apply (visitOrder_elem _ _ _ _ _ Ea') in Hx'.
    destruct (Hroots r Hr) as [Hd Hp], (Hroots r' Hr') as [Hd' Hp'].
    assert (∀ u v : ptr, D u → D v → lockedParent hp v = None →
              ireach hp u v → u = v) as Hup.
    { intros u v Hu Hv Hpv Huv.
      destruct (ireach_last u v Hu Huv) as [->|(q & Hq & Huq & Hvq)]; [done|].
      destruct (Hchild q v Hq Hvq) as (_ & Hpar & Hlt).
      exfalso. revert Hpv. unfold lockedParent. rewrite Hpar.
      rewrite (ireach_included _ _ Huq).
      case_bool_decide as Hd0; [subst q; lia|done]. }
    destruct (ireach_comparable r r' x Hd Hd' Hx Hx') as [H|H].
    + by apply Hup.
    + symmetry. by apply Hup.
Qed.

End forest.

Lemma visitEach_Some_elem f l k (c : ptr) :
  visitEach f l = Some k → c ∈ l → is_Some (f c).
Proof.
  revert k. induction l as [|c' l IH]; intros k Ek Hc.
  - by apply elem_of_nil in Hc.
  - apply visitEach_Some_cons in Ek as (a & b & Ea & Eb & _).
    apply elem_of_cons in Hc as [->|Hc]; [by eexists|by apply (IH b)].
Qed.

Lemma visitEach_ext f g l k :
  (∀ (c : ptr) a, c ∈ l → f c = Some a → g c = Some a) →
  visitEach f l = Some k → visitEach g l = Some k.
Proof.
  revert k. induction l as [|c l IH]; intros k H; [done|].
  intros (a & b & Ea & Eb & ->)%visitEach_Some_cons.
  rewrite visitEach_cons, (H c a), (IH b); try done.
  - intros c' a' Hc'. apply H. by apply list_elem_of_further.
  - apply list_elem_of_here.
Qed.

(** A larger bound gives the same order. *)
Lemma visitOrder_mono fuel fuel' hp (p : ptr) l :
  (fuel ≤ fuel')%nat → visitOrder fuel hp p = Some l →
  visitOrder fuel' hp p = Some l.
Proof.
  revert fuel' p l. induction fuel as [|fuel IH]; intros fuel' p l Hle; [done|].
  destruct fuel' as [|fuel']; [lia|].
  cbn [visitOrder]. destruct (includedAt hp p); [|done].
  destruct (visitEach (visitOrder fuel hp) _) as [k|] eqn:Ek; [|done].
  intros [= <-].
  rewrite (visitEach_ext (visitOrder fuel hp) (visitOrder fuel' hp) _ k);
    [done| |done].
  intros c a _. apply IH. lia.
Qed.

(** Where an object of the concatenation comes from. *)
Lemma visitEach_lookup f l k (i : nat) (x : ptr) :
  visitEach f l = Some k → k !! i = Some x →
  ∃ (c : ptr) a (off : nat),
    c ∈ l ∧ f c = Some a ∧ (off ≤ i)%nat ∧ a !! (i - off)%nat = Some x ∧
    ∀ (j : nat) y, a !! j = Some y → k !! (off + j)%nat = Some y.
Proof.
  revert k i. induction l as [|c l IH]; intros k i.
  - intros [= <-]. by rewrite lookup_nil.
  - intros (a & b & Ea & Eb & ->)%visitEach_Some_cons Hx.
    apply lookup_app_Some in Hx as [Hx|[Hlen Hx]].
    + exists c, a, 0%nat. split; [apply list_elem_of_here|].
      split; [done|]. split; [lia|]. split; [by rewrite Nat.sub_0_r|].
      intros j y Hy. simpl. by apply lookup_app_l_Some.
    + destruct (IH b _ Eb Hx) as (c' & a' & off & Hc' & Ea' & Hoff & Hx' & Hk).
      exists c', a', (length a + off)%nat.
      split; [by apply list_elem_of_further|]. split; [done|].
      split; [lia|]. split.
      * by replace (i - (length a + off))%nat with (i - length a - off)%nat by lia.
      * intros j y Hy. rewrite lookup_app_r by lia.
        replace (length a + off + j - length a)%nat with (off + j)%nat by lia.
        by apply Hk.
Qed.

Section forestOrder.
Context (hp : Heap) (D : ptr → Prop) (height : ptr → nat).
Hypothesis Hchild : ∀ q c : ptr, D q → c ∈ lockedChildren hp q →
  D c ∧ parentAt hp c = Some q ∧ (height c < height q)%nat.

(** Every object of the order but the first comes after an object that
    holds it as a child. *)
Lemma visitOrder_after_parent fuel (p : ptr) l (i : nat) (x : ptr) :
  visitOrder fuel hp p = Some l → l !! i = Some x →
  (i = 0%nat ∧ x = p) ∨
  ∃ (j : nat) (q : ptr), (j < i)%nat ∧ l !! j = Some q ∧ x ∈ lockedChildren hp q.
Proof.
  revert p l i. induction fuel as [|fuel IH]; intros p l i; [done|].
  cbn [visitOrder]. destruct (includedAt hp p);
    [|intros [= <-]; by rewrite lookup_nil].
  destruct (visitEach _ _) as [k|] eqn:Ek; [|done]. intros [= <-].
  destruct i as [|i]; simpl; [intros [= <-]; by left|].
  intros Hx. right.
  destruct (visitEach_lookup _ _ _ _ _ Ek Hx)
    as (c & a & off & Hc & Ea & Hoff & Hx' & Hk).
  destruct (IH c a _ Ea Hx') as [[Hi ->]|(j & q & Hj & Hq & Hxq)].
  - exists 0%nat, p. split; [lia|]. by split.
  - exists (S (off + j)), q. split; [lia|]. split; [|done]. simpl. by apply Hk.
Qed.

Lemma visitEach_after_parent fuel roots l (i : nat) (x : ptr) :
  visitEach (visitOrder fuel hp) roots = Some l → l !! i = Some x →
  x ∈ roots ∨
  ∃ (j : nat) (q : ptr), (j < i)%nat ∧ l !! j = Some q ∧ x ∈ lockedChildren hp q.
Proof.
  intros El Hx.
  destruct (visitEach_lookup _ _ _ _ _ El Hx)
    as (c & a & off & Hc & Ea & Hoff & Hx' & Hk).
  destruct (visitOrder_after_parent _ _ _ _ _ Ea Hx')
    as [[Hi ->]|(j & q & Hj & Hq & Hxq)]; [by left|].
  right. exists (off + j)%nat, q. split; [lia|]. split; [by apply Hk|done].
Qed.

End forestOrder.

(** ** The walk over a new session *)

Section freshSession.
Context (opts : list ConfigOption) (gs : list gops_Process).
Context (cfgRoots : option (list ptr)) (hp6 : Heap).
Context (height : Z → nat) (bound : nat).
Hypothesis Hshape :
  keepsShape (absoluteHeap (emptySession (NewConfig opts)) false gs) hp6.
Hypothesis Hheight : ∀ g, g ∈ gs → keepRecord (NewConfig opts) g = true →
  (height (Pid g) ≤ bound)%nat ∧
  (PPid g ≠ 0 → (height (Pid g) < height (PPid g))%nat).

Let pt0 := emptySession (NewConfig opts).
Let pt' := finishUpdate pt0 false gs cfgRoots hp6.
Let D (p : ptr) : Prop := ∃ pid, pidMap pt' !! pid = Some p.
Let ht (p : ptr) : nat := height (pidAt (heap pt') p).

Lemma fresh_entry pid (p : ptr) :
  pidMap pt' !! pid = Some p →
  ∃ g, g ∈ gs ∧ keepRecord (NewConfig opts) g = true ∧
       pidAt (heap pt') p = Pid g ∧ ppidAt (heap pt') p = PPid g ∧
       parentAt (refreshedHeap pt0 false gs) p = None.
Proof.
  intros Hp.
  assert (field gopsProcess (heap pt')
          = field gopsProcess (refreshedHeap pt0 false gs)) as Eg
    by (by apply finish_gops).
  destruct (refreshNodes_entry pt0 false gs (emptySession_keyed _) pid p Hp)
    as [(g & Hl & [(Hm & _)|(_ & _ & E)])|(_ & _ & Hm & _)];
    [done| |done].
  apply lastKept_Some in Hl as (Hin & Hk & Hpid).
  exists g. split; [done|]. split; [done|].
  rewrite (pidAt_field _ _ _ Eg), (ppidAt_field _ _ _ Eg).
  unfold pidAt, ppidAt, parentAt, refreshedHeap. by rewrite E.
Qed.


(** The parent link of an object of a new session is the object of its
    parent pid. *)
Lemma fresh_parentAt pid (c q : ptr) :
  pidMap pt' !! pid = Some c → parentAt (heap pt') c = Some q →
  ppidAt (heap pt') c ≠ 0 ∧ pidMap pt' !! ppidAt (heap pt') c = Some q.
Proof.
  intros Hc Hpar. destruct (fresh_entry pid c Hc) as (g & _ & _ & _ & _ & Hnone).
  assert (parentAt (heap pt') c
          = match resolveParent (pidMap pt') (heap pt') c with
            | Some pp => Some pp
            | None => parentAt (refreshedHeap pt0 false gs) c
            end) as E
    by (by apply (finish_parentAt pt0 false gs cfgRoots hp6
                    (emptySession_keyed _) Hshape pid)).
  rewrite E, Hnone in Hpar. clear E.
  destruct (resolveParent (pidMap pt') (heap pt') c) as [pp|] eqn:E; [|done].
  apply resolveParent_Some in E. by injection Hpar as <-.
Qed.

Lemma fresh_keyed : keyed (heap pt') (pidMap pt').
Proof. by apply (finish_keyed pt0 false gs cfgRoots hp6 (emptySession_keyed _)). Qed.

Lemma fresh_height (p : ptr) : D p → (ht p ≤ bound)%nat.
Proof.
  intros [pid Hp]. destruct (fresh_entry pid p Hp) as (g & Hin & Hk & Epid & _).
  unfold ht. rewrite Epid. by destruct (Hheight g Hin Hk).
Qed.

Lemma fresh_parent_higher (c q : ptr) :
  D c → parentAt (heap pt') c = Some q → D q ∧ (ht c < ht q)%nat.
Proof.
  intros [pid Hc] Hpar.
  destruct (fresh_parentAt pid c q Hc Hpar) as [Hnz Hq].
  split; [by eexists|].
  destruct (fresh_entry pid c Hc) as (g & Hin & Hk & Epid & Eppid & _).
  unfold ht. rewrite (keyed_pidAt _ _ _ _ fresh_keyed Hq), Epid, Eppid.
  rewrite Eppid in Hnz. by destruct (Hheight g Hin Hk) as [_ Hlt]; apply Hlt.
Qed.

Lemma fresh_Children (q c : ptr) :
  D q →
  c ∈ lockedChildren (heap pt') q ↔
  D c ∧ includedAt (heap pt') c = true ∧ parentAt (heap pt') c = Some q.
Proof.
  intros [pid Hq].
  assert (lockedChildren (heap pt') q
          = filter (λ p, includedAt (heap pt') p = true ∧
                         parentAt (heap pt') p = Some q) (absProcs pt')) as ->
    by (by apply (finish_Children pt0 false gs cfgRoots hp6
                    (emptySession_keyed _) Hshape pid)).
  rewrite list_elem_of_filter.
  assert (∀ x : ptr, x ∈ absProcs pt' ↔ D x) as ->
    by (intros x; by apply (finish_absProcs_elem pt0 false gs cfgRoots hp6)).
  tauto.
Qed.

Lemma fresh_Children_NoDup (q : ptr) : D q → NoDup (lockedChildren (heap pt') q).
Proof.
  intros [pid Hq].
  assert (lockedChildren (heap pt') q
          = filter (λ p, includedAt (heap pt') p = true ∧
                         parentAt (heap pt') p = Some q) (absProcs pt')) as ->
    by (by apply (finish_Children pt0 false gs cfgRoots hp6
                    (emptySession_keyed _) Hshape pid)).
  apply NoDup_filter. eapply ascending_NoDup.
  by apply (finish_absProcs_ascending pt0 false gs cfgRoots hp6
              (emptySession_keyed _)).
Qed.

Lemma fresh_forest (q c : ptr) :
  D q → c ∈ lockedChildren (heap pt') q →
  D c ∧ parentAt (heap pt') c = Some q ∧ (ht c < ht q)%nat.
Proof.
  intros Hq Hc. apply (fresh_Children q c Hq) in Hc as (Hd & _ & Hpar).
  split; [done|]. split; [done|]. by destruct (fresh_parent_higher c q Hd Hpar).
Qed.

Lemma fresh_Processes_elem (p : ptr) :
  p ∈ Processes pt' ↔ D p ∧ includedAt (heap pt') p = true.
Proof.
  assert (Processes pt'
          = filter (λ p, includedAt (heap pt') p = true) (absProcs pt')) as ->
    by (by apply (finish_Processes pt0 false gs cfgRoots hp6
                    (emptySession_keyed _) Hshape)).
  rewrite list_elem_of_filter.
  assert (∀ x : ptr, x ∈ absProcs pt' ↔ D x) as ->
    by (intros x; by apply (finish_absProcs_elem pt0 false gs cfgRoots hp6)).
  tauto.
Qed.

Lemma fresh_Roots_elem (p : ptr) :
  p ∈ Roots pt' ↔
  D p ∧ includedAt (heap pt') p = true ∧ lockedParent (heap pt') p = None.
Proof.
  assert (Roots pt'
          = filter (λ p, includedAt (heap pt') p = true ∧
                         lockedParent (heap pt') p = None) (absProcs pt')) as ->
    by (by apply (finish_Roots pt0 false gs cfgRoots hp6
                    (emptySession_keyed _) Hshape)).
  rewrite list_elem_of_filter.
  assert (∀ x : ptr, x ∈ absProcs pt' ↔ D x) as ->
    by (intros x; by apply (finish_absProcs_elem pt0 false gs cfgRoots hp6)).
  tauto.
Qed.

Lemma fresh_Roots_NoDup : NoDup (Roots pt').
Proof.
  assert (Roots pt'
          = filter (λ p, includedAt (heap pt') p = true ∧
                         lockedParent (heap pt') p = None) (absProcs pt')) as ->
    by (by apply (finish_Roots pt0 false gs cfgRoots hp6
                    (emptySession_keyed _) Hshape)).
  apply NoDup_filter. eapply ascending_NoDup.
  by apply (finish_absProcs_ascending pt0 false gs cfgRoots hp6
              (emptySession_keyed _)).
Qed.

Lemma fresh_Processes_NoDup : NoDup (Processes pt').
Proof.
  assert (Processes pt'
          = filter (λ p, includedAt (heap pt') p = true) (absProcs pt')) as ->
    by (by apply (finish_Processes pt0 false gs cfgRoots hp6
                    (emptySession_keyed _) Hshape)).
  apply NoDup_filter. eapply ascending_NoDup.
  by apply (finish_absProcs_ascending pt0 false gs cfgRoots hp6
              (emptySession_keyed _)).
Qed.

(** Every listed object lies below a root. *)
Lemma fresh_below_root (n : nat) (x : ptr) :
  (bound - ht x ≤ n)%nat → x ∈ Processes pt' →
  ∃ r : ptr, r ∈ Roots pt' ∧ ireach (heap pt') r x.
Proof.
  revert x. induction n as [|n IH]; intros x Hn Hx;
    apply fresh_Processes_elem in Hx as [Hd Hi];
    pose proof (fresh_height x Hd) as Hb;
    (destruct (lockedParent (heap pt') x) as [q|] eqn:Hpar;
      [|exists x; split; [by apply fresh_Roots_elem|by apply ireach_here]]);
    unfold lockedParent in Hpar;
    (destruct (parentAt (heap pt') x) as [pp|] eqn:Epar; [|done]);
    (case_bool_decide as Hself; [done|]);
    (destruct (includedAt (heap pt') pp) eqn:Hipp; [|done]);
    simpl in Hpar; injection Hpar as <-;
    destruct (fresh_parent_higher x pp Hd Epar) as [Hdp Hlt];
    pose proof (fresh_height pp Hdp) as Hbp.
  - lia.
  - destruct (IH pp) as (r & Hr & Hreach); [lia|by apply fresh_Processes_elem|].
    exists r. split; [done|]. eapply ireach_snoc; [done| |done].
    by apply fresh_Children.
Qed.

Lemma fresh_walkOrder_total fuel : (bound < fuel)%nat → is_Some (walkOrder fuel pt').
Proof.
  intros Hlt. apply visitEach_total. intros r Hr%fresh_Roots_elem.
  destruct Hr as (Hd & _). apply (visitOrder_total _ D ht fresh_forest); [done|].
  pose proof (fresh_height r Hd). lia.
Qed.

Lemma fresh_walkOrder_elem fuel l (x : ptr) :
  walkOrder fuel pt' = Some l → x ∈ l ↔ x ∈ Processes pt'.
Proof.
  intros El. unfold walkOrder in El. rewrite (visitEach_elem _ _ _ x El). split.
  - intros (r & a & Hr & Ea & Hx). apply (visitOrder_elem _ _ _ _ _ Ea) in Hx.
    apply fresh_Roots_elem in Hr as (Hd & _).
    apply fresh_Processes_elem. split.
    + by destruct (ireach_below _ D ht fresh_forest r x Hd Hx).
    + by eapply ireach_included.
  - intros Hx. destruct (fresh_below_root (bound - ht x) x) as (r & Hr & Hreach);
      [lia|done|].
    destruct (visitEach_Some_elem _ _ _ r El Hr) as [a Ea].
    exists r, a. split; [done|]. split; [done|].
    by apply (visitOrder_elem _ _ _ _ _ Ea).
Qed.

Lemma fresh_walkOrder_Permutation fuel l :
  walkOrder fuel pt' = Some l → l ≡ₚ Processes pt'.
Proof.
  intros El. apply NoDup_Permutation.
  - apply (visitEach_roots_NoDup (heap pt') D ht fresh_forest fresh_Children_NoDup
             fuel (Roots pt')); [apply fresh_Roots_NoDup| |done].
    intros r Hr%fresh_Roots_elem. tauto.
  - apply fresh_Processes_NoDup.
  - intros x. by apply (fresh_walkOrder_elem fuel).
Qed.

Lemma fresh_walkOrder_after_parent fuel l (i : nat) (x q : ptr) :
  walkOrder fuel pt' = Some l → l !! i = Some x →
  lockedParent (heap pt') x = Some q →
  ∃ j : nat, (j < i)%nat ∧ l !! j = Some q.
Proof.
  intros El Hx Hpar.
  destruct (visitEach_after_parent (heap pt') _ _ _ _ _ El Hx)
    as [Hr|(j & q' & Hj & Hq' & Hxq)].
  - apply fresh_Roots_elem in Hr as (_ & _ & Hnone). congruence.
  - exists j. split; [done|].
    assert (D q') as Hd.
    { apply list_elem_of_lookup_2 in Hq'.
      apply (fresh_walkOrder_elem fuel l q' El) in Hq'.
      by apply fresh_Processes_elem in Hq' as [? _]. }
    apply (fresh_Children q' x Hd) in Hxq as (_ & _ & Epar).
    unfold lockedParent in Hpar. rewrite Epar in Hpar.
    destruct (bool_decide (q' = x) || negb (includedAt (heap pt') q')); [done|].
    by injection Hpar as <-.
Qed.

(** The absolute tree of a new session descends in height as well. *)
Lemma fresh_absolute_forest (q c : ptr) :
  D q → c ∈ absChildrenAt (absoluteHeap pt0 false gs) q →
  D c ∧ (ht c < ht q)%nat.
Proof.
  intros [pid Hq] Hc.
  assert (field absChildProcs (heap pt')
          = field absChildProcs (absoluteHeap pt0 false gs)) as Ec
    by (by apply (finish_absChildProcs pt0 false gs cfgRoots hp6)).
  rewrite <- (absChildrenAt_field _ _ _ Ec) in Hc.
  apply (finish_absChildren pt0 false gs cfgRoots hp6 (emptySession_keyed _)
           Hshape pid q Hq) in Hc as [Hd Hres].
  split; [done|]. destruct Hd as [pid' Hc].
  apply resolveParent_Some in Hres as [Hnz Hq'].
  destruct (fresh_entry pid' c Hc) as (g & Hin & Hk & Epid & Eppid & _).
  assert (pidAt (heap pt') q = PPid g) as Eq.
  { rewrite <- Eppid. by apply (keyed_pidAt _ (pidMap pt')); [apply fresh_keyed|]. }
  assert (PPid g ≠ 0) as Hnz' by (by rewrite <- Eppid).
  unfold ht. rewrite Eq, Epid. by destruct (Hheight g Hin Hk) as [_ Hlt]; apply Hlt.
Qed.

Lemma fresh_absolute_parent (c q : ptr) :
  D c → parentAt (absoluteHeap pt0 false gs) c = Some q →
  D q ∧ (ht c < ht q)%nat.
Proof.
  intros Hd Hpar. apply fresh_parent_higher; [done|].
  assert (field parentProc (heap pt')
          = field parentProc (linkedHeap pt0 false gs)) as E1
    by (by apply (finish_parentProc pt0 false gs cfgRoots hp6)).
  assert (field parentProc (absoluteHeap pt0 false gs)
          = field parentProc (linkedHeap pt0 false gs)) as E2
    by (by apply absoluteHeap_field).
  rewrite (parentAt_field _ _ _ E1). by rewrite <- (parentAt_field _ _ _ E2).
Qed.

End freshSession.

(** After [New] on an enumeration whose kept records form a forest (the
    parent pid of every record is higher than its pid in some bounded
    height), a walk with a handler that leaves the store alone returns for
    every bound above the height.  It calls the handler on every listed
    object once, in one order that does not depend on the handler, every
    object after the object its [Parent()] answers, and stops at the first
    error. *)
Theorem Walk_visits_each_listed_once
    (fuel : nat) (opts : list ConfigOption) (gs : list gops_Process)
    (pt' : ProcTree) (height : Z → nat) (bound : nat) :
  answer (inl gs) (New fuel opts) = Some (inl pt') →
  (∀ g, g ∈ gs → keepRecord (NewConfig opts) g = true →
     (height (Pid g) ≤ bound)%nat ∧
     (PPid g ≠ 0 → (height (Pid g) < height (PPid g))%nat)) →
  ∃ l : list ptr,
    l ≡ₚ Processes pt' ∧
    (∀ (i : nat) (x q : ptr),
       l !! i = Some x → lockedParent (heap pt') x = Some q →
       ∃ j : nat, (j < i)%nat ∧ l !! j = Some q) ∧
    (∀ (fuel' : nat) (h : ProcessHandler),
       (bound < fuel')%nat → (∀ q hp0, (h q hp0).1 = hp0) →
       Walk fuel' pt' h
       = forEachProc (λ q hp0, Some (h q hp0)) l (heap pt')).
Proof.
  intros Hnew%New_Update Hheight. rewrite answer_Update_inl in Hnew.
  apply updateWith_cases in Hnew
    as [(pid & _ & ? & _)|(r & hp5 & hp6 & _ & _ & _ & Hs & _ & ->)]; [done|].
  destruct (fresh_walkOrder_total opts gs r hp6 height bound Hs Hheight (S bound))
    as [l El]; [lia|].
  exists l. split; [|split].
  - by apply (fresh_walkOrder_Permutation opts gs r hp6 height bound Hs Hheight
                (S bound)).
  - intros i x q. by apply (fresh_walkOrder_after_parent opts gs r hp6 height bound Hs Hheight
                           (S bound)).
  - intros fuel' h Hlt Hh. unfold Walk. apply WalkFromRoots_visitOrder; [done|].
    unfold walkOrder in El. revert El. apply visitEach_ext.
    intros c a _. apply visitOrder_mono. lia.
Qed.

(** A height for the pids of [initAB]. *)
Definition initAB_height (pid : Z) : nat :=
  if decide (pid = 1) then 2%nat else if decide (pid = 100) then 1%nat else 0%nat.

Lemma Walk_visits_each_listed_once_witness :
  ∃ l : list ptr,
    l ≡ₚ Processes (sessionOf 5 [] initAB) ∧
    (∀ (i : nat) (x q : ptr),
       l !! i = Some x → lockedParent (heap (sessionOf 5 [] initAB)) x = Some q →
       ∃ j : nat, (j < i)%nat ∧ l !! j = Some q) ∧
    (∀ (fuel' : nat) (h : ProcessHandler),
       (2 < fuel')%nat → (∀ q hp0, (h q hp0).1 = hp0) →
       Walk fuel' (sessionOf 5 [] initAB) h
       = forEachProc (λ q hp0, Some (h q hp0)) l
           (heap (sessionOf 5 [] initAB))).
Proof.
  assert (answer (inl initAB) (New 5 []) = Some (inl (sessionOf 5 [] initAB)))
    as H1 by (vm_compute; reflexivity).
  assert (∀ g, g ∈ initAB → keepRecord (NewConfig []) g = true →
            (initAB_height (Pid g) ≤ 2)%nat ∧
            (PPid g ≠ 0 → (initAB_height (Pid g) < initAB_height (PPid g))%nat))
    as H2.
  { intros g Hg _. unfold initAB in Hg.
    rewrite !elem_of_cons, elem_of_nil in Hg.
    destruct Hg as [->|[->|[->|[]]]]; vm_compute; (split; [lia|intros; lia]). }
  exact (Walk_visits_each_listed_once 5 [] initAB (sessionOf 5 [] initAB)
           initAB_height 2%nat H1 H2).
Defined.

(** ** Construction over a forest *)

Lemma forEachProc_ext (f g : ptr → Heap → option (Heap * option error)) l hp r :
  (∀ c hp' r', f c hp' = Some r' → g c hp' = Some r') →
  forEachProc f l hp = Some r → forEachProc g l hp = Some r.
Proof.
  intros Hfg. revert hp. induction l as [|c l IH]; intros hp; [done|].
  simpl. destruct (f c hp) as [[hp1 e1]|] eqn:E; [|done].
  rewrite (Hfg _ _ _ E). destruct e1; [done|]. apply IH.
Qed.

(** A larger bound does not change what a walk returns. *)
Lemma lockedWalkFullSubtree_mono fuel fuel' h (p : ptr) hp r :
  (fuel ≤ fuel')%nat →
  lockedWalkFullSubtree fuel h p hp = Some r →
  lockedWalkFullSubtree fuel' h p hp = Some r.
Proof.
  revert fuel' p hp r. induction fuel as [|fuel IH]; intros fuel' p hp r Hle; [done|].
  destruct fuel' as [|fuel']; [lia|]. cbn [lockedWalkFullSubtree].
  destruct (h p hp) as [hp1 [e|]]; [done|].
  apply forEachProc_ext. intros c hp' r'. apply IH. lia.
Qed.

Lemma lockedWalkFullAncestry_mono fuel fuel' h (p : ptr) hp r :
  (fuel ≤ fuel')%nat →
  lockedWalkFullAncestry fuel h p hp = Some r →
  lockedWalkFullAncestry fuel' h p hp = Some r.
Proof.
  revert fuel' p hp r. induction fuel as [|fuel IH]; intros fuel' p hp r Hle; [done|].
  destruct fuel' as [|fuel']; [lia|]. cbn [lockedWalkFullAncestry].
  destruct (h p hp) as [hp1 [e|]]; [done|].
  destruct (parentAt hp1 p) as [pp|]; [|done].
  case_bool_decide; [|done]. apply IH. lia.
Qed.

Lemma markIncluded_mono fuel fuel' c cfgRoots procs hp r :
  (fuel ≤ fuel')%nat →
  markIncluded fuel c cfgRoots procs hp = Some r →
  markIncluded fuel' c cfgRoots procs hp = Some r.
Proof.
  intros Hle. unfold markIncluded, lockedFullWalkFromRoots.
  destruct (fixedRootsOf c); [|done].
  destruct (forEachProc (lockedWalkFullSubtree fuel includeHandler) cfgRoots hp)
    as [[hp1 e1]|] eqn:E1; [|done].
  rewrite (forEachProc_ext _ (lockedWalkFullSubtree fuel' includeHandler)
             _ _ _ (λ c hp' r', lockedWalkFullSubtree_mono fuel fuel' _ c hp' r' Hle)
             E1).
  destruct e1; [done|]. destruct (includeRootAncestors c); [|done].
  destruct (forEachProc (lockedWalkFullAncestry fuel includeHandler) cfgRoots hp1)
    as [[hp2 e2]|] eqn:E2; [|done].
  by rewrite (forEachProc_ext _ (lockedWalkFullAncestry fuel' includeHandler)
             _ _ _ (λ c hp' r', lockedWalkFullAncestry_mono fuel fuel' _ c hp' r' Hle)
             E2).
Qed.

Lemma excludeKernelThreads_mono fuel fuel' c m hp r :
  (fuel ≤ fuel')%nat →
  excludeKernelThreads fuel c m hp = Some r →
  excludeKernelThreads fuel' c m hp = Some r.
Proof.
  intros Hle. unfold excludeKernelThreads.
  destruct (includeKernelThreads c); [done|].
  destruct (m !! kthreadPid) as [kProc|]; [|done].
  destruct (lockedWalkFullSubtree fuel excludeHandler kProc hp)
    as [[hp1 e1]|] eqn:E1; [|done].
  by rewrite (lockedWalkFullSubtree_mono fuel fuel' _ _ _ _ Hle E1).
Qed.

Lemma updateWith_mono fuel fuel' pt pruneTombstones gs r :
  (fuel ≤ fuel')%nat →
  updateWith fuel pt pruneTombstones gs = Some r →
  updateWith fuel' pt pruneTombstones gs = Some r.
Proof.
  intros Hle. unfold updateWith.
  destruct (refreshNodes pt pruneTombstones gs) as [hp2 m].
  destruct (resolveConfigured pt m) as [cfgRoots|pid]; [|done].
  destruct (linkAll m hp2) as [[hp3 procs] roots].
  destruct (markIncluded fuel _ _ _ _) as [[hp5 e5]|] eqn:E1; [|done].
  rewrite (markIncluded_mono _ _ _ _ _ _ _ Hle E1).
  destruct e5; [done|].
  destruct (excludeKernelThreads fuel _ _ _) as [[hp6 e6]|] eqn:E2; [|done].
  by rewrite (excludeKernelThreads_mono _ _ _ _ _ _ Hle E2).
Qed.

Section returns.
Context (hp0 : Heap) (D : ptr → Prop) (ht : ptr → nat) (bound : nat).
Hypothesis Habs : ∀ q c : ptr, D q → c ∈ absChildrenAt hp0 q →
  D c ∧ (ht c < ht q)%nat.
Hypothesis Hpar : ∀ c q : ptr, D c → parentAt hp0 c = Some q →
  D q ∧ (ht c < ht q)%nat.
Hypothesis Hbound : ∀ p : ptr, D p → (ht p ≤ bound)%nat.

Lemma forEachProc_returns f l hp :
  shapely f →
  (∀ (c : ptr) hp', c ∈ l → keepsShape hp hp' → is_Some (f c hp')) →
  is_Some (forEachProc f l hp).
Proof.
  intros Hf. revert hp. induction l as [|c l IH]; intros hp Hall; [by eexists|].
  simpl. destruct (Hall c hp) as [[hp1 e1] E];
    [apply list_elem_of_here|apply keepsShape_refl|].
  rewrite E. destruct (Hf _ _ _ _ E) as [-> S1]. apply IH.
  intros c' hp' Hc' S2. apply Hall; [by apply list_elem_of_further|].
  by eapply keepsShape_trans.
Qed.

Lemma lockedWalkFullSubtree_returns fuel h (p : ptr) hp :
  flagOnly h → keepsShape hp0 hp → D p → (ht p < fuel)%nat →
  is_Some (lockedWalkFullSubtree fuel h p hp).
Proof.
  intros Hh. revert p hp. induction fuel as [|fuel IH]; intros p hp S0 Hp Hlt; [lia|].
  cbn [lockedWalkFullSubtree].
  destruct (Hh p hp) as [He S1]. destruct (h p hp) as [hp1 e1].
  simpl in He, S1. subst e1.
  assert (keepsShape hp0 hp1) as S01 by (by eapply keepsShape_trans).
  apply forEachProc_returns; [by apply lockedWalkFullSubtree_shapely|].
  intros c hp' Hc S2.
  rewrite (absChildrenAt_field _ _ _ (S01 _ absChildProcs (λ _ _, eq_refl))) in Hc.
  destruct (Habs p c Hp Hc) as [Hd Hh'].
  apply IH; [by eapply keepsShape_trans|done|lia].
Qed.

Lemma lockedWalkFullAncestry_returns fuel h (p : ptr) hp :
  flagOnly h → keepsShape hp0 hp → D p → (bound - ht p < fuel)%nat →
  is_Some (lockedWalkFullAncestry fuel h p hp).
Proof.
  intros Hh. revert p hp. induction fuel as [|fuel IH]; intros p hp S0 Hp Hlt; [lia|].
  cbn [lockedWalkFullAncestry].
  destruct (Hh p hp) as [He S1]. destruct (h p hp) as [hp1 e1].
  simpl in He, S1. subst e1.
  assert (keepsShape hp0 hp1) as S01 by (by eapply keepsShape_trans).
  rewrite (parentAt_field _ _ _ (S01 _ parentProc (λ _ _, eq_refl))).
  destruct (parentAt hp0 p) as [pp|] eqn:E; [|by eexists].
  case_bool_decide; [|by eexists].
  destruct (Hpar p pp Hp E) as [Hd Hh'].
  pose proof (Hbound pp Hd). apply IH; [done..|lia].
Qed.

Lemma markIncluded_returns fuel c cfgRoots procs :
  (∀ r : ptr, r ∈ cfgRoots → D r) → (bound < fuel)%nat →
  is_Some (markIncluded fuel c cfgRoots procs hp0).
Proof.
  intros Hroots Hlt. unfold markIncluded. destruct (fixedRootsOf c); [|by eexists].
  destruct (forEachProc_returns (lockedWalkFullSubtree fuel includeHandler)
              cfgRoots hp0) as [[hp1 e1] E1].
  { apply lockedWalkFullSubtree_shapely, includeHandler_flagOnly. }
  { intros r hp' Hr S1. apply lockedWalkFullSubtree_returns;
      [apply includeHandler_flagOnly|done|by apply Hroots|].
    pose proof (Hbound r (Hroots r Hr)). lia. }
  unfold lockedFullWalkFromRoots. rewrite E1.
  destruct (forEachProc_shapely _
              (lockedWalkFullSubtree_shapely fuel includeHandler
                 includeHandler_flagOnly) cfgRoots 0%nat _ _ _ E1) as [-> S1].
  destruct (includeRootAncestors c); [|by eexists].
  assert (is_Some (forEachProc (lockedWalkFullAncestry fuel includeHandler)
                     cfgRoots hp1)) as [[hp2 e2] E2].
  { clear E1. revert hp1 S1. induction cfgRoots as [|r rs IH]; intros hp1 S1;
      [by eexists|].
    simpl.
    destruct (lockedWalkFullAncestry_returns fuel includeHandler r hp1)
      as [[hp2 e2] E2];
      [apply includeHandler_flagOnly|done|apply Hroots, list_elem_of_here|lia|].
    rewrite E2.
    destruct (lockedWalkFullAncestry_shapely fuel includeHandler
                includeHandler_flagOnly _ _ _ _ E2) as [-> S2].
    apply IH; [|by eapply keepsShape_trans].
    intros r' Hr'. by apply Hroots, list_elem_of_further. }
  rewrite E2.
  destruct (forEachProc_shapely _
              (lockedWalkFullAncestry_shapely fuel includeHandler
                 includeHandler_flagOnly) cfgRoots 0%nat _ _ _ E2) as [-> S2].
  by eexists.
Qed.

End returns.

Lemma resolveRoots_found m pids acc procs (p : ptr) :
  resolveRoots m pids acc = inl procs → p ∈ procs →
  p ∈ acc ∨ ∃ pid, pid ∈ pids ∧ m !! pid = Some p.
Proof.
  revert acc. induction pids as [|pid pids IH]; intros acc; simpl.
  - intros [= <-]. by left.
  - destruct (m !! pid) as [q|] eqn:E; [|done]. intros Hr Hp.
    destruct (IH _ Hr Hp) as [Hin|(pid' & Hin & Hm)].
    + apply elem_of_app in Hin as [Hin|Hin]; [by left|right].
      apply list_elem_of_singleton in Hin as ->. exists pid.
      split; [apply list_elem_of_here|done].
    + right. exists pid'. split; [by apply list_elem_of_further|done].
Qed.

Lemma updateWith_returns_on_forest opts gs (height : Z → nat) (bound fuel : nat) :
  (∀ g, g ∈ gs → keepRecord (NewConfig opts) g = true →
     (height (Pid g) ≤ bound)%nat ∧
     (PPid g ≠ 0 → (height (Pid g) < height (PPid g))%nat)) →
  (bound < fuel)%nat →
  is_Some (updateWith fuel (emptySession (NewConfig opts)) false gs).
Proof.
  intros Hheight Hlt.
  set (pt0 := emptySession (NewConfig opts)).
  set (hp4 := absoluteHeap pt0 false gs).
  set (m := refreshedMap pt0 false gs).
  destruct (resolveConfigured pt0 m) as [cfgRoots|pid] eqn:Hres;
    [|rewrite (updateWith_missing pt0 false gs fuel pid Hres); by eexists].
  assert (keepsShape hp4 hp4) as Hs by apply keepsShape_refl.
  destruct (markIncluded_returns hp4 (λ p : ptr, ∃ pid, m !! pid = Some p)
              (λ p : ptr, height (pidAt (heap (finishUpdate pt0 false gs None hp4)) p))
              bound
              (fresh_absolute_forest opts gs None hp4 height bound Hs Hheight)
              (fresh_absolute_parent opts gs None hp4 height bound Hs Hheight)
              (fresh_height opts gs None hp4 height bound Hs Hheight)
              fuel (cfg pt0) (default [] cfgRoots) (sortedProcs pt0 false gs))
    as [[hp5 e5] E5]; [|done|].
  { intros r Hr. unfold resolveConfigured in Hres.
    destruct (fixedRootsOf (cfg pt0)); simpl in Hres.
    - destruct (resolveRoots _ _ _) as [procs|] eqn:Er; [|done].
      injection Hres as <-. simpl in Hr.
      destruct (resolveRoots_found _ _ _ _ r Er Hr) as [Hin|(pid & _ & Hm)].
      + by apply elem_of_nil in Hin.
      + by exists pid.
    - injection Hres as <-. by apply elem_of_nil in Hr. }
  destruct (markIncluded_shape _ _ _ _ _ _ _ E5) as [-> _].
  rewrite (updateWith_finish pt0 false gs fuel cfgRoots hp5 hp5 Hres E5); [by eexists|].
  apply excludeKernelThreads_reachable, reachable_empty.
Qed.

(** [New] returns on every enumeration whose kept records form a forest
    (the parent pid of every record is higher than its pid in some bounded
    height): above the height of the forest the bound on the walks does not
    matter, and the only error it can return is that of a configured root
    pid without an object. *)
Theorem New_returns_on_forest
    (opts : list ConfigOption) (gs : list gops_Process)
    (height : Z → nat) (bound : nat) :
  (∀ g, g ∈ gs → keepRecord (NewConfig opts) g = true →
     (height (Pid g) ≤ bound)%nat ∧
     (PPid g ≠ 0 → (height (Pid g) < height (PPid g))%nat)) →
  ∃ r : ProcTree + error,
    (∀ fuel : nat, (bound < fuel)%nat → answer (inl gs) (New fuel opts) = Some r) ∧
    (∀ e, r = inr e →
       ∃ pid, e = ConfiguredRootMissing pid ∧ pid ∈ rootPids (NewConfig opts) ∧
              ∀ g, g ∈ gs → keepRecord (NewConfig opts) g = true → Pid g ≠ pid).
Proof.
  intros Hheight.
  destruct (updateWith_returns_on_forest opts gs height bound (S bound) Hheight)
    as [[pt' e] E]; [lia|].
  exists (match e with Some err => inr err | None => inl pt' end). split.
  - intros fuel Hlt. rewrite answer_New, answer_Update_inl.
    rewrite (updateWith_mono (S bound) fuel _ _ _ _ ltac:(lia) E).
    by destruct e.
  - intros err Herr. destruct e as [e|]; [|done]. injection Herr as ->.
    apply updateWith_cases in E
      as [(pid & Hres & He & _)|(? & ? & ? & _ & _ & _ & _ & ? & _)]; [|done].
    injection He as ->. exists pid. split; [done|].
    unfold resolveConfigured in Hres.
    destruct (fixedRootsOf _); simpl in Hres; [|done].
    destruct (resolveRoots _ _ _) as [|pid'] eqn:Er; [done|].
    injection Hres as ->.
    assert (∀ m pids acc pid, resolveRoots m pids acc = inr pid →
              pid ∈ pids ∧ m !! pid = None) as Hmiss.
    { clear. intros m pids. induction pids as [|p pids IH]; intros acc pid; [done|].
      simpl. destruct (m !! p) eqn:Em.
      - intros [??]%IH. split; [by apply list_elem_of_further|done].
      - intros [= <-]. split; [apply list_elem_of_here|done]. }
    destruct (Hmiss _ _ _ _ Er) as [Hin Hm]. split; [done|].
    apply lastKept_None.
    destruct (lastKept (NewConfig opts) gs pid) as [g|] eqn:El; [|done].
    exfalso.
    destruct (refreshNodes_created (emptySession (NewConfig opts)) false gs
                (emptySession_keyed _) pid g) as (p & Hp & _); [done|done|].
    unfold refreshedMap in Hm. simpl in Hm, Hp. congruence.
Qed.

Lemma New_returns_on_forest_witness :
  ∃ r : ProcTree + error,
    (∀ fuel : nat, (2 < fuel)%nat →
       answer (inl initAB) (New fuel [WithRootPid 100; WithRootAncestors]) = Some r) ∧
    (∀ e, r = inr e →
       ∃ pid, e = ConfiguredRootMissing pid ∧
              pid ∈ rootPids (NewConfig [WithRootPid 100; WithRootAncestors]) ∧
              ∀ g, g ∈ initAB →
                   keepRecord (NewConfig [WithRootPid 100; WithRootAncestors]) g = true →
                   Pid g ≠ pid).
Proof.
  assert (∀ g, g ∈ initAB →
               keepRecord (NewConfig [WithRootPid 100; WithRootAncestors]) g = true →
            (initAB_height (Pid g) ≤ 2)%nat ∧
            (PPid g ≠ 0 → (initAB_height (Pid g) < initAB_height (PPid g))%nat))
    as H2.
  { intros g Hg _. unfold initAB in Hg.
    rewrite !elem_of_cons, elem_of_nil in Hg.
    destruct Hg as [->|[->|[->|[]]]]; vm_compute; (split; [lia|intros; lia]). }
  exact (New_returns_on_forest [WithRootPid 100; WithRootAncestors] initAB
           initAB_height 2%nat H2).
Defined.

(** * The original parent *)

Lemma lockedOrigParent_field hp hp' (p : ptr) :
  field origParentProc hp' = field origParentProc hp →
  lockedOrigParent hp' p = lockedOrigParent hp p.
Proof.
  intros E. apply (field_eq_lookup _ _ _ p) in E. unfold lockedOrigParent.
  destruct (hp' !! p), (hp !! p); simplify_eq/=; congruence.
Qed.

Lemma lockedOrigParent_alter f (p q : ptr) hp :
  lockedOrigParent (alter f p hp) q
  = if decide (p = q) then hp !! q ≫= (λ n, origParentProc (f n))
    else lockedOrigParent hp q.
Proof.
  unfold lockedOrigParent. rewrite list_lookup_alter.
  case_decide; [subst|done]. by destruct (hp !! q).
Qed.

(** The linking loop gives an original parent to the objects that have none
    and a parent to link to, and leaves the others alone. *)
Lemma foldl_linkOne_origParent m hp0 es (q : ptr) :
  is_Some (hp0 !! q) →
  lockedOrigParent (foldl (linkOne m) (hp0, [], []) es).1.1 q
  = match lockedOrigParent hp0 q with
    | Some o => Some o
    | None => if decide (q ∈ es.*2) then resolveParent m hp0 q else None
    end.
Proof.
  intros Hq. induction es as [|e es IH] using rev_ind.
  - cbn [foldl fst]. destruct (lockedOrigParent hp0 q); [done|].
    case_decide as Hin; [|done]. by apply elem_of_nil in Hin.
  - rewrite foldl_snoc.
    assert (field gopsProcess (foldl (linkOne m) (hp0, [], []) es).1.1
            = field gopsProcess hp0) as Hg
      by (by apply (foldl_linkOne_field gopsProcess m es (hp0, [], []))).
    destruct (foldl (linkOne m) (hp0, [], []) es) as [[hp procs] roots].
    simpl in IH, Hg.
    rewrite linkOne_unfold, (resolveParent_field _ _ _ _ Hg).
    assert (is_Some (hp !! q)) as [n Hn]
      by (by rewrite (field_eq_is_Some _ _ _ _ Hg)).
    rewrite fmap_app. simpl.
    destruct (resolveParent m hp0 e.2) as [pp|] eqn:Hres; simpl.
    + rewrite lockedOrigParent_alter. destruct (decide (e.2 = q)) as [<-|Hne].
      * rewrite (decide_True (P := e.2 ∈ es.*2 ++ [e.2]))
          by (apply elem_of_app; right; apply list_elem_of_here).
        rewrite Hres.
        assert (alter (push_absChild e.2) pp hp !! e.2 ≫=
                  (λ n0, origParentProc (adopt pp n0))
                = match lockedOrigParent hp e.2 with
                  | Some o => Some o
                  | None => Some pp
                  end) as ->.
        { rewrite (lookup_alter_Some _ _ _ _ _ Hn). unfold lockedOrigParent.
          rewrite Hn. simpl.
          destruct (decide (pp = e.2)); simpl; by destruct (origParentProc n). }
        rewrite IH. destruct (lockedOrigParent hp0 e.2); [done|].
        case_decide; [by rewrite Hres|done].
      * assert (lockedOrigParent (alter (push_absChild e.2) pp hp) q
                = lockedOrigParent hp q) as ->.
        { apply lockedOrigParent_field. by apply field_alter. }
        rewrite IH. destruct (lockedOrigParent hp0 q); [done|].
        destruct (decide (q ∈ es.*2)) as [Hin|Hout].
        -- by rewrite decide_True by (apply elem_of_app; by left).
        -- rewrite decide_False; [done|].
           intros [?|?%list_elem_of_singleton]%elem_of_app; congruence.
    + rewrite IH. destruct (lockedOrigParent hp0 q); [done|].
      destruct (decide (e.2 = q)) as [<-|Hne].
      * rewrite (decide_True (P := e.2 ∈ es.*2 ++ [e.2]))
          by (apply elem_of_app; right; apply list_elem_of_here).
        rewrite Hres. by case_decide.
      * destruct (decide (q ∈ es.*2)) as [Hin|Hout].
        -- by rewrite decide_True by (apply elem_of_app; by left).
        -- rewrite decide_False; [done|].
           intros [?|?%list_elem_of_singleton]%elem_of_app; congruence.
Qed.

(** The reconciliation never touches an original parent. *)
Lemma refreshed_origParent pt pruneTombstones gs pid (p : ptr) :
  keyed (heap pt) (pidMap pt) →
  refreshedMap pt pruneTombstones gs !! pid = Some p →
  lockedOrigParent (refreshedHeap pt pruneTombstones gs) p
  = lockedOrigParent (heap pt) p.
Proof.
  intros Hk Hp. unfold lockedOrigParent.
  destruct (refreshNodes_entry pt pruneTombstones gs Hk pid p Hp)
    as [(g & _ & [(_ & n & -> & E)|(_ & Hlen & E)])|(_ & _ & _ & n & -> & E)];
    unfold refreshedHeap; rewrite E; try done.
  by rewrite (lookup_ge_None_2 (heap pt) p).
Qed.

(** [OrigParent()] is set once.  An update that gets an enumeration leaves the
    original parent of an object of the pid map as it was when it had one;
    when it had none (a new object has none) a successful update sets
    it to the object of the parent pid, if that pid is not 0 and has an
    object, and an update that fails for a missing root sets nothing. *)
Theorem OrigParent_set_once
    (fuel : nat) (pt pt' : ProcTree) (pruneTombstones : bool)
    (gs : list gops_Process) (e : option error) (pid : Z) (p : ptr) :
  reachable pt →
  answer (inl gs) (Update fuel pt pruneTombstones) = Some (pt', e) →
  PidProcess pt' pid = Some p →
  (∀ o, lockedOrigParent (heap pt) p = Some o →
        lockedOrigParent (heap pt') p = Some o) ∧
  (lockedOrigParent (heap pt) p = None →
   lockedOrigParent (heap pt') p
   = match e with
     | None => resolveParent (pidMap pt') (heap pt') p
     | Some _ => None
     end).
Proof.
  intros Hr Hup Hp. rewrite answer_Update_inl in Hup.
  pose proof (reachable_keyed _ Hr) as Hk.
  assert (lockedOrigParent (heap pt') p
          = match lockedOrigParent (heap pt) p with
            | Some o => Some o
            | None => match e with
                      | None => resolveParent (pidMap pt') (heap pt') p
                      | Some _ => None
                      end
            end) as E; [|rewrite E; split; [by intros o ->|by intros ->]].
  apply updateWith_cases in Hup
    as [(pid' & _ & -> & ->)|(r & hp5 & hp6 & _ & _ & _ & Hs & -> & ->)].
  - simpl. simpl in Hp. unfold PidProcess in Hp. simpl in Hp.
    rewrite (refreshed_origParent pt pruneTombstones gs pid p Hk Hp).
    by destruct (lockedOrigParent (heap pt) p).
  - unfold PidProcess in Hp.
    assert (refreshedMap pt pruneTombstones gs !! pid = Some p) as Hm by exact Hp.
    rewrite (finish_resolveParent pt pruneTombstones gs r hp6 Hs).
    assert (field origParentProc
              (heap (finishUpdate pt pruneTombstones gs r hp6))
            = field origParentProc (linkedHeap pt pruneTombstones gs)) as Ef.
    { rewrite (finish_field_hp4 pt pruneTombstones gs r hp6 Hs) by done.
      by apply absoluteHeap_field. }
    rewrite (lockedOrigParent_field _ _ _ Ef).
    unfold linkedHeap, linkAll.
    rewrite foldl_linkOne_origParent
      by (eapply keyed_valid; [by apply refreshed_keyed|done]).
    rewrite (refreshed_origParent pt pruneTombstones gs pid p Hk Hm).
    rewrite decide_True; [done|]. apply elem_of_map_values. by exists pid.
Qed.

Lemma OrigParent_set_once_witness :
  lockedOrigParent
    (heap (sessionAfter 5 (sessionOf 5 [] initAB) false
             [mk_gops 1 0 "init"; mk_gops 200 1 "b"])) 2%nat
  = Some 1%nat.
Proof.
  assert (answer (inl [mk_gops 1 0 "init"; mk_gops 200 1 "b"])
            (Update 5 (sessionOf 5 [] initAB) false)
          = Some (sessionAfter 5 (sessionOf 5 [] initAB) false
                    [mk_gops 1 0 "init"; mk_gops 200 1 "b"], None)) as H1
    by (vm_compute; reflexivity).
  assert (PidProcess (sessionAfter 5 (sessionOf 5 [] initAB) false
                        [mk_gops 1 0 "init"; mk_gops 200 1 "b"]) 200
          = Some 2%nat) as H2 by (vm_compute; reflexivity).
  assert (lockedOrigParent (heap (sessionOf 5 [] initAB)) 2%nat = Some 1%nat)
    as H3 by (vm_compute; reflexivity).
  destruct (OrigParent_set_once 5 (sessionOf 5 [] initAB) _ false _ None 200
              2%nat (sessionOf_reachable 5 [] initAB) H1 H2) as [Hkeep _].
  exact (Hkeep 1%nat H3).
Defined.

(** * What is listed under configured roots *)

(** A step of an inclusion walk sets no flag outside [covers hp p]. *)
Definition only (covers : Heap → ptr → ptr → Prop)
    (f : ptr → Heap → option (Heap * option error)) : Prop :=
  ∀ p hp hp' e x, f p hp = Some (hp', e) →
    includedAt hp' x = true → includedAt hp x = true ∨ covers hp p x.

Lemma includeHandler_only (p x : ptr) hp :
  includedAt (includeHandler p hp).1 x = true → includedAt hp x = true ∨ x = p.
Proof.
  unfold includeHandler. simpl. destruct (includedAt hp p) eqn:E; [by left|].
  rewrite includedAt_alter_set. case_decide; [by right|by left].
Qed.

Lemma forEachProc_only covers f l hp hp' e (x : ptr) :
  only covers f → shapely f →
  (∀ h1 h2 p y, keepsShape h1 h2 → covers h2 p y → covers h1 p y) →
  forEachProc f l hp = Some (hp', e) →
  includedAt hp' x = true →
  includedAt hp x = true ∨ ∃ p, p ∈ l ∧ covers hp p x.
Proof.
  intros Hf Hs Hcov. revert hp. induction l as [|c l IH]; intros hp; simpl.
  - intros [= <- <-]. by left.
  - destruct (f c hp) as [[hp1 [e1|]]|] eqn:E; [| |done].
    + by destruct (Hs _ _ _ _ E).
    + destruct (Hs _ _ _ _ E) as [_ S1]. intros Hrest Hx.
      destruct (IH _ Hrest Hx) as [Hx1|(p & Hin & Hc)].
      * destruct (Hf _ _ _ _ _ E Hx1) as [?|Hc]; [by left|right].
        exists c. split; [apply list_elem_of_here|done].
      * right. exists p. split; [by apply list_elem_of_further|].
        by eapply Hcov.
Qed.

Lemma lockedWalkFullSubtree_only fuel :
  only reach (lockedWalkFullSubtree fuel includeHandler).
Proof.
  induction fuel as [|fuel IH]; intros p hp hp' e x; [done|].
  cbn [lockedWalkFullSubtree].
  destruct (includeHandler_flagOnly p hp) as [He S1].
  pose proof (includeHandler_only p x hp) as O1.
  destruct (includeHandler p hp) as [hp1 e1]. simpl in He, S1, O1. subst e1.
  intros Hw Hx.
  apply (forEachProc_only reach _ _ _ _ _ x IH) in Hw
    as [Hx1|(c & Hc & Hreach)]; [| | | |done].
  - destruct (O1 Hx1) as [?| ->]; [by left|right; apply reach_refl].
  - right. eapply reach_step.
    + by rewrite <- (absChildrenAt_field _ _ _ (S1 _ absChildProcs (λ _ _, eq_refl))).
    + eapply reach_field; [|exact Hreach].
      symmetry. by apply S1.
  - apply lockedWalkFullSubtree_shapely, includeHandler_flagOnly.
  - intros h1 h2 q y Hs. apply reach_field. symmetry. by apply Hs.
Qed.

Lemma lockedWalkFullAncestry_only fuel :
  only above (lockedWalkFullAncestry fuel includeHandler).
Proof.
  induction fuel as [|fuel IH]; intros p hp hp' e x; [done|].
  cbn [lockedWalkFullAncestry].
  destruct (includeHandler_flagOnly p hp) as [He S1].
  pose proof (includeHandler_only p x hp) as O1.
  destruct (includeHandler p hp) as [hp1 e1]. simpl in He, S1, O1. subst e1.
  assert (parentAt hp1 p = parentAt hp p) as Ep
    by (apply parentAt_field; by apply S1).
  rewrite Ep.
  assert (includedAt hp1 x = true → includedAt hp x = true ∨ above hp p x) as O2.
  { intros Hx1. destruct (O1 Hx1) as [?| ->]; [by left|right]. by exists 0%nat. }
  destruct (parentAt hp p) as [pp|] eqn:E; [case_bool_decide as Hne|].
  - intros Hw Hx. destruct (IH _ _ _ _ _ Hw Hx) as [Hx1|[k Hk]]; [by apply O2|].
    right. exists (S k). rewrite nthParent_S, E. simpl.
    rewrite <- Hk. symmetry. apply nthParent_field. by apply S1.
  - intros [= <- <-]. apply O2.
  - intros [= <- <-]. apply O2.
Qed.

Lemma foldl_set_isIncluded_grows procs hp :
  grows hp (foldl (λ hp proc, alter (set_isIncluded true) proc hp) hp procs).
Proof.
  revert hp. induction procs as [|p procs IH]; intros hp; [apply grows_refl|].
  simpl. eapply grows_trans; [|apply IH].
  intros q Hq. rewrite includedAt_alter_set. case_decide; [|done].
  unfold includedAt in Hq. by destruct (hp !! q).
Qed.

Lemma markIncluded_grows fuel c roots procs hp hp5 :
  markIncluded fuel c roots procs hp = Some (hp5, None) → grows hp hp5.
Proof.
  unfold markIncluded. destruct (fixedRootsOf c).
  - unfold lockedFullWalkFromRoots.
    destruct (forEachProc (lockedWalkFullSubtree fuel includeHandler) roots hp)
      as [[hp1 e1]|] eqn:E1; [|done].
    apply (forEachProc_includes reach) in E1 as (-> & S1 & G1 & _);
      [|apply lockedWalkFullSubtree_includes|].
    2:{ intros h1 h2 q x Hs. apply reach_field. by apply Hs. }
    destruct (includeRootAncestors c).
    + destruct (forEachProc (lockedWalkFullAncestry fuel includeHandler) roots hp1)
        as [[hp2 e2]|] eqn:E2; [|done].
      apply (forEachProc_includes above) in E2 as (-> & S2 & G2 & _);
        [|apply lockedWalkFullAncestry_includes|].
      2:{ intros h1 h2 q x Hs. apply above_field. by apply Hs. }
      intros [= <-]. by eapply grows_trans.
    + by intros [= <-].
  - intros [= <-]. apply foldl_set_isIncluded_grows.
Qed.

Lemma markIncluded_only fuel c roots procs hp hp5 (x : ptr) :
  fixedRootsOf c = true →
  markIncluded fuel c roots procs hp = Some (hp5, None) →
  includedAt hp5 x = true →
  includedAt hp x = true ∨ (∃ r, r ∈ roots ∧ reach hp r x) ∨
  (includeRootAncestors c = true ∧ ∃ r, r ∈ roots ∧ above hp r x).
Proof.
  unfold markIncluded. intros ->. unfold lockedFullWalkFromRoots.
  destruct (forEachProc (lockedWalkFullSubtree fuel includeHandler) roots hp)
    as [[hp1 e1]|] eqn:E1; [|done].
  pose proof E1 as E1'.
  apply (forEachProc_includes reach) in E1' as (-> & S1 & _ & _);
    [|apply lockedWalkFullSubtree_includes|].
  2:{ intros h1 h2 q y Hs. apply reach_field. by apply Hs. }
  assert (includedAt hp1 x = true →
          includedAt hp x = true ∨ (∃ r, r ∈ roots ∧ reach hp r x)) as O1.
  { intros Hx1.
    apply (forEachProc_only reach _ _ _ _ _ x (lockedWalkFullSubtree_only fuel)) in E1;
      [done| | |done].
    - apply lockedWalkFullSubtree_shapely, includeHandler_flagOnly.
    - intros h1 h2 q y Hs. apply reach_field. symmetry. by apply Hs. }
  destruct (includeRootAncestors c).
  - destruct (forEachProc (lockedWalkFullAncestry fuel includeHandler) roots hp1)
      as [[hp2 e2]|] eqn:E2; [|done].
    pose proof E2 as E2'.
    apply (forEachProc_includes above) in E2' as (-> & S2 & _ & _);
      [|apply lockedWalkFullAncestry_includes|].
    2:{ intros h1 h2 q y Hs. apply above_field. by apply Hs. }
    intros [= <-] Hx.
    apply (forEachProc_only above _ _ _ _ _ x (lockedWalkFullAncestry_only fuel)) in E2
      as [Hx1|(r & Hr & Ha)]; [| | | |done].
    + destruct (O1 Hx1) as [?|?]; [by left|right; by left].
    + right. right. split; [done|]. exists r. split; [done|].
      eapply above_field; [|exact Ha]. symmetry. by apply S1.
    + apply lockedWalkFullAncestry_shapely, includeHandler_flagOnly.
    + intros h1 h2 q y Hs. apply above_field. symmetry. by apply Hs.
  - intros [= <-] Hx. destruct (O1 Hx) as [?|?]; [by left|right; by left].
Qed.

(** The reconciliation keeps the inclusion flag of an old object; a new one
    starts included exactly when no roots are configured. *)
Lemma refreshed_includedAt pt pruneTombstones gs pid (p : ptr) :
  keyed (heap pt) (pidMap pt) →
  refreshedMap pt pruneTombstones gs !! pid = Some p →
  includedAt (refreshedHeap pt pruneTombstones gs) p
  = if decide (p < length (heap pt))%nat then includedAt (heap pt) p
    else negb (fixedRootsOf (cfg pt)).
Proof.
  intros Hk Hp. unfold includedAt at 1 2.
  destruct (refreshNodes_entry pt pruneTombstones gs Hk pid p Hp)
    as [(g & _ & [(_ & n & Hn & E)|(_ & Hlen & E)])|(_ & _ & _ & n & Hn & E)];
    unfold refreshedHeap; rewrite E; simpl.
  - rewrite decide_True by (by eapply lookup_lt_Some). by rewrite Hn.
  - rewrite decide_False by lia. done.
  - rewrite decide_True by (by eapply lookup_lt_Some). by rewrite Hn.
Qed.

(** With configured roots, the objects of the pid map a successful update
    leaves included are those included before, those at or below a
    configured root, and, with ancestors included, those above one. *)
Lemma included_with_configured_roots
    (fuel : nat) (pt pt' : ProcTree) (pruneTombstones : bool)
    (gs : list gops_Process) (roots : list ptr) (pid : Z) (p : ptr) :
  reachable pt →
  rootPids (cfg pt) ≠ [] →
  answer (inl gs) (Update fuel pt pruneTombstones) = Some (pt', None) →
  cfgRootProcs pt' = Some roots →
  PidProcess pt' pid = Some p →
  includedAt (heap pt') p = true ↔
    includedAt (heap pt) p = true ∨
    (∃ r, r ∈ roots ∧ reach (heap pt') r p) ∨
    (includeRootAncestors (cfg pt) = true ∧ ∃ r, r ∈ roots ∧ above (heap pt') r p).
Proof.
  intros Hr Hfixed H Hroots Hp. rewrite answer_Update_inl in H.
  pose proof (reachable_keyed _ Hr) as K.
  assert (fixedRootsOf (cfg pt) = true) as Hf.
  { unfold fixedRootsOf. apply bool_decide_eq_true.
    destruct (rootPids (cfg pt)); [done|simpl; lia]. }
  apply updateWith_cases in H
    as [(? & _ & ? & _)|(r0 & hp5 & hp6 & _ & E1 & E2 & Hs & _ & ->)]; [done|].
  simpl in Hroots. subst r0. simpl in E1.
  rewrite excludeKernelThreads_reachable in E2 by done. injection E2 as <-.
  unfold PidProcess in Hp.
  assert (refreshedMap pt pruneTombstones gs !! pid = Some p) as Hm by exact Hp.
  set (hp4 := absoluteHeap pt pruneTombstones gs) in *.
  set (pt' := finishUpdate pt pruneTombstones gs (Some roots) hp5) in *.
  assert (is_Some (hp4 !! p)) as Hv.
  { unfold hp4.
    rewrite (field_eq_is_Some gopsProcess (refreshedHeap pt pruneTombstones gs))
      by apply absoluteHeap_gops.
    eapply keyed_valid; [by apply refreshed_keyed|exact Hm]. }
  assert (p ∈ sortedProcs pt pruneTombstones gs) as Hsorted
    by (apply sortedProcs_elem; by exists pid).
  rewrite (includedAt_field _ _ _
             (finish_isIncluded pt pruneTombstones gs (Some roots) hp5)).
  assert (field absChildProcs (heap pt') = field absChildProcs hp4) as Ec
    by (by apply finish_absChildProcs).
  assert (field parentProc (heap pt') = field parentProc hp4) as Epar
    by (by apply finish_field_hp4).
  assert (includedAt hp4 p = true ↔ includedAt (heap pt) p = true) as Hold.
  { assert (includedAt hp4 p
            = includedAt (refreshedHeap pt pruneTombstones gs) p) as ->.
    { apply includedAt_field. unfold hp4.
      rewrite absoluteHeap_field by done. by apply linkedHeap_field. }
    rewrite (refreshed_includedAt pt pruneTombstones gs pid p K Hm), Hf.
    case_decide as Hlt; [done|]. simpl. split; [done|].
    unfold includedAt. rewrite lookup_ge_None_2 by lia. done. }
  destruct (markIncluded_includes _ _ _ _ _ _ E1) as [C1 C2].
  split.
  - intros Hi.
    destruct (markIncluded_only _ _ _ _ _ _ p Hf E1 Hi)
      as [Hi4|[(r & Hin & Hreach)|(Hanc & r & Hin & Habove)]].
    + left. by apply Hold.
    + right. left. exists r. split; [done|]. by eapply reach_field.
    + right. right. split; [done|]. exists r. split; [done|].
      by eapply above_field.
  - intros [Hi|[(r & Hin & Hreach)|(Hanc & r & Hin & Habove)]].
    + apply (markIncluded_grows _ _ _ _ _ _ E1). by apply Hold.
    + apply (C1 r); try done. eapply reach_field; [|exact Hreach]. by symmetry.
    + apply (C2 Hanc r); try done. eapply above_field; [|exact Habove]. by symmetry.
Qed.

(** With configured roots, a successful update lists an object of the pid
    map exactly when it was included before the update, or is a configured
    root or below one along the absolute child lists, or, with ancestors of
    roots included, is above a configured root along the parent links.
    Inclusion is never withdrawn: an object that was listed stays listed
    for as long as it stays in the pid map, wherever it is in the tree. *)
Theorem Processes_with_configured_roots
    (fuel : nat) (pt pt' : ProcTree) (pruneTombstones : bool)
    (gs : list gops_Process) (roots : list ptr) (pid : Z) (p : ptr) :
  reachable pt →
  rootPids (cfg pt) ≠ [] →
  answer (inl gs) (Update fuel pt pruneTombstones) = Some (pt', None) →
  cfgRootProcs pt' = Some roots →
  PidProcess pt' pid = Some p →
  p ∈ Processes pt' ↔
    includedAt (heap pt) p = true ∨
    (∃ r, r ∈ roots ∧ reach (heap pt') r p) ∨
    (includeRootAncestors (cfg pt) = true ∧ ∃ r, r ∈ roots ∧ above (heap pt') r p).
Proof.
  intros Hr Hfixed H Hroots Hp.
  rewrite <- (included_with_configured_roots fuel pt pt' pruneTombstones gs
                roots pid p Hr Hfixed H Hroots Hp).
  rewrite answer_Update_inl in H.
  pose proof (reachable_keyed _ Hr) as K.
  apply updateWith_cases in H
    as [(? & _ & ? & _)|(r0 & hp5 & hp6 & _ & _ & _ & Hs & _ & ->)]; [done|].
  rewrite finish_Processes by done. rewrite list_elem_of_filter.
  split; [tauto|]. intros Hi. split; [done|].
  apply finish_absProcs_elem. by exists pid.
Qed.

Lemma Processes_with_configured_roots_witness :
  2%nat ∈ Processes
    (sessionAfter 5 (sessionOf 5 [WithRootPid 100] initAB) false
       [mk_gops 1 0 "init"; mk_gops 100 1 "a"; mk_gops 200 1 "b"]).
Proof.
  assert (rootPids (cfg (sessionOf 5 [WithRootPid 100] initAB)) ≠ []) as H0
    by (vm_compute; discriminate).
  assert (answer (inl [mk_gops 1 0 "init"; mk_gops 100 1 "a"; mk_gops 200 1 "b"])
            (Update 5 (sessionOf 5 [WithRootPid 100] initAB) false)
          = Some (sessionAfter 5 (sessionOf 5 [WithRootPid 100] initAB) false
                    [mk_gops 1 0 "init"; mk_gops 100 1 "a"; mk_gops 200 1 "b"],
                  None)) as H1
    by (vm_compute; reflexivity).
  assert (cfgRootProcs
            (sessionAfter 5 (sessionOf 5 [WithRootPid 100] initAB) false
               [mk_gops 1 0 "init"; mk_gops 100 1 "a"; mk_gops 200 1 "b"])
          = Some [1%nat]) as H2 by (vm_compute; reflexivity).
  assert (PidProcess
            (sessionAfter 5 (sessionOf 5 [WithRootPid 100] initAB) false
               [mk_gops 1 0 "init"; mk_gops 100 1 "a"; mk_gops 200 1 "b"]) 200
          = Some 2%nat) as H3 by (vm_compute; reflexivity).
  assert (includedAt (heap (sessionOf 5 [WithRootPid 100] initAB)) 2%nat = true)
    as H4 by (vm_compute; reflexivity).
  destruct (Processes_with_configured_roots 5
              (sessionOf 5 [WithRootPid 100] initAB) _ false _ [1%nat] 200 2%nat
              (sessionOf_reachable 5 [WithRootPid 100] initAB) H0 H1 H2 H3)
    as [_ Hback].
  exact (Hback (or_introl H4)).
Defined.

(** * The roots of a session with one configured root *)

Lemma nthParent_snoc hp k (p x q : ptr) :
  nthParent hp k p = Some x → parentAt hp x = Some q →
  nthParent hp (S k) p = Some q.
Proof.
  revert p. induction k as [|k IH]; intros p.
  - intros [= ->] Hq. by rewrite nthParent_S, Hq.
  - intros Hx Hq. rewrite nthParent_S in Hx. rewrite nthParent_S.
    destruct (parentAt hp p) as [pp|]; [|done]. by apply IH.
Qed.

(** A parent chain has one top. *)
Lemma nthParent_top_unique hp k k' (p a x : ptr) :
  nthParent hp k p = Some a → parentAt hp a = None →
  nthParent hp k' p = Some x → parentAt hp x = None → x = a.
Proof.
  revert p k'. induction k as [|k IH]; intros p k'.
  - intros [= ->] Ha. destruct k' as [|k']; [by intros [= ->]|].
    by rewrite nthParent_S, Ha.
  - rewrite nthParent_S. destruct (parentAt hp p) as [pp|] eqn:E; [|done].
    simpl. intros Hk Ha. destruct k' as [|k'].
    + intros [= <-]. congruence.
    + rewrite nthParent_S, E. simpl. by apply IH.
Qed.

Lemma reach_last hp (r x : ptr) :
  reach hp r x → x = r ∨ ∃ q : ptr, reach hp r q ∧ x ∈ absChildrenAt hp q.
Proof.
  induction 1 as [p|p c x Hc Hr IH]; [by left|]. right.
  destruct IH as [->|(q & Hq & Hx)].
  - exists p. split; [apply reach_refl|done].
  - exists q. split; [by eapply reach_step|done].
Qed.

Lemma singleton_by_elem (l : list ptr) (r : ptr) :
  NoDup l → (∀ x, x ∈ l ↔ x = r) → l = [r].
Proof.
  intros Hnd H. destruct l as [|a l].
  - pose proof (proj2 (H r) eq_refl) as Hin. by apply elem_of_nil in Hin.
  - assert (a = r) as -> by (apply H, list_elem_of_here).
    destruct l as [|b l]; [done|].
    apply NoDup_cons in Hnd as [Hnotin _].
    assert (b = r) as -> by (apply H, list_elem_of_further, list_elem_of_here).
    destruct Hnotin. apply list_elem_of_here.
Qed.

Section freshRoots.
Context (opts : list ConfigOption) (gs : list gops_Process).
Context (cfgRoots : option (list ptr)) (hp6 : Heap).
Context (height : Z → nat) (bound : nat).
Hypothesis Hshape :
  keepsShape (absoluteHeap (emptySession (NewConfig opts)) false gs) hp6.
Hypothesis Hheight : ∀ g, g ∈ gs → keepRecord (NewConfig opts) g = true →
  (height (Pid g) ≤ bound)%nat ∧
  (PPid g ≠ 0 → (height (Pid g) < height (PPid g))%nat).

Let pt0 := emptySession (NewConfig opts).
Let pt' := finishUpdate pt0 false gs cfgRoots hp6.
Let D (p : ptr) : Prop := ∃ pid, pidMap pt' !! pid = Some p.
Let ht (p : ptr) : nat := height (pidAt (heap pt') p).

Lemma fresh_parent_up (c q : ptr) :
  D c → parentAt (heap pt') c = Some q → D q ∧ (ht c < ht q)%nat.
Proof. by apply (fresh_parent_higher opts gs cfgRoots hp6 height bound). Qed.

Lemma fresh_bounded (p : ptr) : D p → (ht p ≤ bound)%nat.
Proof. by apply (fresh_height opts gs cfgRoots hp6 height bound). Qed.

Lemma fresh_absChild (q c : ptr) :
  D q → c ∈ absChildrenAt (heap pt') q →
  D c ∧ parentAt (heap pt') c = Some q ∧ (ht c < ht q)%nat.
Proof.
  intros [pid Hq] Hc.
  apply (finish_absChildren pt0 false gs cfgRoots hp6 (emptySession_keyed _)
           Hshape pid q Hq) in Hc as [[pid' Hc] Hres].
  assert (parentAt (heap pt') c = Some q) as Hpar.
  { assert (parentAt (heap pt') c
            = match resolveParent (pidMap pt') (heap pt') c with
              | Some pp => Some pp
              | None => parentAt (refreshedHeap pt0 false gs) c
              end) as ->
      by (by apply (finish_parentAt pt0 false gs cfgRoots hp6
                      (emptySession_keyed _) Hshape pid')).
    assert (resolveParent (pidMap pt') (heap pt') c = Some q) as -> by exact Hres.
    done. }
  assert (D c) as Hd by (by exists pid').
  split; [done|]. split; [done|]. by destruct (fresh_parent_up c q Hd Hpar).
Qed.

Lemma fresh_reach_below (r x : ptr) :
  D r → reach (heap pt') r x → D x ∧ (ht x ≤ ht r)%nat.
Proof.
  intros Hr Hreach. induction Hreach as [p|p c x Hc _ IH]; [by split|].
  destruct (fresh_absChild p c Hr Hc) as (Hd & _ & Hlt).
  destruct (IH Hd). split; [done|lia].
Qed.

Lemma fresh_above (k : nat) (r a : ptr) :
  D r → nthParent (heap pt') k r = Some a → D a ∧ (ht r + k ≤ ht a)%nat.
Proof.
  revert r. induction k as [|k IH]; intros r Hr.
  - intros [= <-]. split; [done|lia].
  - rewrite nthParent_S. destruct (parentAt (heap pt') r) as [q|] eqn:E; [|done].
    simpl. intros Hk. destruct (fresh_parent_up r q Hr E) as [Hq Hlt].
    destruct (IH q Hq Hk). split; [done|lia].
Qed.

Lemma fresh_top (n : nat) (r : ptr) :
  D r → (bound - ht r ≤ n)%nat →
  ∃ (k : nat) (a : ptr),
    nthParent (heap pt') k r = Some a ∧ parentAt (heap pt') a = None.
Proof.
  revert r. induction n as [|n IH]; intros r Hr Hn;
    (destruct (parentAt (heap pt') r) as [q|] eqn:E; [|by exists 0%nat, r]);
    destruct (fresh_parent_up r q Hr E) as [Hq Hlt];
    pose proof (fresh_bounded q Hq).
  - lia.
  - destruct (IH q Hq) as (k & a & Hk & Ha); [lia|].
    exists (S k), a. split; [|done]. by rewrite nthParent_S, E.
Qed.

(** The tests of [Roots()] on an object whose parent is included. *)
Lemma fresh_not_root (x q : ptr) :
  D x → parentAt (heap pt') x = Some q → includedAt (heap pt') q = true →
  x ∉ Roots pt'.
Proof.
  intros Hx Hpar Hi Hroot.
  apply (fresh_Roots_elem opts gs cfgRoots hp6 height bound Hshape) in Hroot
    as (_ & _ & Hnone).
  assert (lockedParent (heap pt') x = None) as Hnone' by exact Hnone.
  clear Hnone. rename Hnone' into Hnone.
  destruct (fresh_parent_up x q Hx Hpar) as [_ Hlt].
  unfold lockedParent in Hnone. rewrite Hpar, Hi in Hnone.
  case_bool_decide as Heq; [|done]. subst q. lia.
Qed.

End freshRoots.

(** [New] with one configured root, on an enumeration whose kept records
    form a forest.  Without ancestors [Roots()] is the configured root
    alone.  With ancestors of roots included, [Roots()] is the top of the
    parent chain of the configured root alone, every object of that chain
    is listed, and the configured root is a root only when it is that
    top. *)
Theorem Roots_with_one_configured_root
    (fuel : nat) (opts : list ConfigOption) (gs : list gops_Process)
    (pt' : ProcTree) (height : Z → nat) (bound : nat) (rp : Z) (r : ptr) :
  answer (inl gs) (New fuel opts) = Some (inl pt') →
  (∀ g, g ∈ gs → keepRecord (NewConfig opts) g = true →
     (height (Pid g) ≤ bound)%nat ∧
     (PPid g ≠ 0 → (height (Pid g) < height (PPid g))%nat)) →
  rootPids (NewConfig opts) = [rp] →
  PidProcess pt' rp = Some r →
  (includeRootAncestors (NewConfig opts) = false → Roots pt' = [r]) ∧
  (includeRootAncestors (NewConfig opts) = true →
   ∃ (k : nat) (a : ptr),
     nthParent (heap pt') k r = Some a ∧ parentAt (heap pt') a = None ∧
     Roots pt' = [a] ∧
     ∀ (j : nat) (x : ptr), nthParent (heap pt') j r = Some x → x ∈ Processes pt').
Proof.
  intros Hnew Hheight Hrp Hr. apply New_Update in Hnew.
  set (pt0 := emptySession (NewConfig opts)) in *.
  assert (rootPids (cfg pt0) ≠ []) as Hfixed by (simpl; by rewrite Hrp).
  assert (cfgRootProcs pt' = Some [r]) as Hroots.
  { pose proof Hnew as H. rewrite answer_Update_inl in H.
    apply updateWith_cases in H
      as [(? & _ & ? & _)|(r0 & hp5 & hp6 & Hres & _ & _ & _ & _ & ->)]; [done|].
    simpl. unfold PidProcess in Hr. simpl in Hr.
    unfold resolveConfigured, fixedRootsOf in Hres. simpl in Hres.
    rewrite Hrp in Hres. simpl in Hres. rewrite Hr in Hres. simpl in Hres.
    by injection Hres as <-. }
  assert (∀ x pid, PidProcess pt' pid = Some x →
            includedAt (heap pt') x = true ↔
            reach (heap pt') r x ∨
            (includeRootAncestors (NewConfig opts) = true ∧ above (heap pt') r x))
    as Hinc.
  { intros x pid Hx.
    rewrite (included_with_configured_roots fuel pt0 pt' false gs [r] pid x
               (reachable_empty _) Hfixed Hnew Hroots Hx).
    split.
    - intros [Hold|[(r' & Hin & Hreach)|(Hanc & r' & Hin & Habove)]].
      + done.
      + apply list_elem_of_singleton in Hin as ->. by left.
      + apply list_elem_of_singleton in Hin as ->. by right.
    - intros [Hreach|[Hanc Habove]].
      + right. left. exists r. split; [apply list_elem_of_here|done].
      + right. right. split; [done|]. exists r. split; [apply list_elem_of_here|done]. }
  rewrite answer_Update_inl in Hnew.
  apply updateWith_cases in Hnew
    as [(? & _ & ? & _)|(r0 & hp5 & hp6 & _ & _ & _ & Hs & _ & ->)]; [done|].
  set (pt' := finishUpdate pt0 false gs r0 hp6) in *.
  set (D := λ p : ptr, ∃ pid, pidMap pt' !! pid = Some p).
  set (ht := λ p : ptr, height (pidAt (heap pt') p)).
  assert (∀ p : ptr, p ∈ Roots pt' ↔
            D p ∧ includedAt (heap pt') p = true ∧ lockedParent (heap pt') p = None)
    as Relem by apply (fresh_Roots_elem opts gs r0 hp6 height bound Hs).
  assert (NoDup (Roots pt')) as Rnd by apply (fresh_Roots_NoDup opts gs r0 hp6 Hs).
  assert (∀ p : ptr, p ∈ Processes pt' ↔ D p ∧ includedAt (heap pt') p = true)
    as Pelem by apply (fresh_Processes_elem opts gs r0 hp6 height bound Hs).
  assert (∀ c q : ptr, D c → parentAt (heap pt') c = Some q →
            D q ∧ (ht c < ht q)%nat) as Pup
    by apply (fresh_parent_up opts gs r0 hp6 height bound Hs Hheight).
  assert (∀ q c : ptr, D q → c ∈ absChildrenAt (heap pt') q →
            D c ∧ parentAt (heap pt') c = Some q ∧ (ht c < ht q)%nat) as Hch
    by apply (fresh_absChild opts gs r0 hp6 height bound Hs Hheight).
  assert (∀ r x : ptr, D r → reach (heap pt') r x → D x ∧ (ht x ≤ ht r)%nat)
    as Hbelow by apply (fresh_reach_below opts gs r0 hp6 height bound Hs Hheight).
  assert (∀ (k : nat) (r a : ptr), D r → nthParent (heap pt') k r = Some a →
            D a ∧ (ht r + k ≤ ht a)%nat) as Habove
    by apply (fresh_above opts gs r0 hp6 height bound Hs Hheight).
  assert (∀ x q : ptr, D x → parentAt (heap pt') x = Some q →
            includedAt (heap pt') q = true → x ∉ Roots pt') as Hnr
    by apply (fresh_not_root opts gs r0 hp6 height bound Hs Hheight).
  assert (D r) as Dr by (by exists rp).
  assert (∀ x, D x → includedAt (heap pt') x = true ↔
            reach (heap pt') r x ∨
            (includeRootAncestors (NewConfig opts) = true ∧ above (heap pt') r x))
    as Hinc' by (intros x [pid Hx]; by apply (Hinc x pid)).
  clear Hinc.
  (* an object strictly below the configured root is no root *)
  assert (∀ x, reach (heap pt') r x → x ≠ r → x ∉ Roots pt') as Hstrict.
  { intros x Hreach Hne.
    destruct (reach_last _ _ _ Hreach) as [?|(q & Hq & Hx)]; [done|].
    destruct (Hbelow r q Dr Hq) as [Dq _].
    destruct (Hch q x Dq Hx) as (Dx & Hpar & _).
    apply (Hnr x q Dx Hpar). apply Hinc'; [done|by left]. }
  split.
  - intros Hanc. apply singleton_by_elem; [done|]. intros x. split.
    + intros Hx. destruct (decide (x = r)) as [->|Hne]; [done|].
      exfalso. apply (Hstrict x); [|done..].
      apply Relem in Hx as (Dx & Hi & _).
      apply (Hinc' x Dx) in Hi as [?|[? _]]; [done|congruence].
    + intros ->. apply Relem. split; [done|]. split.
      * apply Hinc'; [done|]. left. apply reach_refl.
      * unfold lockedParent.
        destruct (parentAt (heap pt') r) as [q|] eqn:E; [|done].
        destruct (Pup r q Dr E) as [Dq Hlt].
        destruct (includedAt (heap pt') q) eqn:Hi;
          [|by destruct (bool_decide (q = r))].
        apply (Hinc' q Dq) in Hi as [Hreach|[? _]]; [|congruence].
        destruct (Hbelow r q Dr Hreach). lia.
  - intros Hanc.
    destruct (fresh_top opts gs r0 hp6 height bound Hs Hheight (bound - ht r) r Dr)
      as (k & a & Hk & Ha); [done|].
    exists k, a. split; [done|]. split; [done|].
    assert (∀ (j : nat) (x : ptr), nthParent (heap pt') j r = Some x →
              D x ∧ includedAt (heap pt') x = true) as Hchain.
    { intros j x Hj. destruct (Habove j r x Dr Hj) as [Dx _]. split; [done|].
      apply Hinc'; [done|]. right. split; [done|]. by exists j. }
    split; [|intros j x Hj; apply Pelem; by apply (Hchain j)].
    apply singleton_by_elem; [done|]. intros x. split.
    + intros Hx. pose proof Hx as Hx'.
      apply Relem in Hx' as (Dx & Hi & Hnone).
      assert (above (heap pt') r x) as [j Hj].
      { apply (Hinc' x Dx) in Hi as [Hreach|[_ ?]]; [|done].
        destruct (decide (x = r)) as [->|Hne]; [by exists 0%nat|].
        by destruct (Hstrict x Hreach Hne). }
      destruct (parentAt (heap pt') x) as [q|] eqn:E.
      * exfalso. apply (Hnr x q Dx E); [|done].
        apply (Hchain (S j)). by eapply nthParent_snoc.
      * by eapply nthParent_top_unique.
    + intros ->. apply Relem. destruct (Hchain k a Hk) as [Da Hi].
      split; [done|]. split; [done|].
      assert (parentAt (heap pt') a = None) as Ha' by exact Ha.
      unfold lockedParent. by rewrite Ha'.
Qed.

Lemma Roots_with_one_configured_root_witness :
  (includeRootAncestors (NewConfig [WithRootPid 100; WithRootAncestors]) = false →
   Roots (sessionOf 5 [WithRootPid 100; WithRootAncestors] initAB) = [1%nat]) ∧
  (includeRootAncestors (NewConfig [WithRootPid 100; WithRootAncestors]) = true →
   ∃ (k : nat) (a : ptr),
     nthParent (heap (sessionOf 5 [WithRootPid 100; WithRootAncestors] initAB))
       k 1%nat = Some a ∧
     parentAt (heap (sessionOf 5 [WithRootPid 100; WithRootAncestors] initAB)) a
     = None ∧
     Roots (sessionOf 5 [WithRootPid 100; WithRootAncestors] initAB) = [a] ∧
     ∀ (j : nat) (x : ptr),
       nthParent (heap (sessionOf 5 [WithRootPid 100; WithRootAncestors] initAB))
         j 1%nat = Some x →
       x ∈ Processes (sessionOf 5 [WithRootPid 100; WithRootAncestors] initAB)).
Proof.
  assert (answer (inl initAB) (New 5 [WithRootPid 100; WithRootAncestors])
          = Some (inl (sessionOf 5 [WithRootPid 100; WithRootAncestors] initAB)))
    as H1 by (vm_compute; reflexivity).
  assert (∀ g, g ∈ initAB →
               keepRecord (NewConfig [WithRootPid 100; WithRootAncestors]) g = true →
            (initAB_height (Pid g) ≤ 2)%nat ∧
            (PPid g ≠ 0 → (initAB_height (Pid g) < initAB_height (PPid g))%nat))
    as H2.
  { intros g Hg _. unfold initAB in Hg.
    rewrite !elem_of_cons, elem_of_nil in Hg.
    destruct Hg as [->|[->|[->|[]]]]; vm_compute; (split; [lia|intros; lia]). }
  assert (rootPids (NewConfig [WithRootPid 100; WithRootAncestors]) = [100])
    as H3 by (vm_compute; reflexivity).
  assert (PidProcess (sessionOf 5 [WithRootPid 100; WithRootAncestors] initAB) 100
          = Some 1%nat) as H4 by (vm_compute; reflexivity).
  exact (Roots_with_one_configured_root 5 [WithRootPid 100; WithRootAncestors]
           initAB _ initAB_height 2%nat 100 1%nat H1 H2 H3 H4).
Defined.

(** ** Resolution of the configured roots *)

Lemma resolveRoots_Forall2 m pids acc procs :
  resolveRoots m pids acc = inl procs →
  ∃ rs, procs = acc ++ rs ∧ Forall2 (λ pid (r : ptr), m !! pid = Some r) pids rs.
Proof.
  revert acc. induction pids as [|pid pids IH]; intros acc; simpl.
  - intros [= <-]. exists []. split; [by rewrite app_nil_r|constructor].
  - destruct (m !! pid) as [q|] eqn:E; [|done]. intros Hr.
    destruct (IH _ Hr) as (rs & -> & HF). exists (q :: rs).
    split; [by rewrite <- app_assoc|by constructor].
Qed.

(** The configured roots are resolved once.  The first update that
    succeeds with root pids configured stores the objects of the configured
    pids, in the order of the configuration.  Once they are stored, an
    update that gets an enumeration reports no error: whatever the bound on
    its walks, either it does not return within the bound (the walks from
    the stored roots need not end) or it succeeds and keeps those very
    objects as configured roots, whatever has become of their pids. *)
Theorem configured_roots_resolved_once
    (fuel : nat) (pt : ProcTree) (pruneTombstones : bool)
    (gs : list gops_Process) :
  (∀ roots, cfgRootProcs pt = Some roots →
     answer (inl gs) (Update fuel pt pruneTombstones) = None ∨
     ∃ pt', answer (inl gs) (Update fuel pt pruneTombstones) = Some (pt', None) ∧
            cfgRootProcs pt' = Some roots) ∧
  (cfgRootProcs pt = None → rootPids (cfg pt) ≠ [] →
   ∀ pt', answer (inl gs) (Update fuel pt pruneTombstones) = Some (pt', None) →
     ∃ roots, cfgRootProcs pt' = Some roots ∧
       Forall2 (λ pid (r : ptr), PidProcess pt' pid = Some r)
               (rootPids (cfg pt)) roots).
Proof.
  rewrite answer_Update_inl. split.
  - intros roots Hroots.
    destruct (updateWith fuel pt pruneTombstones gs) as [[pt' e]|] eqn:H;
      [right|by left].
    apply updateWith_cases in H
      as [(pid & Hres & -> & ->)|(r0 & hp5 & hp6 & Hres & _ & _ & _ & -> & ->)];
      unfold resolveConfigured in Hres; rewrite Hroots in Hres.
    + by destruct (fixedRootsOf (cfg pt)).
    + eexists. split; [done|]. simpl.
      destruct (fixedRootsOf (cfg pt)); by injection Hres as <-.
  - intros Hnone Hfixed pt' H.
    apply updateWith_cases in H
      as [(? & _ & ? & _)|(r0 & hp5 & hp6 & Hres & _ & _ & _ & _ & ->)]; [done|].
    simpl. unfold resolveConfigured in Hres. rewrite Hnone in Hres.
    assert (fixedRootsOf (cfg pt) = true) as Hf.
    { unfold fixedRootsOf. apply bool_decide_eq_true.
      destruct (rootPids (cfg pt)); [done|simpl; lia]. }
    rewrite Hf in Hres.
    destruct (resolveRoots _ _ _) as [procs|] eqn:Er; [|done].
    injection Hres as <-.
    destruct (resolveRoots_Forall2 _ _ _ _ Er) as (rs & -> & HF).
    by exists rs.
Qed.

Lemma configured_roots_resolved_once_witness :
  ∃ roots,
    cfgRootProcs (sessionOf 5 [WithRootPid 200; WithRootPid 100] initAB)
    = Some roots ∧
    Forall2 (λ pid (r : ptr),
               PidProcess (sessionOf 5 [WithRootPid 200; WithRootPid 100] initAB)
                 pid = Some r)
            (rootPids (cfg (emptySession
                              (NewConfig [WithRootPid 200; WithRootPid 100]))))
            roots.
Proof.
  assert (answer (inl initAB)
            (Update 5 (emptySession (NewConfig [WithRootPid 200; WithRootPid 100]))
               false)
          = Some (sessionOf 5 [WithRootPid 200; WithRootPid 100] initAB, None))
    as H1 by (vm_compute; reflexivity).
  assert (cfgRootProcs
            (emptySession (NewConfig [WithRootPid 200; WithRootPid 100])) = None)
    as H2 by reflexivity.
  assert (rootPids (cfg (emptySession
                           (NewConfig [WithRootPid 200; WithRootPid 100]))) ≠ [])
    as H3 by (vm_compute; discriminate).
  destruct (configured_roots_resolved_once 5
              (emptySession (NewConfig [WithRootPid 200; WithRootPid 100])) false
              initAB) as [_ Hfirst].
  exact (Hfirst H2 H3 _ H1).
Defined.

(** * Ancestry queries over a forest *)

Lemma lockedDepth_root fuel hp (p : ptr) :
  lockedParent hp p = None → lockedDepth fuel hp p = Some 0.
Proof.
  unfold lockedParent, lockedDepth. intros H.
  destruct fuel; simpl; destruct (parentAt hp p) as [pp|] eqn:E; try done;
    rewrite (lockedParent_cond _ _ _ E);
    by destruct (bool_decide (pp = p) || negb (includedAt hp pp)).
Qed.

Lemma lockedDepth_step fuel hp (p q : ptr) :
  lockedParent hp p = Some q →
  lockedDepth (S fuel) hp p = Z.succ <$> lockedDepth fuel hp q.
Proof.
  unfold lockedParent, lockedDepth. intros H. simpl.
  destruct (parentAt hp p) as [pp|] eqn:E; [|done].
  rewrite (lockedParent_cond _ _ _ E).
  destruct (bool_decide (pp = p) || negb (includedAt hp pp)); [done|].
  injection H as ->. simpl. rewrite lockedDepth_loop_acc.
  destruct (lockedDepth_loop fuel hp q 0) as [d|]; simpl; [|done].
  f_equal. lia.
Qed.

Lemma lockedParent_Some hp (p q : ptr) :
  lockedParent hp p = Some q →
  parentAt hp p = Some q ∧ q ≠ p ∧ includedAt hp q = true.
Proof.
  unfold lockedParent. destruct (parentAt hp p) as [pp|]; [|done].
  case_bool_decide; [done|]. destruct (includedAt hp pp) eqn:E; [|done].
  simpl. by intros [= ->].
Qed.

Lemma reach_snoc hp (a q p : ptr) :
  reach hp a q → p ∈ absChildrenAt hp q → reach hp a p.
Proof.
  intros Hr Hp. induction Hr as [a|a c q Hc _ IH].
  - eapply reach_step; [done|apply reach_refl].
  - eapply reach_step; [done|by apply IH].
Qed.

Section freshQueries.
Context (opts : list ConfigOption) (gs : list gops_Process).
Context (cfgRoots : option (list ptr)) (hp6 : Heap).
Context (height : Z → nat) (bound : nat).
Hypothesis Hshape :
  keepsShape (absoluteHeap (emptySession (NewConfig opts)) false gs) hp6.
Hypothesis Hheight : ∀ g, g ∈ gs → keepRecord (NewConfig opts) g = true →
  (height (Pid g) ≤ bound)%nat ∧
  (PPid g ≠ 0 → (height (Pid g) < height (PPid g))%nat).

Let pt0 := emptySession (NewConfig opts).
Let pt' := finishUpdate pt0 false gs cfgRoots hp6.
Let D (p : ptr) : Prop := ∃ pid, pidMap pt' !! pid = Some p.
Let ht (p : ptr) : nat := height (pidAt (heap pt') p).

Lemma fresh_parent_child (c q : ptr) :
  D c → parentAt (heap pt') c = Some q → c ∈ absChildrenAt (heap pt') q.
Proof.
  intros [pid Hc] Hpar.
  destruct (fresh_parentAt opts gs cfgRoots hp6 Hshape pid c q Hc Hpar)
    as [Hnz Hq].
  apply (finish_absChildren pt0 false gs cfgRoots hp6 (emptySession_keyed _)
           Hshape _ q Hq).
  split; [by exists pid|]. by apply resolveParent_Some.
Qed.

Lemma fresh_above_reach (k : nat) (p a : ptr) :
  D p → nthParent (heap pt') k p = Some a → reach (heap pt') a p.
Proof.
  revert p. induction k as [|k IH]; intros p Hp.
  - intros [= <-]. apply reach_refl.
  - rewrite nthParent_S. destruct (parentAt (heap pt') p) as [q|] eqn:E; [|done].
    simpl. intros Hk.
    destruct (fresh_parent_up opts gs cfgRoots hp6 height bound Hshape Hheight
                p q Hp E) as [Hq _].
    eapply reach_snoc; [by apply IH|]. by apply fresh_parent_child.
Qed.

Lemma fresh_reach_above (a p : ptr) :
  D a → reach (heap pt') a p → ∃ k : nat, nthParent (heap pt') k p = Some a.
Proof.
  intros Ha Hr. induction Hr as [a|a c p Hc _ IH]; [by exists 0%nat|].
  destruct (fresh_absChild opts gs cfgRoots hp6 height bound Hshape Hheight
              a c Ha Hc) as (Dc & Hpar & _).
  destruct (IH Dc) as [k Hk]. exists (S k). by eapply nthParent_snoc.
Qed.

Lemma fresh_IsDescendantOf_returns fuel (p : ptr) anc :
  D p → (bound - ht p < fuel)%nat →
  is_Some (lockedIsDescendantOf fuel (heap pt') p anc).
Proof.
  revert p. induction fuel as [|fuel IH]; intros p Hp Hlt; [lia|].
  cbn [lockedIsDescendantOf].
  destruct (parentAt (heap pt') p) as [q|] eqn:E; [|by eexists].
  destruct anc as [a|]; [|by eexists]. case_bool_decide; [by eexists|].
  destruct (fresh_parent_up opts gs cfgRoots hp6 height bound Hshape Hheight
              p q Hp E) as [Hq Hh].
  assert (ht p < ht q)%nat as Hh' by exact Hh.
  assert (ht q ≤ bound)%nat as Hb
    by exact (fresh_bounded opts gs cfgRoots hp6 height bound Hshape Hheight q Hq).
  apply IH; [done|]. lia.
Qed.

Lemma fresh_Depth (n fuel : nat) (p : ptr) :
  D p → (bound - ht p ≤ n)%nat → (n ≤ fuel)%nat →
  ∃ (k : nat) (r : ptr),
    lockedDepth fuel (heap pt') p = Some (Z.of_nat k) ∧
    nthParent (heap pt') k p = Some r ∧
    lockedParent (heap pt') r = None ∧
    (includedAt (heap pt') p = true → includedAt (heap pt') r = true).
Proof.
  revert fuel p. induction n as [|n IH]; intros fuel p Hp Hn Hfuel;
    (destruct (lockedParent (heap pt') p) as [q|] eqn:E;
      [|exists 0%nat, p; split; [by apply lockedDepth_root|by repeat split]]);
    destruct (lockedParent_Some _ _ _ E) as (Hpar & Hne & Hi);
    destruct (fresh_parent_up opts gs cfgRoots hp6 height bound Hshape Hheight
                p q Hp Hpar) as [Hq Hh0];
    assert (ht p < ht q)%nat as Hh by exact Hh0;
    assert (ht q ≤ bound)%nat as Hb
      by exact (fresh_bounded opts gs cfgRoots hp6 height bound Hshape Hheight
                  q Hq).
  - lia.
  - destruct fuel as [|fuel]; [lia|].
    destruct (IH fuel q Hq) as (k & r & Hd & Hk & Hr & Hir); [lia|lia|].
    exists (S k), r. split; [|split; [|split]].
    + rewrite (lockedDepth_step _ _ _ _ E), Hd. simpl. f_equal. lia.
    + by rewrite nthParent_S, Hpar.
    + done.
    + intros _. by apply Hir.
Qed.

End freshQueries.

(** After [New] on an enumeration whose kept records form a forest, the
    ancestry queries return on every object of the pid map.
    [IsDescendantOf] answers true exactly for the objects strictly below the
    given one in the absolute tree.  [Depth] is the number of [Parent()]
    steps from the object to an object without [Parent()], which for a
    listed object is one of [Roots()]. *)
Theorem ancestry_queries_on_forest
    (fuel fuel' : nat) (opts : list ConfigOption) (gs : list gops_Process)
    (pt' : ProcTree) (height : Z → nat) (bound : nat) (pid : Z) (p : ptr) :
  answer (inl gs) (New fuel opts) = Some (inl pt') →
  (∀ g, g ∈ gs → keepRecord (NewConfig opts) g = true →
     (height (Pid g) ≤ bound)%nat ∧
     (PPid g ≠ 0 → (height (Pid g) < height (PPid g))%nat)) →
  PidProcess pt' pid = Some p →
  (bound < fuel')%nat →
  (∀ pid' (a : ptr), PidProcess pt' pid' = Some a →
     ∃ b : bool,
       IsDescendantOf fuel' (heap pt') p (Some a) = Some b ∧
       (b = true ↔ p ≠ a ∧ reach (heap pt') a p)) ∧
  (∃ (k : nat) (r : ptr),
     Depth fuel' (heap pt') p = Some (Z.of_nat k) ∧
     nthParent (heap pt') k p = Some r ∧
     lockedParent (heap pt') r = None ∧
     (p ∈ Processes pt' → r ∈ Roots pt')).
Proof.
  intros Hnew%New_Update Hheight Hp Hfuel. rewrite answer_Update_inl in Hnew.
  apply updateWith_cases in Hnew
    as [(? & _ & ? & _)|(r0 & hp5 & hp6 & _ & _ & _ & Hs & _ & ->)]; [done|].
  set (pt0 := emptySession (NewConfig opts)) in *.
  set (pt' := finishUpdate pt0 false gs r0 hp6) in *.
  set (D := λ p : ptr, ∃ pid, pidMap pt' !! pid = Some p).
  set (ht := λ p : ptr, height (pidAt (heap pt') p)).
  assert (D p) as Dp by (by exists pid).
  assert (ht p ≤ bound)%nat as Hb
    by apply (fresh_bounded opts gs r0 hp6 height bound Hs Hheight p Dp).
  split.
  - intros pid' a Ha. assert (D a) as Da by (by exists pid').
    destruct (fresh_IsDescendantOf_returns opts gs r0 hp6 height bound Hs Hheight
                fuel' p (Some a) Dp) as [b Hb']; [fold pt' ht; lia|].
    exists b. split; [exact Hb'|]. destruct b.
    + split; [intros _|done].
      destruct (lockedIsDescendantOf_true _ _ _ _ Hb') as (k & _ & Hk).
      destruct (fresh_above opts gs r0 hp6 height bound Hs Hheight
                  (S k) p a Dp Hk) as [_ Hlt].
      split.
      * intros ->. lia.
      * by apply (fresh_above_reach opts gs r0 hp6 height bound Hs Hheight (S k)).
    + split; [done|]. intros [Hne Hreach]. exfalso.
      destruct (fresh_reach_above opts gs r0 hp6 height bound Hs Hheight
                  a p Da Hreach) as [[|k] Hk].
      * by injection Hk as ->.
      * by apply (lockedIsDescendantOf_false _ _ _ _ Hb' k).
  - destruct (fresh_Depth opts gs r0 hp6 height bound Hs Hheight
                (bound - ht p) fuel' p Dp) as (k & r & Hd & Hk & Hr & Hi);
      [done|lia|].
    exists k, r. split; [exact Hd|]. split; [exact Hk|]. split; [exact Hr|].
    intros Hlisted.
    apply (fresh_Processes_elem opts gs r0 hp6 height bound Hs) in Hlisted
      as [_ Hip].
    apply (fresh_Roots_elem opts gs r0 hp6 height bound Hs).
    destruct (fresh_above opts gs r0 hp6 height bound Hs Hheight k p r Dp Hk)
      as [Dr _].
    split; [exact Dr|]. split; [by apply Hi|exact Hr].
Qed.

Lemma ancestry_queries_on_forest_witness :
  (∀ pid' (a : ptr), PidProcess (sessionOf 5 [] initAB) pid' = Some a →
     ∃ b : bool,
       IsDescendantOf 3 (heap (sessionOf 5 [] initAB)) 2%nat (Some a) = Some b ∧
       (b = true ↔ 2%nat ≠ a ∧ reach (heap (sessionOf 5 [] initAB)) a 2%nat)) ∧
  (∃ (k : nat) (r : ptr),
     Depth 3 (heap (sessionOf 5 [] initAB)) 2%nat = Some (Z.of_nat k) ∧
     nthParent (heap (sessionOf 5 [] initAB)) k 2%nat = Some r ∧
     lockedParent (heap (sessionOf 5 [] initAB)) r = None ∧
     (2%nat ∈ Processes (sessionOf 5 [] initAB) →
      r ∈ Roots (sessionOf 5 [] initAB))).
Proof.
  assert (answer (inl initAB) (New 5 []) = Some (inl (sessionOf 5 [] initAB)))
    as H1 by (vm_compute; reflexivity).
  assert (∀ g, g ∈ initAB → keepRecord (NewConfig []) g = true →
            (initAB_height (Pid g) ≤ 2)%nat ∧
            (PPid g ≠ 0 → (initAB_height (Pid g) < initAB_height (PPid g))%nat))
    as H2.
  { intros g Hg _. unfold initAB in Hg.
    rewrite !elem_of_cons, elem_of_nil in Hg.
    destruct Hg as [->|[->|[->|[]]]]; vm_compute; (split; [lia|intros; lia]). }
  assert (PidProcess (sessionOf 5 [] initAB) 200 = Some 2%nat) as H3
    by (vm_compute; reflexivity).
  assert (2 < 3)%nat as H4 by lia.
  exact (ancestry_queries_on_forest 5 3 [] initAB (sessionOf 5 [] initAB)
           initAB_height 2%nat 200 2%nat H1 H2 H3 H4).
Defined.

(** * Claims about self-parent objects and about ancestors of roots *)

(** ** C2: an object that is its own parent *)

(** A process record whose parent pid is its own pid, beside an ordinary
    one. *)
Definition selfParented : list gops_Process :=
  [mk_gops 5 5 "x"; mk_gops 7 0 "y"].

Lemma self_parent_unguarded hp (p a : ptr) :
  parentAt hp p = Some p → a ≠ p →
  includedAt hp p = true → p ∈ Children hp p →
  (∀ fuel, lockedDepth fuel hp p = Some 0) ∧
  (∀ fuel, WalkAncestry (S fuel) (λ _ hp0, (hp0, None)) p hp = Some (hp, None)) ∧
  (∀ fuel, IsDescendantOf (S fuel) hp p (Some p) = Some true) ∧
  (∀ fuel, IsDescendantOf fuel hp p (Some a) = None) ∧
  (∀ fuel, IsAncestorOf fuel hp a (Some p) = None) ∧
  (∀ fuel, WalkSubtree fuel (λ _ hp0, (hp0, None)) p hp = None).
Proof.
  intros Hself Ha Hi Hc.
  assert (∀ fuel, lockedIsDescendantOf fuel hp p (Some a) = None) as Hdiv.
  { intros fuel. induction fuel as [|fuel IH]; [done|].
    cbn [lockedIsDescendantOf]. rewrite Hself.
    by rewrite bool_decide_eq_false_2 by congruence. }
  split; [|split; [|split; [|split; [|split]]]].
  - intros fuel. apply lockedDepth_root. unfold lockedParent.
    by rewrite Hself, bool_decide_eq_true_2.
  - intros fuel. cbn [WalkAncestry]. rewrite Hi, Hself.
    by rewrite bool_decide_eq_false_2 by (by intros ?).
  - intros fuel. unfold IsDescendantOf. cbn [lockedIsDescendantOf].
    by rewrite Hself, bool_decide_eq_true_2.
  - exact Hdiv.
  - exact Hdiv.
  - intros fuel. by apply WalkSubtree_own_child.
Qed.

(** C2, on the session constructed from [selfParented].  The object of pid
    5 is its own parent and its own child.  [Depth] answers 0 and the
    ancestry walk stops at it, as the claim says; but [IsDescendantOf]
    answers true for the object itself, asking whether it descends from the
    other object (or whether the other is its ancestor) never returns, and
    the subtree walk from it and the walk of the session never return
    either. *)
Theorem C2_self_parent_unguarded :
  PidProcess (sessionOf 5 [] selfParented) 5 = Some 0%nat ∧
  PidProcess (sessionOf 5 [] selfParented) 7 = Some 1%nat ∧
  parentAt (heap (sessionOf 5 [] selfParented)) 0%nat = Some 0%nat ∧
  (∀ fuel, Depth fuel (heap (sessionOf 5 [] selfParented)) 0%nat = Some 0) ∧
  (∀ fuel, WalkAncestry (S fuel) (λ _ hp0, (hp0, None)) 0%nat
             (heap (sessionOf 5 [] selfParented))
           = Some (heap (sessionOf 5 [] selfParented), None)) ∧
  (∀ fuel, IsDescendantOf (S fuel) (heap (sessionOf 5 [] selfParented))
             0%nat (Some 0%nat) = Some true) ∧
  (∀ fuel, IsDescendantOf fuel (heap (sessionOf 5 [] selfParented))
             0%nat (Some 1%nat) = None) ∧
  (∀ fuel, IsAncestorOf fuel (heap (sessionOf 5 [] selfParented))
             1%nat (Some 0%nat) = None) ∧
  (∀ fuel, WalkSubtree fuel (λ _ hp0, (hp0, None)) 0%nat
             (heap (sessionOf 5 [] selfParented)) = None) ∧
  (∀ fuel, Walk fuel (sessionOf 5 [] selfParented) (λ _ hp0, (hp0, None)) = None).
Proof.
  assert (parentAt (heap (sessionOf 5 [] selfParented)) 0%nat = Some 0%nat)
    as Hself by (vm_compute; reflexivity).
  assert (includedAt (heap (sessionOf 5 [] selfParented)) 0%nat = true)
    as Hi by (vm_compute; reflexivity).
  assert (0%nat ∈ Children (heap (sessionOf 5 [] selfParented)) 0%nat) as Hc
    by (vm_compute; apply list_elem_of_here).
  assert (Roots (sessionOf 5 [] selfParented) = [0%nat; 1%nat]) as Hroots
    by (vm_compute; reflexivity).
  assert (1%nat ≠ 0%nat) as Hne by lia.
  destruct (self_parent_unguarded (heap (sessionOf 5 [] selfParented))
              0%nat 1%nat Hself Hne Hi Hc) as (H1 & H2 & H3 & H4 & H5 & H6).
  split; [vm_compute; reflexivity|]. split; [vm_compute; reflexivity|].
  split; [exact Hself|]. split; [exact H1|]. split; [exact H2|].
  split; [exact H3|]. split; [exact H4|]. split; [exact H5|].
  split; [exact H6|].
  intros fuel. unfold Walk, WalkFromRoots, lockedWalkFromRoots.
  rewrite Hroots. cbn [forEachProc].
  assert (lockedWalkSubtree fuel (λ _ hp0, (hp0, None)) 0%nat
            (heap (sessionOf 5 [] selfParented)) = None) as -> by exact (H6 fuel).
  reflexivity.
Qed.

(** ** C7: a configured root and its ancestors *)

(** An enumeration that lists every pid once gives, at construction, every
    record the policy keeps an object that holds it. *)
Lemma New_object opts gs g :
  NoDup (Pid <$> gs) → g ∈ gs → keepRecord (NewConfig opts) g = true →
  ∃ p : ptr,
    refreshedMap (emptySession (NewConfig opts)) false gs !! Pid g = Some p ∧
    refreshedHeap (emptySession (NewConfig opts)) false gs !! p
    = Some (freshProcess (NewConfig opts) g).
Proof.
  intros Hnd Hg Hk.
  assert (lastKept (NewConfig opts) gs (Pid g) = Some g) as Hl
    by (by apply lastKept_NoDup).
  destruct (refreshNodes_created (emptySession (NewConfig opts)) false gs
              (emptySession_keyed _) (Pid g) g eq_refl Hl) as (p & Hp & _ & Hcell).
  by exists p.
Qed.

Section ancestors.
Context (pt : ProcTree) (pruneTombstones : bool) (gs : list gops_Process).
Context (cfgRoots : option (list ptr)) (hp6 : Heap).
Hypothesis Hkeyed : keyed (heap pt) (pidMap pt).
Hypothesis Hshape : keepsShape (absoluteHeap pt pruneTombstones gs) hp6.

Let m := refreshedMap pt pruneTombstones gs.
Let pt' := finishUpdate pt pruneTombstones gs cfgRoots hp6.

(** What lies below an object of the pid map has it above. *)
Lemma finish_reach_above (q x : ptr) :
  (∃ pid, m !! pid = Some q) → reach (heap pt') q x →
  ∃ k : nat, nthParent (heap pt') k x = Some q.
Proof.
  intros Hq Hr. induction Hr as [q|q c x Hc _ IH]; [by exists 0%nat|].
  destruct Hq as [pid Hq].
  apply (finish_absChildren pt pruneTombstones gs cfgRoots hp6 Hkeyed Hshape
           pid q Hq) in Hc as [[pid' Hc] Hres].
  assert (parentAt (heap pt') c = Some q) as Hpar.
  { assert (parentAt (heap pt') c
            = match resolveParent (pidMap pt') (heap pt') c with
              | Some pp => Some pp
              | None => parentAt (refreshedHeap pt pruneTombstones gs) c
              end) as ->
      by (by apply (finish_parentAt pt pruneTombstones gs cfgRoots hp6
                      Hkeyed Hshape pid')).
    assert (resolveParent (pidMap pt') (heap pt') c = Some q) as -> by exact Hres.
    done. }
  destruct IH as [k Hk]; [by exists pid'|].
  exists (S k). by eapply nthParent_snoc.
Qed.

End ancestors.

(** The chain of the kernel thread daemon, a worker and a helper. *)
Definition kernelChain : list gops_Process :=
  [mk_gops 2 0 "kthreadd"; mk_gops 3 2 "kworker"; mk_gops 4 3 "helper"].

(** The claim as stated, for the update that constructs a session from an
    enumeration in which [gr] is the record of a configured root, [g2] that
    of its parent and [g1] that of its parentless grandparent. *)
Definition ancestorToggleAsStated (fuel : nat) (c : Config)
    (gs : list gops_Process) (g1 g2 gr : gops_Process) : Prop :=
  g1 ∈ gs → g2 ∈ gs → gr ∈ gs →
  PPid gr = Pid g2 → PPid g2 = Pid g1 → PPid g1 = 0 →
  Pid gr ∈ rootPids c →
  ∀ pt, answer (inl gs) (New fuel [WithConfig c]) = Some (inl pt) →
    (includeRootAncestors c = false →
       ∃ r : ptr, PidProcess pt (Pid gr) = Some r ∧ r ∈ Roots pt) ∧
    (includeRootAncestors c = true →
       ∃ a1 r : ptr,
         PidProcess pt (Pid g1) = Some a1 ∧ a1 ∈ Roots pt ∧
         PidProcess pt (Pid gr) = Some r ∧ (r ∉ Roots pt)).

(** With ancestors included and root 4 configured over [kernelChain], the
    ancestors 2 and 3 get no object and 4 is the only root.  Without
    ancestors and with roots 1 and 200 configured over [initAB], root 200 is
    listed below root 1 and is no root. *)
Lemma C7_counterexample :
  ¬ ancestorToggleAsStated 5 (mk_Config false true [4]) kernelChain
      (mk_gops 2 0 "kthreadd") (mk_gops 3 2 "kworker") (mk_gops 4 3 "helper") ∧
  ¬ ancestorToggleAsStated 5 (mk_Config false false [1; 200]) initAB
      (mk_gops 1 0 "init") (mk_gops 100 1 "a") (mk_gops 200 100 "b").
Proof.
  split.
  - intros H.
    destruct (H (list_elem_of_here _ _)
                (list_elem_of_further _ _ _ (list_elem_of_here _ _))
                (list_elem_of_further _ _ _
                   (list_elem_of_further _ _ _ (list_elem_of_here _ _)))
                eq_refl eq_refl eq_refl (list_elem_of_here _ _)
                (sessionOf 5 [WithConfig (mk_Config false true [4])] kernelChain))
      as [_ Hanc]; [vm_compute; reflexivity|].
    destruct (Hanc eq_refl) as (a1 & r & Ha1 & _).
    vm_compute in Ha1. discriminate Ha1.
  - intros H.
    destruct (H (list_elem_of_here _ _)
                (list_elem_of_further _ _ _ (list_elem_of_here _ _))
                (list_elem_of_further _ _ _
                   (list_elem_of_further _ _ _ (list_elem_of_here _ _)))
                eq_refl eq_refl eq_refl
                (list_elem_of_further _ _ _ (list_elem_of_here _ _))
                (sessionOf 5 [WithConfig (mk_Config false false [1; 200])] initAB))
      as [Hplain _]; [vm_compute; reflexivity|].
    destruct (Hplain eq_refl) as (r & Hr & Hroot).
    vm_compute in Hr. injection Hr as <-.
    vm_compute in Hroot.
    apply elem_of_cons in Hroot as [Hroot|Hroot]; [discriminate Hroot|].
    by apply elem_of_nil in Hroot.
Qed.

(** C7 (amended).  Construct a session from an enumeration that lists every
    pid once and holds the record [gr] of a configured root, the record [g2]
    of its parent and the record [g1] of its grandparent, whose parent pid is
    0; the pids of the two ancestors are not 0 and the kernel-thread policy
    keeps the three records.  Then the three have objects, linked in that
    order, and the root is listed.  Without ancestors, and when neither
    ancestor is a configured root itself, [Roots()] contains the configured
    root and neither ancestor is listed.  With ancestors, [Roots()] contains
    the grandparent; parent and configured root are listed but are no
    roots: [Parent()] of the root is the parent, [Parent()] of the parent is
    the grandparent, and each is among the [Children()] of the one above. *)
Theorem C7_ancestor_toggle
    (fuel : nat) (opts : list ConfigOption) (gs : list gops_Process)
    (pt' : ProcTree) (g1 g2 gr : gops_Process) :
  NoDup (Pid <$> gs) →
  g1 ∈ gs → g2 ∈ gs → gr ∈ gs →
  keepRecord (NewConfig opts) g1 = true →
  keepRecord (NewConfig opts) g2 = true →
  keepRecord (NewConfig opts) gr = true →
  PPid gr = Pid g2 → PPid g2 = Pid g1 → PPid g1 = 0 →
  Pid g1 ≠ 0 → Pid g2 ≠ 0 →
  Pid gr ∈ rootPids (NewConfig opts) →
  answer (inl gs) (New fuel opts) = Some (inl pt') →
  ∃ a1 a2 r : ptr,
    PidProcess pt' (Pid g1) = Some a1 ∧
    PidProcess pt' (Pid g2) = Some a2 ∧
    PidProcess pt' (Pid gr) = Some r ∧
    parentAt (heap pt') r = Some a2 ∧
    parentAt (heap pt') a2 = Some a1 ∧
    parentAt (heap pt') a1 = None ∧
    r ∈ Processes pt' ∧
    (includeRootAncestors (NewConfig opts) = false →
     (Pid g1 ∉ rootPids (NewConfig opts)) →
     (Pid g2 ∉ rootPids (NewConfig opts)) →
     r ∈ Roots pt' ∧ (a1 ∉ Processes pt') ∧ (a2 ∉ Processes pt')) ∧
    (includeRootAncestors (NewConfig opts) = true →
     a1 ∈ Roots pt' ∧ a2 ∈ Processes pt' ∧
     (a2 ∉ Roots pt') ∧ (r ∉ Roots pt') ∧
     lockedParent (heap pt') r = Some a2 ∧
     lockedParent (heap pt') a2 = Some a1 ∧
     r ∈ Children (heap pt') a2 ∧ a2 ∈ Children (heap pt') a1).
Proof.
  intros Hnd Hg1 Hg2 Hgr Hk1 Hk2 Hkr Hpr Hp2 Hp1 Hnz1 Hnz2 Hroot Hnew.
  apply New_Update in Hnew. pose proof Hnew as Hupd.
  set (c := NewConfig opts) in *. set (pt0 := emptySession c) in *.
  assert (keyed (heap pt0) (pidMap pt0)) as K by apply emptySession_keyed.
  rewrite answer_Update_inl in Hnew.
  apply updateWith_cases in Hnew
    as [(? & _ & ? & _)|(r0 & hp5 & hp6 & Hres & _ & _ & Hs & _ & ->)]; [done|].
  set (m := refreshedMap pt0 false gs) in *.
  set (hp2 := refreshedHeap pt0 false gs) in *.
  set (pt' := finishUpdate pt0 false gs r0 hp6) in *.
  (* the pids are pairwise distinct *)
  assert (Pid g2 ≠ Pid g1) as Hd21.
  { intros E. assert (g2 = g1) as -> by (by eapply NoDup_Pid_eq). congruence. }
  assert (Pid gr ≠ Pid g2) as Hdr2.
  { intros E. assert (gr = g2) as -> by (by eapply NoDup_Pid_eq). congruence. }
  (* the three objects *)
  destruct (New_object opts gs g1 Hnd Hg1 Hk1) as (a1 & Hm1 & Hc1).
  destruct (New_object opts gs g2 Hnd Hg2 Hk2) as (a2 & Hm2 & Hc2).
  destruct (New_object opts gs gr Hnd Hgr Hkr) as (r & Hmr & Hcr).
  fold c pt0 m hp2 in Hm1, Hc1, Hm2, Hc2, Hmr, Hcr.
  assert (a2 ≠ a1) as Ha21.
  { intros ->. apply Hd21.
    by apply (keyed_inj hp2 m _ _ a1 (refreshed_keyed pt0 false gs K)). }
  assert (r ≠ a2) as Har2.
  { intros ->. apply Hdr2.
    by apply (keyed_inj hp2 m _ _ a2 (refreshed_keyed pt0 false gs K)). }
  assert (∀ g (x : ptr), m !! Pid g = Some x → hp2 !! x = Some (freshProcess c g) →
            parentAt (heap pt') x
            = if bool_decide (PPid g ≠ 0) then m !! PPid g else None) as Hparent.
  { intros g x Hm Hc.
    assert (parentAt (heap pt') x
            = match resolveParent (pidMap pt') (heap pt') x with
              | Some pp => Some pp
              | None => parentAt hp2 x
              end) as ->
      by (by apply (finish_parentAt pt0 false gs r0 hp6 K Hs (Pid g))).
    assert (resolveParent (pidMap pt') (heap pt') x = resolveParent m hp2 x) as ->
      by (by apply (finish_resolveParent pt0 false gs r0 hp6 Hs)).
    unfold resolveParent, ppidAt, parentAt. rewrite Hc. simpl.
    case_bool_decide; [|done]. by destruct (m !! PPid g). }
  assert (parentAt (heap pt') r = Some a2) as Epr.
  { rewrite (Hparent gr r Hmr Hcr), Hpr.
    by rewrite bool_decide_eq_true_2 by done. }
  assert (parentAt (heap pt') a2 = Some a1) as Ep2.
  { rewrite (Hparent g2 a2 Hm2 Hc2), Hp2.
    by rewrite bool_decide_eq_true_2 by done. }
  assert (parentAt (heap pt') a1 = None) as Ep1.
  { rewrite (Hparent g1 a1 Hm1 Hc1), Hp1.
    by rewrite bool_decide_eq_false_2 by (by intros ?). }
  (* the configured roots *)
  assert (rootPids (cfg pt0) ≠ []) as Hfixed.
  { simpl. intros E. rewrite E in Hroot. by apply elem_of_nil in Hroot. }
  assert (∃ roots, r0 = Some roots ∧
            Forall2 (λ pid (x : ptr), m !! pid = Some x) (rootPids c) roots)
    as (roots & -> & HF).
  { unfold resolveConfigured in Hres.
    assert (fixedRootsOf (cfg pt0) = true) as Hf.
    { unfold fixedRootsOf. apply bool_decide_eq_true.
      destruct (rootPids (cfg pt0)); [done|simpl; lia]. }
    rewrite Hf in Hres. simpl in Hres.
    destruct (resolveRoots _ _ _) as [procs|] eqn:Er; [|done].
    injection Hres as <-.
    destruct (resolveRoots_Forall2 _ _ _ _ Er) as (rs & -> & HF).
    by exists rs. }
  assert (r ∈ roots) as Hrin.
  { apply list_elem_of_lookup in Hroot as [i Hi].
    destruct (Forall2_lookup_l _ _ _ _ _ HF Hi) as (x & Hx & Hmx).
    assert (x = r) as -> by congruence. by eapply list_elem_of_lookup_2. }
  assert (∀ x : ptr, x ∈ roots → ∃ pid, pid ∈ rootPids c ∧ m !! pid = Some x)
    as Hrpid.
  { intros x [i Hi]%list_elem_of_lookup.
    destruct (Forall2_lookup_r _ _ _ _ _ HF Hi) as (pid & Hpid & Hmx).
    exists pid. split; [by eapply list_elem_of_lookup_2|done]. }
  (* what is included *)
  assert (∀ pid (x : ptr), m !! pid = Some x →
            includedAt (heap pt') x = true ↔
            (∃ r', r' ∈ roots ∧ reach (heap pt') r' x) ∨
            (includeRootAncestors c = true ∧
             ∃ r', r' ∈ roots ∧ above (heap pt') r' x)) as Hinc.
  { intros pid x Hx.
    rewrite (included_with_configured_roots fuel pt0 pt' false gs roots pid x
               (reachable_empty _) Hfixed Hupd eq_refl Hx).
    split; [|tauto]. intros [Hold|H]; [done|tauto]. }
  assert (∀ pid (q x : ptr), m !! pid = Some q → reach (heap pt') q x →
            ∃ k : nat, nthParent (heap pt') k x = Some q) as Hup.
  { intros pid q x Hq.
    apply (finish_reach_above pt0 false gs (Some roots) hp6 K Hs). by exists pid. }
  assert (∀ y : ptr, y ∈ absProcs pt' ↔ ∃ pid, m !! pid = Some y) as Habs
    by (intros y; apply (finish_absProcs_elem pt0 false gs (Some roots) hp6)).
  assert (∀ x : ptr, x ∈ Processes pt' ↔
            includedAt (heap pt') x = true ∧ ∃ pid, m !! pid = Some x) as Pelem.
  { intros x.
    assert (Processes pt'
            = filter (λ p, includedAt (heap pt') p = true) (absProcs pt')) as ->
      by (by apply (finish_Processes pt0 false gs (Some roots) hp6 K Hs)).
    rewrite list_elem_of_filter. by rewrite Habs. }
  assert (∀ x : ptr, x ∈ Roots pt' ↔
            (includedAt (heap pt') x = true ∧ lockedParent (heap pt') x = None) ∧
            ∃ pid, m !! pid = Some x) as Relem.
  { intros x.
    assert (Roots pt'
            = filter (λ p, includedAt (heap pt') p = true ∧
                           lockedParent (heap pt') p = None) (absProcs pt')) as ->
      by (by apply (finish_Roots pt0 false gs (Some roots) hp6 K Hs)).
    rewrite list_elem_of_filter. by rewrite Habs. }
  assert (includedAt (heap pt') r = true) as Hir.
  { apply (Hinc _ r Hmr). left. exists r. split; [done|apply reach_refl]. }
  exists a1, a2, r.
  split; [exact Hm1|]. split; [exact Hm2|]. split; [exact Hmr|].
  split; [exact Epr|]. split; [exact Ep2|]. split; [exact Ep1|].
  split; [apply Pelem; split; [done|by exists (Pid gr)]|]. split.
  - intros Hanc Hn1 Hn2.
    (* no ancestor is at or below a configured root *)
    assert (includedAt (heap pt') a1 = false) as Hi1.
    { destruct (includedAt (heap pt') a1) eqn:E; [|done]. exfalso.
      apply (Hinc _ a1 Hm1) in E as [(r' & Hin & Hreach)|[? _]]; [|congruence].
      destruct (Hrpid r' Hin) as (pid & Hpid & Hmr').
      destruct (Hup pid r' a1 Hmr' Hreach) as [[|k] Hk].
      - injection Hk as <-. apply Hn1.
        by rewrite (keyed_inj hp2 m _ _ a1 (refreshed_keyed pt0 false gs K) Hm1 Hmr').
      - by rewrite nthParent_S, Ep1 in Hk. }
    assert (includedAt (heap pt') a2 = false) as Hi2.
    { destruct (includedAt (heap pt') a2) eqn:E; [|done]. exfalso.
      apply (Hinc _ a2 Hm2) in E as [(r' & Hin & Hreach)|[? _]]; [|congruence].
      destruct (Hrpid r' Hin) as (pid & Hpid & Hmr').
      destruct (Hup pid r' a2 Hmr' Hreach) as [[|[|k]] Hk].
      - injection Hk as <-. apply Hn2.
        by rewrite (keyed_inj hp2 m _ _ a2 (refreshed_keyed pt0 false gs K) Hm2 Hmr').
      - rewrite nthParent_S, Ep2 in Hk. simpl in Hk. injection Hk as <-. apply Hn1.
        by rewrite (keyed_inj hp2 m _ _ a1 (refreshed_keyed pt0 false gs K) Hm1 Hmr').
      - rewrite nthParent_S, Ep2 in Hk.
        change (nthParent (heap pt') (S k) a1 = Some r') in Hk.
        by rewrite nthParent_S, Ep1 in Hk. }
    split; [|split].
    + apply Relem. split; [|by exists (Pid gr)]. split; [done|].
      unfold lockedParent. rewrite Epr, Hi2. by rewrite orb_true_r.
    + intros [E _]%Pelem. congruence.
    + intros [E _]%Pelem. congruence.
  - intros Hanc.
    assert (includedAt (heap pt') a1 = true) as Hi1.
    { apply (Hinc _ a1 Hm1). right. split; [done|]. exists r. split; [done|].
      exists 2%nat. rewrite nthParent_S, Epr.
      change (nthParent (heap pt') 1 a2 = Some a1).
      by rewrite nthParent_S, Ep2. }
    assert (includedAt (heap pt') a2 = true) as Hi2.
    { apply (Hinc _ a2 Hm2). right. split; [done|]. exists r. split; [done|].
      exists 1%nat. by rewrite nthParent_S, Epr. }
    assert (lockedParent (heap pt') r = Some a2) as Lr.
    { unfold lockedParent. rewrite Epr, Hi2.
      by rewrite bool_decide_eq_false_2 by congruence. }
    assert (lockedParent (heap pt') a2 = Some a1) as L2.
    { unfold lockedParent. rewrite Ep2, Hi1.
      by rewrite bool_decide_eq_false_2 by congruence. }
    split; [|split; [|split; [|split; [|split; [|split; [|split]]]]]].
    + apply Relem. split; [|by exists (Pid g1)]. split; [done|].
      unfold lockedParent. by rewrite Ep1.
    + apply Pelem. split; [done|by exists (Pid g2)].
    + intros [[_ E] _]%Relem. congruence.
    + intros [[_ E] _]%Relem. congruence.
    + exact Lr.
    + exact L2.
    + assert (Children (heap pt') a2
              = filter (λ p, includedAt (heap pt') p = true ∧
                             parentAt (heap pt') p = Some a2) (absProcs pt')) as ->
        by (by apply (finish_Children pt0 false gs (Some roots) hp6 K Hs (Pid g2))).
      apply list_elem_of_filter. split; [done|].
      apply Habs. by exists (Pid gr).
    + assert (Children (heap pt') a1
              = filter (λ p, includedAt (heap pt') p = true ∧
                             parentAt (heap pt') p = Some a1) (absProcs pt')) as ->
        by (by apply (finish_Children pt0 false gs (Some roots) hp6 K Hs (Pid g1))).
      apply list_elem_of_filter. split; [done|].
      apply Habs. by exists (Pid g2).
Qed.

Lemma C7_ancestor_toggle_witness :
  ∃ a1 a2 r : ptr,
    PidProcess (sessionOf 5 [WithRootPid 200; WithRootAncestors] initAB) 1
    = Some a1 ∧
    PidProcess (sessionOf 5 [WithRootPid 200; WithRootAncestors] initAB) 100
    = Some a2 ∧
    PidProcess (sessionOf 5 [WithRootPid 200; WithRootAncestors] initAB) 200
    = Some r ∧
    a1 ∈ Roots (sessionOf 5 [WithRootPid 200; WithRootAncestors] initAB) ∧
    (r ∉ Roots (sessionOf 5 [WithRootPid 200; WithRootAncestors] initAB)) ∧
    r ∈ Children (heap (sessionOf 5 [WithRootPid 200; WithRootAncestors] initAB))
          a2.
Proof.
  assert (NoDup (Pid <$> initAB)) as H0.
  { vm_compute. repeat constructor; intros Hin;
      repeat (apply elem_of_cons in Hin as [Hin|Hin]; [discriminate|]);
      by apply elem_of_nil in Hin. }
  assert (answer (inl initAB) (New 5 [WithRootPid 200; WithRootAncestors])
          = Some (inl (sessionOf 5 [WithRootPid 200; WithRootAncestors] initAB)))
    as H1 by (vm_compute; reflexivity).
  assert (1 ≠ 0) as Hn1 by lia. assert (100 ≠ 0) as Hn2 by lia.
  destruct (C7_ancestor_toggle 5 [WithRootPid 200; WithRootAncestors] initAB
              (sessionOf 5 [WithRootPid 200; WithRootAncestors] initAB)
              (mk_gops 1 0 "init") (mk_gops 100 1 "a") (mk_gops 200 100 "b")
              H0 (list_elem_of_here _ _)
              (list_elem_of_further _ _ _ (list_elem_of_here _ _))
              (list_elem_of_further _ _ _
                 (list_elem_of_further _ _ _ (list_elem_of_here _ _)))
              eq_refl eq_refl eq_refl eq_refl eq_refl eq_refl Hn1 Hn2
              (list_elem_of_here _ _) H1)
    as (a1 & a2 & r & Ha1 & Ha2 & Hr & _ & _ & _ & _ & _ & Hanc).
  destruct (Hanc eq_refl) as (R1 & _ & _ & R2 & _ & _ & C1 & _).
  exists a1, a2, r.
  split; [exact Ha1|]. split; [exact Ha2|]. split; [exact Hr|].
  split; [exact R1|]. split; [exact R2|exact C1].
Defined.
